(** * Antigravity Pulse: process locator, quota classifier and poll cycle

    A shallow embedding of the TypeScript sources of the extension
    (process-finder.ts, quota-fetcher.ts in its two revisions, and the
    poll cycle of extension.ts), followed by the properties of the
    specification stated and settled over that embedding.

    Conventions of the embedding.
    - A JavaScript number that carries a quota fraction or a percentage is
      an exact rational [Q]; binary64 rounding is not modelled.  Numbers
      that the code stores are kept in lowest terms ([Qred]) so that
      Leibniz equality is numeric equality.
    - A duration or a time value in milliseconds is a [Z].
    - The clock is read once for a whole response, where [parseResponse]
      reads it for each entry and once more for the timestamp; no
      statement compares the countdowns of two entries.
    - A JavaScript [Date] is an [option Z]: [None] is the Invalid Date.
    - Strings are [String.string] over ASCII.
    - Code that can throw returns a [Result]; code that talks to the
      operating system or to the network runs in the monad [M], which
      reads the answers of a [World] and appends every call to a log. *)

From Stdlib Require Import ZArith QArith List String Ascii Bool Lia.
From Stdlib Require Import DecimalString DecimalZ DecimalPos.
From Stdlib Require Import Permutation Sorting.Sorted.
From Stdlib Require Import Qround.
Import ListNotations.

Local Open Scope string_scope.
Local Open Scope Z_scope.

(* ================================================================== *)
(** * Part I.  The embedding                                           *)
(* ================================================================== *)

(** ** Built-ins of the JavaScript runtime that the sources rely on *)

Module Js.

(** Template-literal rendering of an integral number. *)
Definition string_of_Z (z : Z) : string :=
  NilZero.string_of_int (Z.to_int z).

Definition isUpper (c : ascii) : bool :=
  let n := nat_of_ascii c in (65 <=? n)%nat && (n <=? 90)%nat.

Definition lowerChar (c : ascii) : ascii :=
  if isUpper c then ascii_of_nat (nat_of_ascii c + 32) else c.

(** [String.prototype.toLowerCase], on ASCII. *)
Fixpoint toLowerCase (s : string) : string :=
  match s with
  | EmptyString => EmptyString
  | String c s' => String (lowerChar c) (toLowerCase s')
  end.

(** [s.includes(needle)]. *)
Fixpoint includes (s needle : string) : bool :=
  prefix needle s ||
  match s with
  | EmptyString => false
  | String _ s' => includes s' needle
  end.

(** The class [\s] of a regular expression, on ASCII. *)
Definition isSpace (c : ascii) : bool :=
  let n := nat_of_ascii c in
  ((9 <=? n)%nat && (n <=? 13)%nat) || (n =? 32)%nat.

(** The class [\d]. *)
Definition isDigit (c : ascii) : bool :=
  let n := nat_of_ascii c in (48 <=? n)%nat && (n <=? 57)%nat.

Definition isLower (c : ascii) : bool :=
  let n := nat_of_ascii c in (97 <=? n)%nat && (n <=? 122)%nat.

(** The class [\w]. *)
Definition isWord (c : ascii) : bool :=
  isDigit c || isUpper c || isLower c || (nat_of_ascii c =? 95)%nat.

(** Every character of [s] is of class [p]. *)
Fixpoint every (p : ascii -> bool) (s : string) : bool :=
  match s with
  | EmptyString => true
  | String c s' => p c && every p s'
  end.

(** The longest prefix of [s] made of characters of class [p], and
    the rest: what a greedy [p+] or [p*] consumes. *)
Fixpoint span (p : ascii -> bool) (s : string) : string * string :=
  match s with
  | EmptyString => (EmptyString, EmptyString)
  | String c s' =>
      if p c then let (a, b) := span p s' in (String c a, b)
      else (EmptyString, s)
  end.

Fixpoint dropWhile (p : ascii -> bool) (s : string) : string :=
  match s with
  | EmptyString => EmptyString
  | String c s' => if p c then dropWhile p s' else s
  end.

Fixpoint rev (s : string) : string :=
  match s with
  | EmptyString => EmptyString
  | String c s' => rev s' ++ String c EmptyString
  end.

(** [String.prototype.trim]. *)
Definition trim (s : string) : string :=
  rev (dropWhile isSpace (rev (dropWhile isSpace s))).

(** [s.substring(n)]. *)
Fixpoint substringFrom (n : nat) (s : string) : string :=
  match n, s with
  | O, _ => s
  | S n', String _ s' => substringFrom n' s'
  | S _, EmptyString => EmptyString
  end.

(** [s.split(sep)] for a one-character separator. *)
Fixpoint splitChar (sep : ascii) (s : string) : list string :=
  match s with
  | EmptyString => [EmptyString]
  | String c s' =>
      if Ascii.eqb c sep then EmptyString :: splitChar sep s'
      else match splitChar sep s' with
           | [] => [String c EmptyString]
           | w :: ws => String c w :: ws
           end
  end.

(** First element of [s.split(/\s+/)]: the characters before the first
    run of white space. *)
Definition firstField (s : string) : string :=
  fst (span (fun c => negb (isSpace c)) s).

(** [s.replace(/c/g, by)] for a one-character pattern. *)
Fixpoint replaceChar (c : ascii) (by_ : string) (s : string) : string :=
  match s with
  | EmptyString => EmptyString
  | String x s' =>
      (if Ascii.eqb x c then by_ else String x EmptyString)
        ++ replaceChar c by_ s'
  end.

Fixpoint digitsValue (acc : Z) (s : string) : Z :=
  match s with
  | EmptyString => acc
  | String c s' =>
      digitsValue (10 * acc + Z.of_nat (nat_of_ascii c - 48)) s'
  end.

(** [parseInt(s, 10)] on an unsigned numeral: leading white space is
    skipped, the longest run of digits is read; [None] is NaN. *)
Definition parseInt (s : string) : option Z :=
  let (ds, _) := span isDigit (dropWhile isSpace s) in
  match ds with
  | EmptyString => None
  | _ => Some (digitsValue 0 ds)
  end.

(** The value of [o || d] for an optional string: [undefined] and the
    empty string are falsy. *)
Definition orElse (o : option string) (d : string) : string :=
  match o with
  | Some (String c s) => String c s
  | _ => d
  end.

(** The value of [o ?? 0] for an optional number. *)
Definition orZero (o : option Q) : Q :=
  match o with
  | Some x => x
  | None => 0%Q
  end.

(** Match of the regular expression [lit] [sep]+ ([val]+) at the very
    start of [s]: the captured group.  With the flag [i] ([ci]) the
    literal, given in lower case, is compared ignoring case. *)
Definition matchFlagHere (ci : bool) (lit : string)
    (sep val : ascii -> bool) (s : string) : option string :=
  if prefix lit (if ci then toLowerCase s else s) then
    let rest := substringFrom (String.length lit) s in
    match span sep rest with
    | (EmptyString, _) => None
    | (_, rest') =>
        match span val rest' with
        | (EmptyString, _) => None
        | (v, _) => Some v
        end
    end
  else None.

(** [s.match(/lit sep+ (val+)/)]: the capture of the leftmost match.
    The classes [sep] and [val] are disjoint at every use, so a greedy
    [sep+] never has to give a character back. *)
Fixpoint matchFlag (ci : bool) (lit : string) (sep val : ascii -> bool)
    (s : string) : option string :=
  match matchFlagHere ci lit sep val s with
  | Some v => Some v
  | None =>
      match s with
      | EmptyString => None
      | String _ s' => matchFlag ci lit sep val s'
      end
  end.

End Js.

(** A JavaScript [Map], which iterates in insertion order: an association
    list in which a key occurs at most once. *)

Module JsMap.
Section Operations.
Context {K V : Type} (eqb : K -> K -> bool).

Definition t := list (K * V).

Fixpoint get (key : K) (b : t) : option V :=
  match b with
  | [] => None
  | (k, v) :: rest => if eqb k key then Some v else get key rest
  end.

Definition has (key : K) (b : t) : bool :=
  match get key b with Some _ => true | None => false end.

(** [Map.prototype.set]: an existing key keeps its position. *)
Fixpoint set (key : K) (v : V) (b : t) : t :=
  match b with
  | [] => [(key, v)]
  | (k, v0) :: rest =>
      if eqb k key then (k, v) :: rest
      else (k, v0) :: set key v rest
  end.

Definition keys (b : t) : list K := map fst b.

Definition values (b : t) : list V := map snd b.

End Operations.
Arguments t : clear implicits.

(** The three statements of a grouping loop,
    [const list = map.get(key) || []; list.push(x); map.set(key, list);]. *)
Definition pushTo {K X : Type} (eqb : K -> K -> bool) (key : K) (x : X)
    (b : t K (list X)) : t K (list X) :=
  let members :=
    match get eqb key b with
    | Some l => l
    | None => []
    end in
  set eqb key (members ++ [x])%list b.

End JsMap.

(** Pure built-ins that are taken as given: the date parser and printer
    of the runtime, its rendering of a number inside a template literal,
    the JSON decoder applied to the PowerShell process listing, and the
    scan of a port listing by the regular expression of
    [parsePortOutput]. *)

Record WinProcess := {
  CommandLine : option string;
  ProcessId : option Z
}.

Inductive WinListing :=
| WinArray (ps : list WinProcess)
| WinSingle (p : WinProcess).

Inductive Platform := win32 | darwin | linux.
Inductive Arch := arm64 | x64.

Class JsRuntime := {
  (** [Date.parse]; [None] is NaN. *)
  Date_parse : string -> option Z;
  (** [Date.prototype.toISOString] of a valid time value. *)
  Date_toISOString : Z -> string;
  (** [`${x}`] for a number. *)
  Number_toString : Q -> string;
  (** [JSON.parse] of the process listing; [None] when it throws. *)
  JSON_parse_processes : string -> option WinListing;
  (** The port numbers found in a port listing for a given pid, in the
      order in which the scan meets them (for win32, the numeric
      elements of the decoded JSON value). *)
  scanPorts : Platform -> string -> option Z -> list Z
}.

(** Exceptions and promise rejections. *)
Inductive Error :=
| RangeError_InvalidTime      (* toISOString of the Invalid Date *)
| TypeError_ReduceEmpty       (* reduce of an empty array, no initial value *)
| HttpError (status : Z)      (* Error(`HTTP ${status}`) *)
| InvalidJson                 (* Error('Invalid JSON from Antigravity API') *)
| RequestError                (* 'error' event of the request *)
| RequestTimeout.             (* Error('Request timeout') *)

Inductive Result (A : Type) :=
| Ok (a : A)
| Throw (e : Error).
Arguments Ok {A} a.
Arguments Throw {A} e.

(** ** The response of GetUserStatus (interface ServerResponse)

    The wire payload as an optional-field schema: a field that may be
    absent on the wire is an [option]. *)

Module Wire.

(** The raw [resetTime]: an ISO-8601 text or a number of milliseconds. *)
Inductive RawStamp :=
| StampText (s : string)
| StampMillis (n : Z).

Record QuotaInfo := {
  remainingFraction : option Q;
  resetTime : option RawStamp
}.

Record ModelOrAlias := { model : option string }.

Record ClientModelConfig := {
  label : option string;
  modelOrAlias : option ModelOrAlias;
  quotaInfo : option QuotaInfo
}.

Record PlanInfo := { monthlyPromptCredits : Q }.

Record PlanStatus := {
  planInfo : option PlanInfo;
  availablePromptCredits : option Q
}.

Record CascadeModelConfigData := {
  clientModelConfigs : list ClientModelConfig
}.

Record UserStatus := {
  planStatus : option PlanStatus;
  cascadeModelConfigData : option CascadeModelConfigData
}.

Record ServerResponse := { userStatus : UserStatus }.

End Wire.

(** [userStatus.cascadeModelConfigData?.clientModelConfigs || []]. *)
Definition rawModels (userStatus : Wire.UserStatus)
    : list Wire.ClientModelConfig :=
  match Wire.cascadeModelConfigData userStatus with
  | Some c => Wire.clientModelConfigs c
  | None => []
  end.

(** A [Date]: [None] is the Invalid Date. *)
Definition JsDate := option Z.

(** [new Date(value)] for the raw reset time.  An absent field is
    [new Date(undefined)], the Invalid Date; a number is clipped to the
    range of time values (8.64e15 ms either side of the epoch). *)
Definition newDate `{JsRuntime} (v : option Wire.RawStamp) : JsDate :=
  match v with
  | None => None
  | Some (Wire.StampText s) => Date_parse s
  | Some (Wire.StampMillis n) =>
      if Z.abs n <=? 8640000000000000 then Some n else None
  end.

(** [d.toISOString()]: throws a RangeError on the Invalid Date. *)
Definition toISOString `{JsRuntime} (d : JsDate) : Result string :=
  match d with
  | Some t => Ok (Date_toISOString t)
  | None => Throw RangeError_InvalidTime
  end.

(** ** quota-fetcher.ts, the revision with dynamic pools *)

Module QuotaFetcher.

Record PromptCredits := {
  available : Q;
  monthly : Q;
  credits_remainingPct : Q
}.

(** The family strings returned by [classifyFamily]. *)
Inductive Family := gemini | gemini_flash | claude | gpt | other.

Definition Family_eqb (a b : Family) : bool :=
  match a, b with
  | gemini, gemini | gemini_flash, gemini_flash | claude, claude
  | gpt, gpt | other, other => true
  | _, _ => false
  end.

Record ModelQuota := {
  label : string;
  modelId : string;
  family : Family;
  remainingPct : Q;
  isExhausted : bool;
  resetTime : JsDate;
  timeUntilReset : string
}.

Record QuotaPool := {
  id : string;
  displayName : string;
  pool_remainingPct : Q;
  pool_isExhausted : bool;
  pool_resetTime : JsDate;
  pool_timeUntilReset : string;
  models : list ModelQuota
}.

Record QuotaSnapshot := {
  credits : option PromptCredits;
  pools : list QuotaPool;
  snapshot_models : list ModelQuota;
  timestamp : Z
}.

Definition classifyFamily (label modelId : string) : Family :=
  let lower := Js.toLowerCase (label ++ " " ++ modelId) in
  if Js.includes lower "claude" then claude
  else if Js.includes lower "gpt" then gpt
  else if Js.includes lower "gemini" then
    if Js.includes lower "flash" then gemini_flash else gemini
  else other.

(** [families.has(f)] for [families = new Set(models.map(m => m.family))]. *)
Definition hasFamily (f : Family) (ms : list ModelQuota) : bool :=
  existsb (fun m => Family_eqb (family m) f) ms.

Definition derivePoolName (ms : list ModelQuota) : string * string :=
  let hasPro := hasFamily gemini ms in
  let hasFlash := hasFamily gemini_flash ms in
  if hasPro && hasFlash then ("gemini", "Gemini")
  else if hasPro && negb hasFlash then ("gemini_pro", "Gem Pro")
  else if hasFlash && negb hasPro then ("gemini_flash", "Gem Flash")
  else
    let hasClaudeOrGpt := hasFamily claude ms || hasFamily gpt ms in
    if hasClaudeOrGpt then ("claude_gpt", "Claude")
    else ("other", Js.orElse (option_map label (hd_error ms)) "Other").

(** [Math.ceil(ms / 60_000)]. *)
Definition ceilMinutes (ms : Z) : Z := - ((- ms) / 60000).

Definition formatTime (ms : Z) : string :=
  if ms <=? 0 then "Now"
  else
    let mins := ceilMinutes ms in
    if mins <? 60 then Js.string_of_Z mins ++ "m"
    else
      let h := mins / 60 in
      if h >=? 24 then
        let d := h / 24 in
        let remH := h mod 24 in
        if remH >? 0
        then Js.string_of_Z d ++ "d " ++ Js.string_of_Z remH ++ "h"
        else Js.string_of_Z d ++ "d"
      else Js.string_of_Z h ++ "h " ++ Js.string_of_Z (mins mod 60) ++ "m".

(** [formatTime(diff)] where [diff = resetTime.getTime() - Date.now()].
    On the Invalid Date [diff] is NaN: every comparison of
    [formatTime] is then false and its last line renders the text
    below. *)
Definition formatDiff (resetTime : JsDate) (now : Z) : string :=
  match resetTime with
  | Some t => formatTime (t - now)
  | None => "NaNh NaNm"
  end.

(** [a < b] on numbers. *)
Definition Qltb (a b : Q) : bool :=
  match (a ?= b)%Q with Lt => true | _ => false end.

(** The credits section of [parseResponse]. *)
Definition parseCredits (us : Wire.UserStatus) : option PromptCredits :=
  match Wire.planStatus us with
  | Some ps =>
      match Wire.planInfo ps, Wire.availablePromptCredits ps with
      | Some info, Some availableRaw =>
          let monthly := Wire.monthlyPromptCredits info in
          let available := availableRaw in
          if Qltb 0 monthly then
            Some {| available := available;
                    monthly := monthly;
                    credits_remainingPct :=
                      Qred ((available / monthly) * 100) |}
          else None
      | _, _ => None
      end
  | None => None
  end.

(** The callback of [rawModels.filter(...).map(...)] on an entry that
    carries [quotaInfo]. *)
Definition parseModel `{JsRuntime} (now : Z) (m : Wire.ClientModelConfig)
    (qi : Wire.QuotaInfo) : ModelQuota :=
  let resetTime := newDate (Wire.resetTime qi) in
  let fraction := Js.orZero (Wire.remainingFraction qi) in
  let label := Js.orElse (Wire.label m) "Unknown" in
  let modelId :=
    Js.orElse (match Wire.modelOrAlias m with
               | Some a => Wire.model a
               | None => None
               end) "unknown" in
  {| label := label;
     modelId := modelId;
     family := classifyFamily label modelId;
     remainingPct := Qred (fraction * 100);
     isExhausted := Qeq_bool fraction 0;
     resetTime := resetTime;
     timeUntilReset := formatDiff resetTime now |}.

Fixpoint parseModels `{JsRuntime} (now : Z)
    (raw : list Wire.ClientModelConfig) : list ModelQuota :=
  match raw with
  | [] => []
  | m :: rest =>
      match Wire.quotaInfo m with
      | Some qi => parseModel now m qi :: parseModels now rest
      | None => parseModels now rest
      end
  end.

(** [new Map<string, ModelQuota[]>()]. *)
Definition BucketMap := JsMap.t string (list ModelQuota).

(** The grouping key of a model. *)
Definition bucketKey `{JsRuntime} (m : ModelQuota) : Result string :=
  match toISOString (resetTime m) with
  | Ok iso => Ok (Number_toString (remainingPct m) ++ "|" ++ iso)
  | Throw e => Throw e
  end.

(** The loop [for (const m of models) { ... }] over the bucket map. *)
Fixpoint fillBuckets `{JsRuntime} (ms : list ModelQuota) (b : BucketMap)
    : Result BucketMap :=
  match ms with
  | [] => Ok b
  | m :: rest =>
      match bucketKey m with
      | Throw e => Throw e
      | Ok key =>
          fillBuckets rest (JsMap.pushTo String.eqb key m b)
      end
  end.

(** [familyOrder.indexOf(f)]. *)
Definition familyIndex (f : Family) : Z :=
  match f with
  | gemini => 0 | gemini_flash => 1 | claude => 2 | gpt => 3 | other => 4
  end.

(** [Math.min(...xs)] of a non-empty list; no bucket is empty (on an
    empty list JavaScript answers Infinity, here a rank past the
    last). *)
Definition Math_min (xs : list Z) : Z :=
  match xs with
  | [] => 5
  | x :: rest => fold_left Z.min rest x
  end.

Definition bucketRank (members : list ModelQuota) : Z :=
  Math_min (map (fun m => familyIndex (family m)) members).

(** [Array.prototype.sort] with the comparator [aIdx - bIdx]: a stable
    sort by rank. *)
Fixpoint insertBucket (a : list ModelQuota) (l : list (list ModelQuota))
    : list (list ModelQuota) :=
  match l with
  | [] => [a]
  | b :: l' =>
      if bucketRank b <? bucketRank a then b :: insertBucket a l'
      else a :: b :: l'
  end.

Definition sortBuckets (l : list (list ModelQuota))
    : list (list ModelQuota) :=
  fold_right insertBucket [] l.

(** [members.reduce((a, b) => a.remainingPct < b.remainingPct ? a : b)]. *)
Definition representative (members : list ModelQuota) : Result ModelQuota :=
  match members with
  | [] => Throw TypeError_ReduceEmpty
  | m :: rest =>
      Ok (fold_left
            (fun a b => if Qltb (remainingPct a) (remainingPct b)
                        then a else b)
            rest m)
  end.

Definition makePool (members : list ModelQuota) : Result QuotaPool :=
  let (id, displayName) := derivePoolName members in
  match representative members with
  | Throw e => Throw e
  | Ok rep =>
      Ok {| id := id;
            displayName := displayName;
            pool_remainingPct := remainingPct rep;
            pool_isExhausted := isExhausted rep;
            pool_resetTime := resetTime rep;
            pool_timeUntilReset := timeUntilReset rep;
            models := members |}
  end.

Fixpoint makePools (buckets : list (list ModelQuota))
    : Result (list QuotaPool) :=
  match buckets with
  | [] => Ok []
  | members :: rest =>
      match makePool members with
      | Throw e => Throw e
      | Ok p =>
          match makePools rest with
          | Throw e => Throw e
          | Ok ps => Ok (p :: ps)
          end
      end
  end.

(** [parseResponse(data)], with the reading of the clock made explicit. *)
Definition parseResponse `{JsRuntime} (now : Z) (data : Wire.ServerResponse)
    : Result QuotaSnapshot :=
  let userStatus := Wire.userStatus data in
  let credits := parseCredits userStatus in
  let models := parseModels now (rawModels userStatus) in
  match fillBuckets models [] with
  | Throw e => Throw e
  | Ok bucketMap =>
      let sortedBuckets := sortBuckets (JsMap.values bucketMap) in
      match makePools sortedBuckets with
      | Throw e => Throw e
      | Ok pools =>
          Ok {| credits := credits;
                pools := pools;
                snapshot_models := models;
                timestamp := now |}
      end
  end.

End QuotaFetcher.

(** ** The outside world: process table, sockets, clock

    Every call that leaves the program is appended to a log; the answer
    of the world may depend on everything that happened before. *)

Inductive Scheme := http | https.

Record Request := {
  req_scheme : Scheme;
  req_hostname : string;
  req_port : Z;
  req_path : string;
  req_csrfToken : string;      (* header X-Codeium-Csrf-Token *)
  req_timeout : Z
}.

(** What the callbacks of a request observe. *)
Inductive Reply :=
| ReplyError                   (* the 'error' event *)
| ReplyTimeout                 (* the 'timeout' event *)
| ReplyHttp (statusCode : Z) (body : option Wire.ServerResponse).
                               (* 'end'; [None]: JSON.parse throws *)

(** The shell commands of [findProcess] and [getListeningPorts]. *)
Inductive Command :=
| ListProcesses (plat : Platform) (name : string)
| ListPorts (plat : Platform) (pid : option Z).

Inductive Event :=
| EvExec (c : Command)
| EvRequest (r : Request).

Definition Log := list Event.

Record World := {
  platform : Platform;
  arch : Arch;
  (** [execAsync(cmd)]: the standard output, [None] when it rejects. *)
  exec : Log -> Command -> option string;
  request : Log -> Request -> Reply;
  (** [Date.now()]. *)
  clock : Log -> Z
}.

Definition M (A : Type) : Type := World -> Log -> A * Log.

Definition ret {A} (a : A) : M A := fun _ log => (a, log).

Definition bind {A B} (c : M A) (k : A -> M B) : M B :=
  fun w log => let (a, log') := c w log in k a w log'.

Notation "x <- c ;; k" := (bind c (fun x => k))
  (at level 61, c at next level, right associativity).

Definition execAsync (c : Command) : M (option string) :=
  fun w log => (exec w log c, (log ++ [EvExec c])%list).

Definition sendRequest (r : Request) : M Reply :=
  fun w log => (request w log r, (log ++ [EvRequest r])%list).

Definition Date_now : M Z := fun w log => (clock w log, log).

Definition getPlatform : M Platform := fun w log => (platform w, log).

Definition getArch : M Arch := fun w log => (arch w, log).

(** ** quota-fetcher.ts: the calls to the status endpoint *)

Module Fetcher.

Import QuotaFetcher.

Definition statusPath : string :=
  "/exa.language_server_pb.LanguageServerService/GetUserStatus".

(** The options of [lib.request(...)] in [post]. *)
Definition postOptions (port : Z) (csrfToken : string) (path : string)
    (protocol : Scheme) : Request :=
  {| req_scheme := protocol;
     req_hostname := "127.0.0.1";
     req_port := port;
     req_path := path;
     req_csrfToken := csrfToken;
     req_timeout := 5000 |}.

Definition post (port : Z) (csrfToken : string) (path : string)
    (protocol : Scheme) : M (Result Wire.ServerResponse) :=
  reply <- sendRequest (postOptions port csrfToken path protocol) ;;
  ret match reply with
      | ReplyError => Throw RequestError
      | ReplyTimeout => Throw RequestTimeout
      | ReplyHttp statusCode body =>
          if statusCode >=? 400 then Throw (HttpError statusCode)
          else match body with
               | Some data => Ok data
               | None => Throw InvalidJson
               end
      end.

(** Try HTTP first; if it fails, fall back to HTTPS on the same port. *)
Definition postWithFallback (port : Z) (csrfToken : string) (path : string)
    : M (Result Wire.ServerResponse) :=
  r <- post port csrfToken path http ;;
  match r with
  | Ok data => ret (Ok data)
  | Throw _ => post port csrfToken path https
  end.

Definition fetchQuota `{JsRuntime} (port : Z) (csrfToken : string)
    : M (Result QuotaSnapshot) :=
  r <- postWithFallback port csrfToken statusPath ;;
  match r with
  | Throw e => ret (Throw e)
  | Ok data =>
      now <- Date_now ;;
      ret (parseResponse now data)
  end.

End Fetcher.

(** ** process-finder.ts *)

Module ProcessFinder.

Record ProcessInfo := {
  port : Z;
  csrfToken : string
}.

(** [pid] is [None] when [parseInt] answers NaN. *)
Record ParsedProcess := {
  pid : option Z;
  extensionPort : Z;
  parsed_csrfToken : string
}.

Definition getProcessName (plat : Platform) (a : Arch) : string :=
  match plat with
  | win32 => "language_server_windows_x64.exe"
  | darwin =>
      "language_server_macos" ++ match a with arm64 => "_arm" | x64 => "" end
  | linux =>
      "language_server_linux" ++
        match a with arm64 => "_arm" | x64 => "_x64" end
  end.

(** The character class [=\s]. *)
Definition isFlagSep (c : ascii) : bool :=
  Ascii.eqb c "="%char || Js.isSpace c.

(** The character class [a-zA-Z0-9\-]. *)
Definition isTokenChar (c : ascii) : bool :=
  Js.isLower c || Js.isUpper c || Js.isDigit c || Ascii.eqb c "-"%char.

(** The character class [a-f0-9\-] under the flag [i]. *)
Definition isHexTokenChar (c : ascii) : bool :=
  let n := nat_of_ascii (Js.lowerChar c) in
  ((97 <=? n)%nat && (n <=? 102)%nat) || Js.isDigit c
  || Ascii.eqb c "-"%char.

(** [cmd.match(/--extension_server_port[=\s]+(\d+)/)]. *)
Definition matchPort (cmd : string) : option string :=
  Js.matchFlag false "--extension_server_port" isFlagSep Js.isDigit cmd.

(** [cmd.match(/--csrf_token[=\s]+([a-zA-Z0-9\-]+)/)]. *)
Definition matchToken (cmd : string) : option string :=
  Js.matchFlag false "--csrf_token" isFlagSep isTokenChar cmd.

(** [cmdLine.match(/--csrf_token[=\s]+([a-f0-9\-]+)/i)]. *)
Definition matchTokenWindows (cmdLine : string) : option string :=
  Js.matchFlag true "--csrf_token" isFlagSep isHexTokenChar cmdLine.

(** [port ? parseInt(port[1], 10) : 0]. *)
Definition hintedPort (m : option string) : Z :=
  match m with
  | Some digits => Js.digitsValue 0 digits
  | None => 0
  end.

(** [/--app_data_dir\s+antigravity\b/i.test(s)], on the lower-cased
    text: the literal, white space, the word, then a word boundary. *)
Fixpoint testAppDataDir (lower : string) : bool :=
  (if prefix "--app_data_dir" lower then
     match Js.span Js.isSpace (Js.substringFrom 14 lower) with
     | (EmptyString, _) => false
     | (_, rest) =>
         prefix "antigravity" rest &&
         match Js.substringFrom 11 rest with
         | EmptyString => true
         | String c _ => negb (Js.isWord c)
         end
     end
   else false)
  || match lower with
     | EmptyString => false
     | String _ s' => testAppDataDir s'
     end.

(** The filter of [parseWindows]: Antigravity processes only. *)
Definition isAntigravity (d : WinProcess) : bool :=
  let cmd := Js.toLowerCase (Js.orElse (CommandLine d) "") in
  testAppDataDir cmd
  || Js.includes cmd "\antigravity\"
  || Js.includes cmd "/antigravity/".

Definition parseWindows `{JsRuntime} (stdout : string)
    : option ParsedProcess :=
  match JSON_parse_processes (Js.trim stdout) with
  | None => None                                   (* catch *)
  | Some listing =>
      let chosen :=
        match listing with
        | WinArray ds => hd_error (filter isAntigravity ds)
        | WinSingle d => Some d
        end in
      match chosen with
      | None => None                               (* data.length === 0 *)
      | Some data =>
          let cmdLine := Js.orElse (CommandLine data) "" in
          match ProcessId data with
          | None => None
          | Some p =>
              if p =? 0 then None                  (* !pid *)
              else
                let port := matchPort cmdLine in
                match matchTokenWindows cmdLine with
                | None => None                     (* !token?.[1] *)
                | Some token =>
                    Some {| pid := Some p;
                            extensionPort := hintedPort port;
                            parsed_csrfToken := token |}
                end
          end
      end
  end.

Definition toWorkspaceId (folderPath : string) : string :=
  "file" ++
    Js.replaceChar "/"%char "_" (Js.replaceChar " "%char "_20" folderPath).

Definition parseUnix (stdout : string) (workspacePath : option string)
    : option ParsedProcess :=
  let wsId :=
    match workspacePath with
    | Some (String c s) => Some (toWorkspaceId (String c s))
    | _ => None
    end in
  let lines :=
    filter (fun l => Js.includes l "--extension_server_port")
           (Js.splitChar "010"%char stdout) in
  let found :=
    match wsId with
    | Some w => find (fun l => Js.includes l w) lines
    | None => None
    end in
  let target :=
    match found with
    | Some l => Some l
    | None => hd_error lines
    end in
  match target with
  | None => None
  | Some target =>
      let part0 := Js.firstField (Js.trim target) in
      let pid := Js.parseInt part0 in
      let cmd := Js.trim (Js.substringFrom (String.length part0) target) in
      let port := matchPort cmd in
      let token := matchToken cmd in
      Some {| pid := pid;
              extensionPort := hintedPort port;
              parsed_csrfToken :=
                match token with Some t => t | None => "" end |}
  end.

Definition parseProcessOutput `{JsRuntime} (plat : Platform)
    (stdout : string) (workspacePath : option string)
    : option ParsedProcess :=
  match plat with
  | win32 => parseWindows stdout
  | _ => parseUnix stdout workspacePath
  end.

(** [None]: the promise rejects (the command failed). *)
Definition findProcess `{JsRuntime} (name : string)
    (workspacePath : option string) : M (option (option ParsedProcess)) :=
  plat <- getPlatform ;;
  out <- execAsync (ListProcesses plat name) ;;
  ret match out with
      | None => None
      | Some stdout => Some (parseProcessOutput plat stdout workspacePath)
      end.

(** [if (!ports.includes(p)) { ports.push(p); }] over the scan. *)
Fixpoint pushUnique (found : list Z) (ports : list Z) : list Z :=
  match found with
  | [] => ports
  | p :: rest =>
      if existsb (Z.eqb p) ports then pushUnique rest ports
      else pushUnique rest (ports ++ [p])%list
  end.

(** [ports.sort((a, b) => a - b)]. *)
Fixpoint insertPort (p : Z) (l : list Z) : list Z :=
  match l with
  | [] => [p]
  | q :: l' => if q <? p then q :: insertPort p l' else p :: q :: l'
  end.

Definition sortPorts (l : list Z) : list Z := fold_right insertPort [] l.

Definition parsePortOutput `{JsRuntime} (plat : Platform) (stdout : string)
    (pid : option Z) : list Z :=
  sortPorts (pushUnique (scanPorts plat stdout pid) []).

Definition getListeningPorts `{JsRuntime} (pid : option Z) : M (list Z) :=
  plat <- getPlatform ;;
  out <- execAsync (ListPorts plat pid) ;;
  ret match out with
      | None => []                                  (* catch *)
      | Some stdout => parsePortOutput plat stdout pid
      end.

Definition probePath : string :=
  "/exa.language_server_pb.LanguageServerService/GetUnleashData".

(** The options of [https.request(...)] in [testPort]. *)
Definition probeOptions (port : Z) (csrfToken : string) : Request :=
  {| req_scheme := https;
     req_hostname := "127.0.0.1";
     req_port := port;
     req_path := probePath;
     req_csrfToken := csrfToken;
     req_timeout := 3000 |}.

(** What the callbacks of [testPort] resolve the promise with. *)
Definition probeAccepts (reply : Reply) : bool :=
  match reply with
  | ReplyHttp statusCode body =>
      if statusCode =? 200 then
        match body with Some _ => true | None => false end
      else false
  | ReplyError => false
  | ReplyTimeout => false
  end.

Definition testPort (port : Z) (csrfToken : string) : M bool :=
  reply <- sendRequest (probeOptions port csrfToken) ;;
  ret (probeAccepts reply).

Fixpoint findWorkingPort (ports : list Z) (csrfToken : string)
    : M (option Z) :=
  match ports with
  | [] => ret None
  | port :: rest =>
      ok <- testPort port csrfToken ;;
      if ok then ret (Some port) else findWorkingPort rest csrfToken
  end.

Definition findAntigravityProcess `{JsRuntime}
    (workspacePath : option string) : M (option ProcessInfo) :=
  plat <- getPlatform ;;
  a <- getArch ;;
  let processName := getProcessName plat a in
  r <- findProcess processName workspacePath ;;
  match r with
  | None => ret None                                (* catch *)
  | Some None => ret None                           (* !parsed *)
  | Some (Some parsed) =>
      ports <- getListeningPorts (pid parsed) ;;
      match ports with
      | [] => ret None
      | _ =>
          workingPort <- findWorkingPort ports (parsed_csrfToken parsed) ;;
          match workingPort with
          | None => ret None
          | Some p =>
              if p =? 0 then ret None               (* !workingPort *)
              else ret (Some {| port := p;
                                csrfToken := parsed_csrfToken parsed |})
          end
      end
  end.

End ProcessFinder.

(** ** extension.ts: the module state *)

Module Extension.

Import QuotaFetcher.

(** What the status bar item shows once a function that sets it has
    returned. *)
Inductive Display :=
| Loading                              (* showLoading() *)
| ErrorShown (msg : string)            (* showError(msg) *)
| QuotaShown (snap : QuotaSnapshot).   (* updateStatusBar(snap) *)

(** The module-level variables. *)
Record State := {
  statusBarItem : Display;
  processInfo : option ProcessFinder.ProcessInfo;
  lastSnapshot : option QuotaSnapshot
}.

Definition showError (msg : string) (st : State) : State :=
  {| statusBarItem := ErrorShown msg;
     processInfo := processInfo st;
     lastSnapshot := lastSnapshot st |}.

(** The state after [updateStatusBar(snap)] has returned; whether it
    returns is told by [Rendering.draws]. *)
Definition updateStatusBar (snap : QuotaSnapshot) (st : State) : State :=
  {| statusBarItem := QuotaShown snap;
     processInfo := processInfo st;
     lastSnapshot := lastSnapshot st |}.

Definition setLastSnapshot (snapshot : QuotaSnapshot) (st : State) : State :=
  {| statusBarItem := statusBarItem st;
     processInfo := processInfo st;
     lastSnapshot := Some snapshot |}.

(** [lastSnapshot = snapshot; updateStatusBar(snapshot);], when the
    second statement returns. *)
Definition showSnapshot (snapshot : QuotaSnapshot) (st : State) : State :=
  updateStatusBar snapshot (setLastSnapshot snapshot st).

Definition setProcessInfo (p : option ProcessFinder.ProcessInfo)
    (st : State) : State :=
  {| statusBarItem := statusBarItem st;
     processInfo := p;
     lastSnapshot := lastSnapshot st |}.

(** [wsPath] is [vscode.workspace.workspaceFolders?.[0]?.uri.fsPath]. *)
Definition detectProcess `{JsRuntime} (wsPath : option string) (st : State)
    : M State :=
  p <- ProcessFinder.findAntigravityProcess wsPath ;;
  ret (setProcessInfo p st).

End Extension.

(** ** quota-fetcher.ts, the earlier revision with a fixed pool taxonomy

    This revision posts over HTTPS only, groups models by a pool
    identifier computed from their names, and renders durations without
    a day component. *)

Module Legacy.

Inductive QuotaPoolId := gemini3 | claude_gpt | gemini2_5 | other.

Definition QuotaPoolId_eqb (a b : QuotaPoolId) : bool :=
  match a, b with
  | gemini3, gemini3 | claude_gpt, claude_gpt
  | gemini2_5, gemini2_5 | other, other => true
  | _, _ => false
  end.

Record ModelQuota := {
  label : string;
  modelId : string;
  pool : QuotaPoolId;
  remainingPct : Q;
  isExhausted : bool;
  resetTime : JsDate;
  timeUntilReset : string
}.

Record QuotaPool := {
  id : QuotaPoolId;
  displayName : string;
  pool_remainingPct : Q;
  pool_isExhausted : bool;
  pool_resetTime : JsDate;
  pool_timeUntilReset : string;
  models : list ModelQuota
}.

Record QuotaSnapshot := {
  credits : option QuotaFetcher.PromptCredits;
  pools : list QuotaPool;
  snapshot_models : list ModelQuota;
  timestamp : Z
}.

Definition POOL_DISPLAY_NAMES (i : QuotaPoolId) : string :=
  match i with
  | gemini3 => "Gemini 3.x"
  | claude_gpt => "Claude / GPT"
  | gemini2_5 => "Gemini 2.5"
  | other => "Other"
  end.

(** [re.test(s)] for a pattern matched by [here] at one position. *)
Fixpoint testAnywhere (here : string -> bool) (s : string) : bool :=
  here s ||
  match s with
  | EmptyString => false
  | String _ s' => testAnywhere here s'
  end.

(** An optional character of class [p] followed by [k]. *)
Definition optional (p : ascii -> bool) (k : string -> bool) (s : string)
    : bool :=
  match s with
  | String c s' => (p c && k s') || k s
  | EmptyString => k s
  end.

(** The class [- _]. *)
Definition isNameSep (c : ascii) : bool :=
  Ascii.eqb c "-"%char || Ascii.eqb c " "%char || Ascii.eqb c "_"%char.

(** The class [.-]. *)
Definition isDotDash (c : ascii) : bool :=
  Ascii.eqb c "."%char || Ascii.eqb c "-"%char.

(** [/gemini[- _]?3(\.\d+)?/i.test(lower)]; the optional tail does not
    change the outcome of a test. *)
Definition testGemini3 (lower : string) : bool :=
  testAnywhere
    (fun s => prefix "gemini" s &&
              optional isNameSep (prefix "3") (Js.substringFrom 6 s))
    lower.

(** [/gemini[- _]?2[.-]?5/i.test(lower)]. *)
Definition testGemini25 (lower : string) : bool :=
  testAnywhere
    (fun s => prefix "gemini" s &&
              optional isNameSep
                (fun r => prefix "2" r &&
                          optional isDotDash (prefix "5")
                                   (Js.substringFrom 1 r))
                (Js.substringFrom 6 s))
    lower.

Definition classifyModel (label modelId : string) : QuotaPoolId :=
  let lower := Js.toLowerCase (label ++ " " ++ modelId) in
  if Js.includes lower "claude" || Js.includes lower "gpt" then claude_gpt
  else if Js.includes lower "gemini" then
    if testGemini3 lower then gemini3
    else if testGemini25 lower then gemini2_5
    else other
  else other.

Definition formatTime (ms : Z) : string :=
  if ms <=? 0 then "Now"
  else
    let mins := QuotaFetcher.ceilMinutes ms in
    if mins <? 60 then Js.string_of_Z mins ++ "m"
    else
      let h := mins / 60 in
      Js.string_of_Z h ++ "h " ++ Js.string_of_Z (mins mod 60) ++ "m".

Definition formatDiff (resetTime : JsDate) (now : Z) : string :=
  match resetTime with
  | Some t => formatTime (t - now)
  | None => "NaNh NaNm"
  end.

Definition parseModel `{JsRuntime} (now : Z) (m : Wire.ClientModelConfig)
    (qi : Wire.QuotaInfo) : ModelQuota :=
  let resetTime := newDate (Wire.resetTime qi) in
  let fraction := Js.orZero (Wire.remainingFraction qi) in
  let label := Js.orElse (Wire.label m) "Unknown" in
  let modelId :=
    Js.orElse (match Wire.modelOrAlias m with
               | Some a => Wire.model a
               | None => None
               end) "unknown" in
  {| label := label;
     modelId := modelId;
     pool := classifyModel label modelId;
     remainingPct := Qred (fraction * 100);
     isExhausted := Qeq_bool fraction 0;
     resetTime := resetTime;
     timeUntilReset := formatDiff resetTime now |}.

Fixpoint parseModels `{JsRuntime} (now : Z)
    (raw : list Wire.ClientModelConfig) : list ModelQuota :=
  match raw with
  | [] => []
  | m :: rest =>
      match Wire.quotaInfo m with
      | Some qi => parseModel now m qi :: parseModels now rest
      | None => parseModels now rest
      end
  end.

Definition PoolMap := JsMap.t QuotaPoolId (list ModelQuota).

(** The loop [for (const m of models) { ... }] over the pool map. *)
Fixpoint fillPools (ms : list ModelQuota) (b : PoolMap) : PoolMap :=
  match ms with
  | [] => b
  | m :: rest =>
      fillPools rest (JsMap.pushTo QuotaPoolId_eqb (pool m) m b)
  end.

Definition poolOrder : list QuotaPoolId :=
  [gemini3; claude_gpt; gemini2_5; other].

(** [members.reduce((a, b) => a.remainingPct < b.remainingPct ? a : b)]. *)
Definition lowest (members : list ModelQuota) : Result ModelQuota :=
  match members with
  | [] => Throw TypeError_ReduceEmpty
  | m :: rest =>
      Ok (fold_left
            (fun a b =>
               if QuotaFetcher.Qltb (remainingPct a) (remainingPct b)
               then a else b)
            rest m)
  end.

(** The callback of [.map(id => ...)]; [members] is [poolMap.get(id)!]. *)
Definition makePool (i : QuotaPoolId) (members : list ModelQuota)
    : Result QuotaPool :=
  match lowest members with
  | Throw e => Throw e
  | Ok lowestModel =>
      Ok {| id := i;
            displayName := POOL_DISPLAY_NAMES i;
            pool_remainingPct := remainingPct lowestModel;
            pool_isExhausted := isExhausted lowestModel;
            pool_resetTime := resetTime lowestModel;
            pool_timeUntilReset := timeUntilReset lowestModel;
            models := members |}
  end.

(** [poolOrder.filter(id => poolMap.has(id)).map(id => ...)]. *)
Fixpoint buildPools (order : list QuotaPoolId) (poolMap : PoolMap)
    : Result (list QuotaPool) :=
  match order with
  | [] => Ok []
  | i :: rest =>
      match JsMap.get QuotaPoolId_eqb i poolMap with
      | None => buildPools rest poolMap
      | Some members =>
          match makePool i members with
          | Throw e => Throw e
          | Ok p =>
              match buildPools rest poolMap with
              | Throw e => Throw e
              | Ok ps => Ok (p :: ps)
              end
          end
      end
  end.

Definition parseResponse `{JsRuntime} (now : Z) (data : Wire.ServerResponse)
    : Result QuotaSnapshot :=
  let userStatus := Wire.userStatus data in
  let credits := QuotaFetcher.parseCredits userStatus in
  let models := parseModels now (rawModels userStatus) in
  let poolMap := fillPools models [] in
  match buildPools poolOrder poolMap with
  | Throw e => Throw e
  | Ok pools =>
      Ok {| credits := credits;
            pools := pools;
            snapshot_models := models;
            timestamp := now |}
  end.

End Legacy.

(** ** A runtime and a world for worked examples

    Dates are written and printed as a count of milliseconds since the
    epoch, a number is printed as its fraction in lowest terms (an
    integer without a denominator), the process listing is not decoded,
    and a port listing is a sequence of numerals, one per line. *)

Module Sample.

Definition parseMillis (s : string) : option Z :=
  match s with
  | EmptyString => None
  | _ => if Js.every Js.isDigit s then Some (Js.digitsValue 0 s) else None
  end.

Definition printNumber (q : Q) : string :=
  let r := Qred q in
  match Qden r with
  | 1%positive => Js.string_of_Z (Qnum r)
  | d => Js.string_of_Z (Qnum r) ++ "/" ++ Js.string_of_Z (Zpos d)
  end.

Fixpoint numerals (ls : list string) : list Z :=
  match ls with
  | [] => []
  | l :: rest =>
      match Js.parseInt l with
      | Some n => n :: numerals rest
      | None => numerals rest
      end
  end.

Definition runtime : JsRuntime :=
  {| Date_parse := parseMillis;
     Date_toISOString := Js.string_of_Z;
     Number_toString := printNumber;
     JSON_parse_processes := fun _ => None;
     scanPorts := fun _ stdout _ => numerals (Js.splitChar "010"%char stdout)
  |}.

(** A model entry of the status payload. *)
Definition entry (name : string) (fraction : option Q) (reset : option Z)
    : Wire.ClientModelConfig :=
  {| Wire.label := Some name;
     Wire.modelOrAlias := Some {| Wire.model := Some name |};
     Wire.quotaInfo :=
       Some {| Wire.remainingFraction := fraction;
               Wire.resetTime := option_map Wire.StampMillis reset |} |}.

Definition payload (entries : list Wire.ClientModelConfig)
    : Wire.ServerResponse :=
  {| Wire.userStatus :=
       {| Wire.planStatus := None;
          Wire.cascadeModelConfigData :=
            Some {| Wire.clientModelConfigs := entries |} |} |}.

(** Four models that reset together: two at 35 percent, one whose
    fraction is absent and one whose fraction is an explicit zero. *)
Definition resetAt : Z := 1772323200000.

Definition clock0 : Z := 1772323000000.

Definition entries : list Wire.ClientModelConfig :=
  [ entry "Gemini 3 Pro" (Some (35 # 100)) (Some resetAt);
    entry "Claude Sonnet" None (Some resetAt);
    entry "GPT-OSS" (Some 0%Q) (Some resetAt);
    entry "Gemini 3 Flash" (Some (35 # 100)) (Some resetAt) ].

Definition data : Wire.ServerResponse := payload entries.

(** The same payload with one more entry, whose reset time is absent. *)
Definition brokenData : Wire.ServerResponse :=
  payload (entries ++ [entry "Gemini 2.5" (Some 1%Q) None])%list.

Definition newline : string := String "010"%char EmptyString.

(** A line of [pgrep -af] for a language server started with a token. *)
Definition processLine : string :=
  "1234 /opt/antigravity/language_server_linux_x64 --extension_server_port 42100 --csrf_token 6f1c-ab90 --workspace_id file_home_me_proj".

(** The same line for a language server started without a token. *)
Definition processLineNoToken : string :=
  "1234 /opt/antigravity/language_server_linux_x64 --extension_server_port 42100 --workspace_id file_home_me_proj".

(** The listening ports of that process, as the scan meets them. *)
Definition portListing : string :=
  "42102" ++ newline ++ "42100" ++ newline ++ "42101" ++ newline ++ "42100".

(** A Linux machine on which the process table shows [line], and the
    language server answers on port 42101 over [speaks] only, whatever
    the token, with [served] as the body. *)
Definition world (line : string) (speaks : Scheme)
    (served : Wire.ServerResponse) : World :=
  {| platform := linux;
     arch := x64;
     exec := fun _ c =>
       match c with
       | ListProcesses _ _ => Some line
       | ListPorts _ _ => Some portListing
       end;
     request := fun _ r =>
       if (req_port r =? 42101) &&
          match req_scheme r, speaks with
          | http, http | https, https => true
          | _, _ => false
          end
       then ReplyHttp 200 (Some served)
       else ReplyError;
     clock := fun _ => clock0 |}.

End Sample.

(** ** Vocabulary of the statements *)

(** The characters a rendered integer is made of. *)
Definition isNumeralChar (c : ascii) : bool :=
  Js.isDigit c || Ascii.eqb c "-"%char.

(** A family is present among the members of a bucket. *)
Definition present (f : QuotaFetcher.Family)
    (ms : list QuotaFetcher.ModelQuota) : Prop :=
  exists m, In m ms /\ QuotaFetcher.family m = f.

(** Two models are members of one pool of the snapshot. *)
Definition samePool (snap : QuotaFetcher.QuotaSnapshot)
    (m1 m2 : QuotaFetcher.ModelQuota) : Prop :=
  exists p, In p (QuotaFetcher.pools snap) /\
            In m1 (QuotaFetcher.models p) /\ In m2 (QuotaFetcher.models p).

(** What the grouping relies on in the runtime: the rendering of a
    number determines the number and contains no vertical bar, and the
    ISO rendering of a time value determines the time value. *)
Class RuntimeLaws (RT : JsRuntime) : Prop := {
  Number_toString_inj :
    forall a b : Q, Number_toString a = Number_toString b -> (a == b)%Q;
  Number_toString_no_bar :
    forall a : Q,
      Js.every (fun c => negb (Ascii.eqb c "|"%char)) (Number_toString a)
      = true;
  Date_toISOString_inj :
    forall a b : Z, Date_toISOString a = Date_toISOString b -> a = b
}.

(** The invariant of the bucket map: keys are distinct, and a bucket is
    non-empty and holds models whose grouping key is its key. *)
Definition bucketsWF `{JsRuntime} (b : QuotaFetcher.BucketMap) : Prop :=
  NoDup (JsMap.keys b) /\
  forall k l, In (k, l) b ->
              l <> [] /\
              Forall (fun x => QuotaFetcher.bucketKey x = Ok k) l.

(** The same invariant for the pool map of the earlier revision. *)
Definition poolsWF (b : Legacy.PoolMap) : Prop :=
  NoDup (JsMap.keys b) /\
  forall k l, In (k, l) b ->
              l <> [] /\ Forall (fun x => Legacy.pool x = k) l.

(** The probes of [findWorkingPort] for a list of ports, as logged. *)
Definition probes (csrfToken : string) (ports : list Z) : Log :=
  map (fun p => EvRequest (ProcessFinder.probeOptions p csrfToken)) ports.

Definition isDetection (ev : Event) : bool :=
  match ev with
  | EvExec (ListProcesses _ _) => true
  | _ => false
  end.

(** How many times the process table was queried. *)
Definition detections (log : Log) : nat :=
  List.length (filter isDetection log).

(** A request of a status call to a given port with a given token. *)
Definition isStatusCallTo (port : Z) (csrfToken : string) (ev : Event)
    : Prop :=
  exists protocol,
    ev = EvRequest
           (Fetcher.postOptions port csrfToken Fetcher.statusPath protocol).

(** Unfolding of the monad of the world. *)
Ltac run_monad :=
  unfold bind, ret, execAsync, sendRequest, Date_now, getPlatform, getArch.

(** ** extension.ts: what the status bar and the tooltip show *)

Module StatusBar.

Import QuotaFetcher.

(** [POOL_SHORT[id]], on the keys the object literal declares. *)
Definition POOL_SHORT (id : string) : option string :=
  if String.eqb id "all" then Some "All Models"
  else if String.eqb id "gemini" then Some "Gemini"
  else if String.eqb id "gemini_pro" then Some "Gem Pro"
  else if String.eqb id "gemini_flash" then Some "Gem Flash"
  else if String.eqb id "claude_gpt" then Some "Claude"
  else if String.eqb id "other" then Some "Other"
  else None.

(** [const short = POOL_SHORT[pool.id] || pool.displayName]. *)
Definition shortLabel (pool : QuotaPool) : string :=
  Js.orElse (POOL_SHORT (id pool)) (displayName pool).

(** The three glyphs of [healthDot]. *)
Inductive Dot := Green | Yellow | Red.

Definition healthDot (pct : Q) : Dot :=
  if Qltb 50 pct then Green
  else if Qltb 20 pct then Yellow
  else Red.

(** [Math.round(x)]: the integer nearest to [x], halves rounded up. *)
Definition Math_round (x : Q) : Z := Qfloor (x + (1 # 2)).

(** [c.repeat(n)] as the list of its characters; [None] is the
    RangeError thrown for a negative count. *)
Definition String_repeat {A : Type} (c : A) (n : Z) : option (list A) :=
  if n <? 0 then None else Some (repeat c (Z.to_nat n)).

(** The two glyphs of the progress bar. *)
Inductive Cell := Filled | Hollow.

Definition visualBar (pct : Q) : option (list Cell) :=
  let total := 20 in
  let filled := Math_round ((pct / 100) * inject_Z total) in
  let empty := total - filled in
  match String_repeat Filled filled with
  | None => None
  | Some a =>
      match String_repeat Hollow empty with
      | None => None
      | Some b => Some (a ++ b)%list
      end
  end.

(** The next value of the setting in the command toggleClockFormat. *)
Definition nextClockFormat (current : string) : string :=
  if String.eqb current "auto" then "12h"
  else if String.eqb current "12h" then "24h"
  else "auto".

End StatusBar.

(** ** extension.ts: one poll cycle

    [updateStatusBar] ends by building the tooltip, which draws one bar
    for each pool.  A bar that cannot be drawn throws, inside the try
    block of [refreshQuota] and after [lastSnapshot] was assigned.  By
    then the text of the item is already replaced, but every path that
    follows sets text, tooltip and background anew, so that [Display]
    still tells what the item shows when the cycle ends. *)

Module Rendering.

Import QuotaFetcher.

(** [buildTooltip(snap)] returns: each [visualBar(pool.remainingPct)]
    does. *)
Definition draws (snap : QuotaSnapshot) : bool :=
  forallb (fun p =>
             match StatusBar.visualBar (pool_remainingPct p) with
             | Some _ => true
             | None => false
             end)
          (pools snap).

(** [lastSnapshot = snapshot; updateStatusBar(snapshot);] after the
    awaited fetch gave [r]: the state reached, and whether the try block
    ran to its end. *)
Definition tryShow (r : Result QuotaSnapshot) (st : Extension.State)
    : Extension.State * bool :=
  match r with
  | Ok snapshot =>
      let st := Extension.setLastSnapshot snapshot st in
      if draws snapshot then (Extension.updateStatusBar snapshot st, true)
      else (st, false)
  | Throw _ => (st, false)
  end.

Definition refreshQuota `{JsRuntime} (wsPath : option string)
    (st : Extension.State) : M Extension.State :=
  match Extension.processInfo st with
  | None => ret (Extension.showError "No connection" st)
  | Some info =>
      r <- Fetcher.fetchQuota (ProcessFinder.port info)
                              (ProcessFinder.csrfToken info) ;;
      let (st, done) := tryShow r st in
      if done then ret st
      else
        (* Process might have restarted: re-detect once *)
        p <- ProcessFinder.findAntigravityProcess wsPath ;;
        let st := Extension.setProcessInfo p st in
        match p with
        | Some info' =>
            r' <- Fetcher.fetchQuota (ProcessFinder.port info')
                                     (ProcessFinder.csrfToken info') ;;
            let (st, done) := tryShow r' st in
            if done then ret st
            else ret (Extension.showError "Fetch failed" st)
        | None => ret (Extension.showError "Fetch failed" st)
        end
  end.

(** A payload with one model, reported at 110 percent. *)
Definition overfull : Wire.ServerResponse :=
  Sample.payload [Sample.entry "Gemini 3 Pro" (Some (11 # 10))
                               (Some Sample.resetAt)].

End Rendering.

(** ** process-finder.ts, the revision without a workspace hint *)

Module Earlier.

Import ProcessFinder.

(** The loop [for (const line of stdout.split('\n'))] of [parseUnix]. *)
Fixpoint parseUnixLines (lines : list string) : option ParsedProcess :=
  match lines with
  | [] => None
  | line :: rest =>
      if Js.includes line "--extension_server_port" then
        let part0 := Js.firstField (Js.trim line) in
        let pid := Js.parseInt part0 in
        let cmd := Js.trim (Js.substringFrom (String.length part0) line) in
        let port := matchPort cmd in
        let token := matchToken cmd in
        Some {| pid := pid;
                extensionPort := hintedPort port;
                parsed_csrfToken :=
                  match token with Some t => t | None => "" end |}
      else parseUnixLines rest
  end.

Definition parseUnix (stdout : string) : option ParsedProcess :=
  parseUnixLines (Js.splitChar "010"%char stdout).

End Earlier.

(** ** A process listing of Windows *)

Module WindowsSample.

(** The language server of another editor. *)
Definition foreign : WinProcess :=
  {| CommandLine :=
       Some "C:\Programs\Other\language_server_windows_x64.exe --csrf_token aa11-bb22";
     ProcessId := Some 700 |}.

(** The language server of Antigravity. *)
Definition own : WinProcess :=
  {| CommandLine :=
       Some "C:\Programs\Antigravity\language_server_windows_x64.exe --extension_server_port 42100 --csrf_token 6f1c-ab90";
     ProcessId := Some 812 |}.

(** A runtime that decodes the text [rows] as the array of both
    processes, and any other text as the second process alone. *)
Definition runtime : JsRuntime :=
  {| Date_parse := Sample.parseMillis;
     Date_toISOString := Js.string_of_Z;
     Number_toString := Sample.printNumber;
     JSON_parse_processes := fun s =>
       if String.eqb s "rows" then Some (WinArray [foreign; own])
       else Some (WinSingle own);
     scanPorts := fun _ _ _ => [] |}.

End WindowsSample.

(** ** Date.parse on UTC date-time texts

    The texts [YYYY-MM-DDTHH:mm:ss], with or without a fraction of a
    second, ended by [Z].  A [Date] holds whole milliseconds: of a
    fraction of more than three digits the parser of V8 keeps the first
    three.  The fields are not checked against their calendar range,
    and every other text is answered as NaN. *)

Module Iso.

(** The number written by the [len] digits that start at [from]. *)
Definition field (from len : nat) (s : string) : option Z :=
  let digits := String.substring from len s in
  if (String.length digits =? len)%nat && Js.every Js.isDigit digits
  then Some (Js.digitsValue 0 digits)
  else None.

(** Days from 1970-01-01 to a date of the proleptic Gregorian
    calendar. *)
Definition daysFromCivil (y m d : Z) : Z :=
  let y := if m <=? 2 then y - 1 else y in
  let era := y / 400 in
  let yoe := y - era * 400 in
  let mp := if m <=? 2 then m + 9 else m - 3 in
  let doy := (153 * mp + 2) / 5 + d - 1 in
  let doe := yoe * 365 + yoe / 4 - yoe / 100 + doy in
  era * 146097 + doe - 719468.

(** The milliseconds of a fraction of a second: its first three digits,
    a shorter fraction being padded with zeros. *)
Definition millis (fraction : string) : Z :=
  Js.digitsValue 0 (String.substring 0 3 (fraction ++ "00")).

(** What follows the seconds: [Z], or a fraction and [Z]. *)
Definition tail (s : string) : option Z :=
  if String.eqb s "Z" then Some 0
  else
    match s with
    | String c rest =>
        if Ascii.eqb c "."%char then
          let (fraction, z) := Js.span Js.isDigit rest in
          if negb (String.eqb fraction "") && String.eqb z "Z"
          then Some (millis fraction)
          else None
        else None
    | EmptyString => None
    end.

Definition separators (s : string) : bool :=
  String.eqb (String.substring 4 1 s) "-"
  && String.eqb (String.substring 7 1 s) "-"
  && String.eqb (String.substring 10 1 s) "T"
  && String.eqb (String.substring 13 1 s) ":"
  && String.eqb (String.substring 16 1 s) ":".

Definition parse (s : string) : option Z :=
  match field 0 4 s, field 5 2 s, field 8 2 s,
        field 11 2 s, field 14 2 s, field 17 2 s,
        tail (Js.substringFrom 19 s) with
  | Some y, Some mo, Some d, Some h, Some mi, Some sec, Some ms =>
      if separators s then
        Some ((((daysFromCivil y mo d * 24 + h) * 60 + mi) * 60 + sec) * 1000
              + ms)
      else None
  | _, _, _, _, _, _, _ => None
  end.

Definition runtime : JsRuntime :=
  {| Date_parse := parse;
     Date_toISOString := Js.string_of_Z;
     Number_toString := Sample.printNumber;
     JSON_parse_processes := fun _ => None;
     scanPorts := fun _ _ _ => [] |}.

(** A model entry whose reset time is a text. *)
Definition entry (name : string) (fraction : option Q) (reset : string)
    : Wire.ClientModelConfig :=
  {| Wire.label := Some name;
     Wire.modelOrAlias := Some {| Wire.model := Some name |};
     Wire.quotaInfo :=
       Some {| Wire.remainingFraction := fraction;
               Wire.resetTime := Some (Wire.StampText reset) |} |}.

(** Two models at 35 percent whose reset times lie 800 microseconds
    apart, within one millisecond. *)
Definition data : Wire.ServerResponse :=
  Sample.payload
    [ entry "Gemini 3 Pro" (Some (35 # 100)) "2026-03-01T00:00:00.000100Z";
      entry "Gemini 3 Flash" (Some (35 # 100)) "2026-03-01T00:00:00.000900Z" ].

End Iso.

(** ** Further vocabulary *)

(** Every request of the log is addressed to the loopback address. *)
Definition onlyLoopback (log : Log) : Prop :=
  forall r, In (EvRequest r) log -> req_hostname r = "127.0.0.1".

(** No request was sent. *)
Definition noRequest (log : Log) : Prop :=
  forall r, ~ In (EvRequest r) log.

(** An entry of the payload carries quota information. *)
Definition hasQuotaInfo (m : Wire.ClientModelConfig) : bool :=
  match Wire.quotaInfo m with Some _ => true | None => false end.

(** The lines of a process listing that [parseUnix] considers. *)
Definition candidateLines (stdout : string) : list string :=
  filter (fun l => Js.includes l "--extension_server_port")
         (Js.splitChar "010"%char stdout).

(** The outcome of one attempt of [post], read on the reply. *)
Definition delivered (reply : Reply) : option Wire.ServerResponse :=
  match reply with
  | ReplyHttp statusCode (Some data) =>
      if statusCode >=? 400 then None else Some data
  | _ => None
  end.

(** [l1] is [l2] with some of its elements left out. *)
Inductive Subseq {A : Type} : list A -> list A -> Prop :=
| Subseq_nil : Subseq [] []
| Subseq_skip (x : A) (l1 l2 : list A) : Subseq l1 l2 -> Subseq l1 (x :: l2)
| Subseq_keep (x : A) (l1 l2 : list A) :
    Subseq l1 l2 -> Subseq (x :: l1) (x :: l2).

(** The keys of a [Map] whose keys were [seen], after [set(key, ...)]:
    a new key goes last. *)
Definition pushKey (seen : list string) (key : string) : list string :=
  if existsb (fun k => String.eqb k key) seen then seen
  else (seen ++ [key])%list.

(** The distinct keys of a list, in the order of their first
    occurrence. *)
Definition firstOccurrences (keys : list string) : list string :=
  fold_left pushKey keys [].

(* ================================================================== *)
(** * Part II.  Properties                                             *)
(* ================================================================== *)

(** ** Strings and decimal numerals *)

Lemma append_nil_r (s : string) : s ++ "" = s.
Proof. induction s as [|c s IH]; simpl; [reflexivity | now rewrite IH]. Qed.

Lemma every_append (p : ascii -> bool) (a b : string) :
  Js.every p (a ++ b) = Js.every p a && Js.every p b.
Proof.
  induction a as [|c a IH]; simpl; [reflexivity|].
  now rewrite IH, andb_assoc.
Qed.

Lemma every_weaken (p q : ascii -> bool) (s : string) :
  (forall c, p c = true -> q c = true) ->
  Js.every p s = true -> Js.every q s = true.
Proof.
  intros Hpq. induction s as [|c s IH]; simpl; [reflexivity|].
  intros H. apply andb_true_iff in H as [Hc Hs].
  now rewrite (Hpq _ Hc), IH.
Qed.

Lemma uint_digits (d : Decimal.uint) :
  Js.every Js.isDigit (NilEmpty.string_of_uint d) = true.
Proof. induction d; simpl; auto. Qed.

Lemma string_of_Z_numeral (z : Z) :
  Js.every isNumeralChar (Js.string_of_Z z) = true.
Proof.
  assert (U : forall d, Js.every isNumeralChar (NilZero.string_of_uint d) = true).
  { intros d. apply every_weaken with (p := Js.isDigit).
    - intros c Hc. unfold isNumeralChar. now rewrite Hc.
    - destruct d; try apply uint_digits; reflexivity. }
  unfold Js.string_of_Z.
  destruct (Z.to_int z) as [d|d]; simpl; [apply U|].
  apply U.
Qed.

Lemma string_of_Z_inj (a b : Z) :
  Js.string_of_Z a = Js.string_of_Z b -> a = b.
Proof.
  unfold Js.string_of_Z. intros E.
  apply DecimalZ.to_int_inj.
  assert (N : forall z, NilZero.int_of_string
                          (NilZero.string_of_int (Z.to_int z))
                        = Some (Z.to_int z)).
  { intros z. apply NilZero.isi.
    - destruct z; simpl; try discriminate.
      intros H; injection H as H.
      now apply DecimalPos.Unsigned.to_uint_nonnil in H.
    - destruct z; simpl; try discriminate.
      intros H; injection H as H.
      now apply DecimalPos.Unsigned.to_uint_nonnil in H. }
  pose proof (N a) as Ha. rewrite E, N in Ha. now injection Ha.
Qed.

(** ** formatTime *)

Lemma ceilMinutes_bounds (ms : Z) :
  60000 * (QuotaFetcher.ceilMinutes ms - 1) < ms
  <= 60000 * QuotaFetcher.ceilMinutes ms.
Proof.
  unfold QuotaFetcher.ceilMinutes.
  pose proof (Z.div_mod (- ms) 60000 ltac:(lia)) as E.
  pose proof (Z.mod_pos_bound (- ms) 60000 ltac:(lia)) as B.
  lia.
Qed.

Lemma formatTime_unfold (ms : Z) :
  0 < ms ->
  QuotaFetcher.formatTime ms =
    let mins := QuotaFetcher.ceilMinutes ms in
    if mins <? 60 then Js.string_of_Z mins ++ "m"
    else if mins / 60 >=? 24 then
      if (mins / 60) mod 24 >? 0
      then Js.string_of_Z (mins / 60 / 24) ++ "d "
             ++ Js.string_of_Z ((mins / 60) mod 24) ++ "h"
      else Js.string_of_Z (mins / 60 / 24) ++ "d"
    else Js.string_of_Z (mins / 60) ++ "h "
           ++ Js.string_of_Z (mins mod 60) ++ "m".
Proof.
  intros Hpos. unfold QuotaFetcher.formatTime.
  destruct (ms <=? 0) eqn:E; [apply Z.leb_le in E; lia | reflexivity].
Qed.

(** C3, as stated, fails: a duration of 59 minutes 59 seconds is below
    one hour, yet it is not rendered as whole minutes; [formatTime]
    answers 1h 0m. *)
Lemma formatTime_below_one_hour_counterexample :
  0 < 3599000 < 3600000 /\
  QuotaFetcher.formatTime 3599000 = "1h 0m" /\
  ~ (exists n : Z, QuotaFetcher.formatTime 3599000 = Js.string_of_Z n ++ "m").
Proof.
  split; [lia|]. split; [reflexivity|].
  intros [n E]. change (QuotaFetcher.formatTime 3599000) with "1h 0m" in E.
  pose proof (string_of_Z_numeral n) as D.
  destruct (Js.string_of_Z n) as [|c1 [|c2 s]]; simpl in E; try discriminate.
  injection E as _ E2 _. subst c2.
  simpl in D. rewrite andb_false_r in D. discriminate.
Qed.

(** C3 (amended): [formatTime] renders a non-positive duration as Now;
    otherwise it rounds the duration up to whole minutes and decides on
    that count: below 60 minutes it prints the minutes, below 1440
    minutes the hours and minutes, from 1440 minutes on the days and the
    hours, leaving the hours out when they are zero.  The five fixed
    inputs of the specification are rendered as it says. *)
Theorem formatTime_by_rounded_minutes (ms : Z) :
  let mins := QuotaFetcher.ceilMinutes ms in
  let h := mins / 60 in
  (60000 * (mins - 1) < ms <= 60000 * mins) /\
  (ms <= 0 -> QuotaFetcher.formatTime ms = "Now") /\
  (0 < ms -> mins < 60 ->
   QuotaFetcher.formatTime ms = Js.string_of_Z mins ++ "m") /\
  (0 < ms -> 60 <= mins < 1440 ->
   QuotaFetcher.formatTime ms =
     Js.string_of_Z h ++ "h " ++ Js.string_of_Z (mins mod 60) ++ "m") /\
  (1440 <= mins -> h mod 24 <> 0 ->
   QuotaFetcher.formatTime ms =
     Js.string_of_Z (h / 24) ++ "d " ++ Js.string_of_Z (h mod 24) ++ "h") /\
  (1440 <= mins -> h mod 24 = 0 ->
   QuotaFetcher.formatTime ms = Js.string_of_Z (h / 24) ++ "d") /\
  QuotaFetcher.formatTime 0 = "Now" /\
  QuotaFetcher.formatTime (5 * 60000) = "5m" /\
  QuotaFetcher.formatTime (125 * 60000) = "2h 5m" /\
  QuotaFetcher.formatTime (26 * 3600000) = "1d 2h" /\
  QuotaFetcher.formatTime (24 * 3600000) = "1d".
Proof.
  intros mins h.
  pose proof (ceilMinutes_bounds ms) as B. fold mins in B.
  split; [exact B|].
  split.
  { intros Hle. unfold QuotaFetcher.formatTime.
    destruct (ms <=? 0) eqn:E; [reflexivity|]. apply Z.leb_gt in E. lia. }
  split.
  { intros Hpos Hm. rewrite formatTime_unfold by assumption. cbv zeta.
    fold mins. destruct (mins <? 60) eqn:E; [reflexivity|].
    apply Z.ltb_ge in E. lia. }
  split.
  { intros Hpos [H60 H1440]. rewrite formatTime_unfold by assumption.
    cbv zeta. fold mins. fold h.
    destruct (mins <? 60) eqn:E; [apply Z.ltb_lt in E; lia|].
    assert (Hh : h < 24) by (apply Z.div_lt_upper_bound; lia).
    destruct (h >=? 24) eqn:E2; [|reflexivity].
    apply Z.geb_le in E2. lia. }
  assert (Hbig : 1440 <= mins -> 0 < ms /\ (mins <? 60) = false
                                 /\ (h >=? 24) = true).
  { intros Hm. split; [lia|]. split; [apply Z.ltb_ge; lia|].
    apply Z.geb_le. apply Z.div_le_lower_bound; lia. }
  split.
  { intros Hm Hrem. destruct (Hbig Hm) as (Hpos & E1 & E2).
    rewrite formatTime_unfold by assumption. cbv zeta. fold mins. fold h.
    rewrite E1, E2.
    pose proof (Z.mod_pos_bound h 24 ltac:(lia)) as Bh.
    destruct (h mod 24 >? 0) eqn:E3; [reflexivity|].
    rewrite Z.gtb_ltb in E3. apply Z.ltb_ge in E3. lia. }
  split.
  { intros Hm Hrem. destruct (Hbig Hm) as (Hpos & E1 & E2).
    rewrite formatTime_unfold by assumption. cbv zeta. fold mins. fold h.
    rewrite E1, E2, Hrem. reflexivity. }
  repeat split; reflexivity.
Qed.

(** The earlier revision has no day component. *)
Lemma legacy_formatTime_hours_only :
  Legacy.formatTime (26 * 3600000) = "26h 0m" /\
  Legacy.formatTime (24 * 3600000) = "24h 0m".
Proof. split; reflexivity. Qed.

(** ** Pool naming *)

Lemma Family_eqb_eq (a b : QuotaFetcher.Family) :
  QuotaFetcher.Family_eqb a b = true <-> a = b.
Proof. destruct a, b; simpl; split; congruence. Qed.

Lemma hasFamily_spec (f : QuotaFetcher.Family)
    (ms : list QuotaFetcher.ModelQuota) :
  QuotaFetcher.hasFamily f ms = true <->
  exists m, In m ms /\ QuotaFetcher.family m = f.
Proof.
  unfold QuotaFetcher.hasFamily. rewrite existsb_exists.
  split; intros [m [Hin Hm]]; exists m; split; auto;
    now apply Family_eqb_eq.
Qed.

Lemma hasFamily_false (f : QuotaFetcher.Family)
    (ms : list QuotaFetcher.ModelQuota) :
  QuotaFetcher.hasFamily f ms = false <->
  forall m, In m ms -> QuotaFetcher.family m <> f.
Proof.
  split.
  - intros H m Hin Hf.
    assert (QuotaFetcher.hasFamily f ms = true)
      by (apply hasFamily_spec; eauto).
    congruence.
  - intros H. destruct (QuotaFetcher.hasFamily f ms) eqn:E; [|reflexivity].
    apply hasFamily_spec in E as [m [Hin Hf]]. now apply H in Hin.
Qed.

(** Labels of parsed models are never empty. *)
Lemma orElse_nonempty (o : option string) (d : string) :
  d <> "" -> Js.orElse o d <> "".
Proof. intros Hd. destruct o as [[|c s]|]; simpl; congruence. Qed.

Lemma parseModel_label_nonempty `{JsRuntime} (now : Z)
    (m : Wire.ClientModelConfig) (qi : Wire.QuotaInfo) :
  QuotaFetcher.label (QuotaFetcher.parseModel now m qi) <> "".
Proof. simpl. apply orElse_nonempty. discriminate. Qed.

(** C4: the identifier and display name of a bucket follow the priority
    over the families of its members: both gemini and gemini_flash give
    gemini / Gemini; gemini without gemini_flash gives gemini_pro /
    Gem Pro; gemini_flash without gemini gives gemini_flash / Gem Flash;
    failing those, a claude or gpt member gives the name Claude;
    otherwise the name is the label of the first member.  The three
    buckets named by the specification are instances. *)
Theorem derivePoolName_priority (ms : list QuotaFetcher.ModelQuota) :
  let name := QuotaFetcher.derivePoolName ms in
  (present QuotaFetcher.gemini ms -> present QuotaFetcher.gemini_flash ms ->
   name = ("gemini", "Gemini")) /\
  (present QuotaFetcher.gemini ms -> ~ present QuotaFetcher.gemini_flash ms ->
   name = ("gemini_pro", "Gem Pro")) /\
  (~ present QuotaFetcher.gemini ms -> present QuotaFetcher.gemini_flash ms ->
   name = ("gemini_flash", "Gem Flash")) /\
  (~ present QuotaFetcher.gemini ms -> ~ present QuotaFetcher.gemini_flash ms ->
   present QuotaFetcher.claude ms \/ present QuotaFetcher.gpt ms ->
   name = ("claude_gpt", "Claude")) /\
  (forall m rest, ms = m :: rest ->
   (forall x, In x ms -> QuotaFetcher.family x = QuotaFetcher.other) ->
   QuotaFetcher.label m <> "" ->
   name = ("other", QuotaFetcher.label m)) /\
  (forall m rest, ms = m :: rest ->
   (forall x, In x ms -> QuotaFetcher.family x = QuotaFetcher.gemini) ->
   name = ("gemini_pro", "Gem Pro")) /\
  (forall m rest, ms = m :: rest ->
   (forall x, In x ms -> QuotaFetcher.family x = QuotaFetcher.claude) ->
   snd name = "Claude").
Proof.
  intros name. subst name. unfold QuotaFetcher.derivePoolName.
  assert (T : forall f, present f ms -> QuotaFetcher.hasFamily f ms = true)
    by (intros f; apply hasFamily_spec).
  assert (F : forall f, ~ present f ms -> QuotaFetcher.hasFamily f ms = false).
  { intros f Hn. destruct (QuotaFetcher.hasFamily f ms) eqn:E; [|reflexivity].
    apply hasFamily_spec in E. contradiction. }
  assert (A : forall f g m rest, ms = m :: rest ->
                (forall x, In x ms -> QuotaFetcher.family x = f) ->
                f <> g -> ~ present g ms).
  { intros f g m rest _ Hall Hfg [x [Hin Hx]]. rewrite Hall in Hx; auto. }
  assert (P : forall f m rest, ms = m :: rest ->
                (forall x, In x ms -> QuotaFetcher.family x = f) ->
                present f ms).
  { intros f m rest E Hall. exists m. split; [rewrite E; now left|].
    apply Hall. rewrite E. now left. }
  repeat split.
  - intros Hp Hf. now rewrite (T _ Hp), (T _ Hf).
  - intros Hp Hf. now rewrite (T _ Hp), (F _ Hf).
  - intros Hp Hf. now rewrite (F _ Hp), (T _ Hf).
  - intros Hp Hf [Hc|Hg]; rewrite (F _ Hp), (F _ Hf); simpl.
    + now rewrite (T _ Hc).
    + rewrite (T _ Hg). now rewrite orb_true_r.
  - intros m rest E Hall Hlabel.
    rewrite (F QuotaFetcher.gemini), (F QuotaFetcher.gemini_flash),
      (F QuotaFetcher.claude), (F QuotaFetcher.gpt);
      try (eapply A; eauto; discriminate).
    simpl. rewrite E. simpl.
    destruct (QuotaFetcher.label m); [contradiction | reflexivity].
  - intros m rest E Hall.
    rewrite (T QuotaFetcher.gemini), (F QuotaFetcher.gemini_flash);
      [reflexivity | eapply A; eauto; discriminate | eapply P; eauto].
  - intros m rest E Hall.
    rewrite (F QuotaFetcher.gemini), (F QuotaFetcher.gemini_flash),
      (T QuotaFetcher.claude);
      [reflexivity | eapply P; eauto | | ];
      eapply A; eauto; discriminate.
Qed.

(** ** Per-model parsing *)

Lemma parseModels_In `{JsRuntime} (now : Z)
    (raw : list Wire.ClientModelConfig) (q : QuotaFetcher.ModelQuota) :
  In q (QuotaFetcher.parseModels now raw) <->
  exists m qi, In m raw /\ Wire.quotaInfo m = Some qi /\
               q = QuotaFetcher.parseModel now m qi.
Proof.
  induction raw as [|m raw IH]; simpl.
  - split; [contradiction | intros (m & qi & [] & _)].
  - destruct (Wire.quotaInfo m) as [qi|] eqn:E; simpl; rewrite IH.
    + split.
      * intros [<-|(m' & qi' & Hin & Hq & ->)].
        -- exists m, qi. auto.
        -- exists m', qi'. auto.
      * intros (m' & qi' & [<-|Hin] & Hq & ->).
        -- left. congruence.
        -- right. eauto.
    + split.
      * intros (m' & qi' & Hin & Hq & ->). exists m', qi'. auto.
      * intros (m' & qi' & [<-|Hin] & Hq & ->); [congruence|eauto].
Qed.

Lemma legacy_parseModels_In `{JsRuntime} (now : Z)
    (raw : list Wire.ClientModelConfig) (q : Legacy.ModelQuota) :
  In q (Legacy.parseModels now raw) <->
  exists m qi, In m raw /\ Wire.quotaInfo m = Some qi /\
               q = Legacy.parseModel now m qi.
Proof.
  induction raw as [|m raw IH]; simpl.
  - split; [contradiction | intros (m & qi & [] & _)].
  - destruct (Wire.quotaInfo m) as [qi|] eqn:E; simpl; rewrite IH.
    + split.
      * intros [<-|(m' & qi' & Hin & Hq & ->)].
        -- exists m, qi. auto.
        -- exists m', qi'. auto.
      * intros (m' & qi' & [<-|Hin] & Hq & ->).
        -- left. congruence.
        -- right. eauto.
    + split.
      * intros (m' & qi' & Hin & Hq & ->). exists m', qi'. auto.
      * intros (m' & qi' & [<-|Hin] & Hq & ->); [congruence|eauto].
Qed.

Lemma percentage_facts (f : Q) :
  (Qred (f * 100) == f * 100)%Q /\
  (Qeq_bool f 0 = true <-> (f == 0)%Q) /\
  ((0 <= Qred (f * 100) <= 100)%Q <-> (0 <= f <= 1)%Q).
Proof.
  split; [apply Qred_correct|]. split; [apply Qeq_bool_iff|].
  rewrite Qred_correct.
  assert (P : (0 < 100)%Q) by reflexivity.
  assert (E0 : (0 == 0 * 100)%Q) by reflexivity.
  assert (E1 : (100 == 1 * 100)%Q) by reflexivity.
  split; intros [H0 H1]; split.
  - apply (Qmult_le_r _ _ 100 P). now rewrite <- E0.
  - apply (Qmult_le_r _ _ 100 P). now rewrite <- E1.
  - rewrite E0. now apply (Qmult_le_r _ _ 100 P).
  - rewrite E1. now apply (Qmult_le_r _ _ 100 P).
Qed.

(** C2 (amended): for every raw entry that carries quota information,
    writing [f] for its remaining fraction (zero when the field is
    absent), the parsed model, in either revision of the fetcher, has
    remainingPct equal to [f * 100] and is flagged exhausted exactly
    when [f] is zero; nothing is clamped, so that remainingPct lies
    between 0 and 100 exactly when [f] lies between 0 and 1. *)
Theorem parsed_model_percentage `{JsRuntime} (now : Z)
    (raw : list Wire.ClientModelConfig)
    (m : Wire.ClientModelConfig) (qi : Wire.QuotaInfo) (f : Q) :
  In m raw ->
  Wire.quotaInfo m = Some qi ->
  Js.orZero (Wire.remainingFraction qi) = f ->
  let q := QuotaFetcher.parseModel now m qi in
  let q' := Legacy.parseModel now m qi in
  (In q (QuotaFetcher.parseModels now raw) /\
   (QuotaFetcher.remainingPct q == f * 100)%Q /\
   (QuotaFetcher.isExhausted q = true <-> (f == 0)%Q) /\
   ((0 <= QuotaFetcher.remainingPct q <= 100)%Q <-> (0 <= f <= 1)%Q)) /\
  (In q' (Legacy.parseModels now raw) /\
   (Legacy.remainingPct q' == f * 100)%Q /\
   (Legacy.isExhausted q' = true <-> (f == 0)%Q) /\
   ((0 <= Legacy.remainingPct q' <= 100)%Q <-> (0 <= f <= 1)%Q)).
Proof.
  intros Hin Hqi Hf q q'.
  destruct (percentage_facts f) as (P1 & P2 & P3).
  split.
  - split; [apply parseModels_In; eauto|].
    subst q. simpl. rewrite Hf. auto.
  - split; [apply legacy_parseModels_In; eauto|].
    subst q'. simpl. rewrite Hf. auto.
Qed.

(** C2 at a sample entry: a fraction of 35/100 gives 35 percent. *)
Lemma parsed_model_percentage_witness :
  let m := Sample.entry "Gemini 3 Pro" (Some (35 # 100)) (Some 1772323200000) in
  let q := QuotaFetcher.parseModel (H := Sample.runtime) 1772323000000 m
             {| Wire.remainingFraction := Some (35 # 100);
                Wire.resetTime := Some (Wire.StampMillis 1772323200000) |} in
  (QuotaFetcher.remainingPct q == (35 # 100) * 100)%Q /\
  (0 <= QuotaFetcher.remainingPct q <= 100)%Q.
Proof.
  intros m q.
  destruct (@parsed_model_percentage Sample.runtime 1772323000000 [m] m
              {| Wire.remainingFraction := Some (35 # 100);
                 Wire.resetTime := Some (Wire.StampMillis 1772323200000) |}
              (35 # 100)) as [(_ & A & _ & B) _].
  - left; reflexivity.
  - reflexivity.
  - reflexivity.
  - split; [exact A|]. apply B. split; discriminate.
Defined.

(** C2, as stated, fails: the percentage is not confined to the range
    from 0 to 100.  A payload whose only entry reports a remaining
    fraction of 11/10 is parsed to a snapshot, in either revision, whose
    model stands at 110 percent. *)
Lemma percentage_above_100_counterexample :
  exists snap snap' q q',
    QuotaFetcher.parseResponse (H := Sample.runtime) Sample.clock0
      Rendering.overfull = Ok snap /\
    Legacy.parseResponse (H := Sample.runtime) Sample.clock0
      Rendering.overfull = Ok snap' /\
    QuotaFetcher.snapshot_models snap = [q] /\
    Legacy.snapshot_models snap' = [q'] /\
    QuotaFetcher.remainingPct q = 110%Q /\
    Legacy.remainingPct q' = 110%Q /\
    ~ (0 <= QuotaFetcher.remainingPct q <= 100)%Q /\
    ~ (0 <= Legacy.remainingPct q' <= 100)%Q.
Proof.
  do 4 eexists.
  split; [vm_compute; reflexivity|].
  split; [vm_compute; reflexivity|].
  split; [reflexivity|]. split; [reflexivity|].
  split; [reflexivity|]. split; [reflexivity|].
  split; intros [_ C]; now apply C.
Qed.

(** ** Grouping into an insertion-ordered map *)

Section MapFacts.

Local Open Scope list_scope.

Context {K X : Type} (eqb : K -> K -> bool).
Hypothesis eqb_eq : forall a b : K, eqb a b = true <-> a = b.

Lemma pushTo_cons (key k0 : K) (x : X) (l0 : list X)
    (b : JsMap.t K (list X)) :
  JsMap.pushTo eqb key x ((k0, l0) :: b) =
    if eqb k0 key then (k0, (l0 ++ [x])%list) :: b
    else (k0, l0) :: JsMap.pushTo eqb key x b.
Proof.
  unfold JsMap.pushTo. simpl. destruct (eqb k0 key); reflexivity.
Qed.

Lemma pushTo_keys (key : K) (x : X) (b : JsMap.t K (list X)) (k : K) :
  In k (JsMap.keys (JsMap.pushTo eqb key x b)) <->
  k = key \/ In k (JsMap.keys b).
Proof.
  induction b as [|[k0 l0] b IH].
  - simpl. intuition.
  - rewrite pushTo_cons. destruct (eqb k0 key) eqn:E; simpl.
    + apply eqb_eq in E. subst k0. intuition.
    + rewrite IH. intuition.
Qed.

Lemma pushTo_NoDup (key : K) (x : X) (b : JsMap.t K (list X)) :
  NoDup (JsMap.keys b) -> NoDup (JsMap.keys (JsMap.pushTo eqb key x b)).
Proof.
  induction b as [|[k0 l0] b IH]; intros ND.
  - simpl. constructor; [intros [] | constructor].
  - rewrite pushTo_cons. inversion ND as [|? ? Hnotin ND']; subst.
    destruct (eqb k0 key) eqn:E; simpl.
    + constructor; assumption.
    + constructor; [|now apply IH].
      intros Hin. apply pushTo_keys in Hin as [->|Hin]; [|contradiction].
      assert (eqb key key = true) by now apply eqb_eq.
      congruence.
Qed.

(** Every bucket stays non-empty and keeps members related to its key. *)
Lemma pushTo_members (P : K -> X -> Prop) (key : K) (x : X)
    (b : JsMap.t K (list X)) :
  P key x ->
  (forall k l, In (k, l) b -> l <> [] /\ Forall (P k) l) ->
  forall k l, In (k, l) (JsMap.pushTo eqb key x b) ->
              l <> [] /\ Forall (P k) l.
Proof.
  intros Hx. induction b as [|[k0 l0] b IH]; intros Hb k l Hin.
  - simpl in Hin. destruct Hin as [E|[]]. injection E as <- <-.
    split; [discriminate | now constructor].
  - rewrite pushTo_cons in Hin. destruct (eqb k0 key) eqn:E.
    + destruct Hin as [E'|Hin]; [|apply Hb; now right].
      injection E' as <- <-. apply eqb_eq in E. subst k0.
      destruct (Hb key l0 (or_introl eq_refl)) as [_ F].
      split; [now destruct l0 | ].
      apply Forall_app. split; [assumption | now constructor].
    + destruct Hin as [E'|Hin]; [apply Hb; now left|].
      apply IH; [|assumption]. intros k' l' H'. apply Hb. now right.
Qed.

Lemma pushTo_concat (key : K) (x : X) (b : JsMap.t K (list X)) :
  Permutation (List.concat (JsMap.values (JsMap.pushTo eqb key x b)))
              (List.concat (JsMap.values b) ++ [x]).
Proof.
  induction b as [|[k0 l0] b IH].
  - reflexivity.
  - rewrite pushTo_cons. destruct (eqb k0 key); simpl.
    + rewrite <- !app_assoc. apply Permutation_app_head.
      apply Permutation_app_comm.
    + rewrite <- app_assoc. now apply Permutation_app_head.
Qed.

Lemma get_In (key : K) (l : list X) (b : JsMap.t K (list X)) :
  JsMap.get eqb key b = Some l -> In (key, l) b.
Proof.
  induction b as [|[k0 l0] b IH]; simpl; [discriminate|].
  destruct (eqb k0 key) eqn:E.
  - intros H. injection H as <-. apply eqb_eq in E. subst. now left.
  - intros H. right. now apply IH.
Qed.

Lemma In_get (key : K) (l : list X) (b : JsMap.t K (list X)) :
  NoDup (JsMap.keys b) -> In (key, l) b -> JsMap.get eqb key b = Some l.
Proof.
  induction b as [|[k0 l0] b IH]; simpl; [contradiction|].
  intros ND Hin. inversion ND as [|? ? Hnotin ND']; subst.
  destruct (eqb k0 key) eqn:E.
  - apply eqb_eq in E. subst k0. destruct Hin as [H|Hin].
    + now injection H as <-.
    + exfalso. apply Hnotin. change key with (fst (key, l)).
      now apply in_map.
  - destruct Hin as [H|Hin]; [|now apply IH].
    injection H as <- <-.
    assert (eqb k0 k0 = true) by now apply eqb_eq.
    congruence.
Qed.

Lemma get_None (key : K) (b : JsMap.t K (list X)) :
  JsMap.get eqb key b = None <-> ~ In key (JsMap.keys b).
Proof.
  induction b as [|[k0 l0] b IH]; simpl; [intuition|].
  destruct (eqb k0 key) eqn:E.
  - apply eqb_eq in E. subst. split; [discriminate | intros H; exfalso; auto].
  - rewrite IH. split.
    + intros H [H'|H']; [|contradiction]. subst.
      assert (eqb key key = true) by now apply eqb_eq.
      congruence.
    + intuition.
Qed.

(** With distinct keys, a key names one bucket. *)
Lemma bucket_functional (key : K) (l1 l2 : list X) (b : JsMap.t K (list X)) :
  NoDup (JsMap.keys b) -> In (key, l1) b -> In (key, l2) b -> l1 = l2.
Proof.
  intros ND H1 H2.
  apply (In_get _ _ _ ND) in H1. apply (In_get _ _ _ ND) in H2.
  congruence.
Qed.

Lemma values_In (l : list X) (b : JsMap.t K (list X)) :
  In l (JsMap.values b) <-> exists k, In (k, l) b.
Proof.
  unfold JsMap.values. rewrite in_map_iff. split.
  - intros [[k l'] [E Hin]]. simpl in E. subst. eauto.
  - intros [k Hin]. exists (k, l). auto.
Qed.

(** Reading the buckets in a fixed order of keys that names every key
    once yields the members of the map, up to order. *)
Lemma ordered_read_concat (order : list K) (b : JsMap.t K (list X)) :
  NoDup order -> NoDup (JsMap.keys b) ->
  (forall k, In k (JsMap.keys b) -> In k order) ->
  Permutation
    (flat_map (fun i => match JsMap.get eqb i b with
                        | Some l => l
                        | None => []
                        end) order)
    (List.concat (JsMap.values b)).
Proof.
  intros NDo. induction b as [|[k0 l0] b IH]; intros NDb Hsub.
  - simpl. induction order as [|i order IHo]; simpl; [reflexivity|].
    inversion NDo; subst. now apply IHo.
  - inversion NDb as [|? ? Hnotin NDb']; subst. simpl in Hnotin.
    assert (Hk0 : In k0 order) by (apply Hsub; now left).
    apply in_split in Hk0 as (o1 & o2 & ->).
    assert (Hfresh : ~ In k0 o1 /\ ~ In k0 o2).
    { apply NoDup_remove_2 in NDo. rewrite in_app_iff in NDo. tauto. }
    destruct Hfresh as [Ho1 Ho2].
    assert (Hrest : forall o, ~ In k0 o ->
              flat_map (fun i => match JsMap.get eqb i ((k0, l0) :: b) with
                                 | Some l => l | None => [] end) o =
              flat_map (fun i => match JsMap.get eqb i b with
                                 | Some l => l | None => [] end) o).
    { intros o Ho. induction o as [|i o IHo]; [reflexivity|].
      cbn [flat_map]. rewrite IHo by (intro; apply Ho; now right).
      f_equal. simpl.
      destruct (eqb k0 i) eqn:E; [|reflexivity].
      apply eqb_eq in E. subst. exfalso. apply Ho. now left. }
    specialize (IH NDb' (fun k Hk => Hsub k (or_intror Hk))).
    rewrite flat_map_app in IH |- *. simpl in IH |- *.
    assert (Eself : eqb k0 k0 = true) by now apply eqb_eq.
    rewrite Eself, !Hrest by assumption.
    assert (Hnone : JsMap.get eqb k0 b = None) by now apply get_None.
    rewrite Hnone in IH. simpl in IH.
    rewrite <- IH.
    rewrite app_assoc.
    rewrite (Permutation_app_comm _ l0). rewrite <- app_assoc. reflexivity.
Qed.

End MapFacts.

(** ** The dynamic classifier: buckets, their order, their pools *)

Section DynamicPools.

Local Open Scope list_scope.

Context {RT : JsRuntime}.

Import QuotaFetcher.

Lemma bucketKey_valid (m : ModelQuota) (k : string) :
  bucketKey m = Ok k -> resetTime m <> None.
Proof.
  unfold bucketKey, toISOString. destruct (resetTime m); discriminate.
Qed.

Lemma bucketKey_invalid (m : ModelQuota) :
  resetTime m = None -> bucketKey m = Throw RangeError_InvalidTime.
Proof. unfold bucketKey, toISOString. now intros ->. Qed.

Lemma bucketKey_total (m : ModelQuota) :
  resetTime m <> None -> exists k, bucketKey m = Ok k.
Proof.
  unfold bucketKey, toISOString. destruct (resetTime m); [eauto | congruence].
Qed.

Lemma bucketsWF_nil : bucketsWF [].
Proof. split; [constructor | intros k l []]. Qed.

Lemma fillBuckets_ok (ms : list ModelQuota) :
  forall b b',
    fillBuckets ms b = Ok b' ->
    (bucketsWF b -> bucketsWF b') /\
    Permutation (List.concat (JsMap.values b'))
                (List.concat (JsMap.values b) ++ ms) /\
    Forall (fun m => resetTime m <> None) ms.
Proof.
  induction ms as [|m ms IH]; intros b b' H; simpl in H.
  - injection H as <-. rewrite app_nil_r. auto.
  - destruct (bucketKey m) as [key|e] eqn:Ek; [|discriminate].
    destruct (IH _ _ H) as (WF & Perm & Valid).
    split; [|split].
    + intros [ND Mem]. apply WF. split.
      * now apply pushTo_NoDup; [apply String.eqb_eq|].
      * apply (pushTo_members String.eqb String.eqb_eq
                 (fun k x => bucketKey x = Ok k)); assumption.
    + rewrite Perm.
      rewrite (pushTo_concat String.eqb).
      rewrite <- app_assoc. reflexivity.
    + constructor; [now apply bucketKey_valid with key | assumption].
Qed.

Lemma fillBuckets_total (ms : list ModelQuota) :
  Forall (fun m => resetTime m <> None) ms ->
  forall b, exists b', fillBuckets ms b = Ok b'.
Proof.
  induction 1 as [|m ms Hm _ IH]; intros b; simpl; [eauto|].
  destruct (bucketKey_total m Hm) as [k ->]. apply IH.
Qed.

Lemma fillBuckets_throws (ms : list ModelQuota) :
  Exists (fun m => resetTime m = None) ms ->
  forall b, fillBuckets ms b = Throw RangeError_InvalidTime.
Proof.
  induction ms as [|m ms IH]; intros Hex b; [inversion Hex|].
  simpl. destruct (resetTime m) as [t|] eqn:Et.
  - unfold bucketKey, toISOString. rewrite Et. apply IH.
    inversion Hex as [? ? Hm|]; subst; [congruence | assumption].
  - now rewrite bucketKey_invalid.
Qed.

Lemma insertBucket_perm (a : list ModelQuota) (l : list (list ModelQuota)) :
  Permutation (insertBucket a l) (a :: l).
Proof.
  induction l as [|b l IH]; simpl; [reflexivity|].
  destruct (bucketRank b <? bucketRank a)%Z; [|reflexivity].
  rewrite IH. apply perm_swap.
Qed.

Lemma sortBuckets_perm (l : list (list ModelQuota)) :
  Permutation (sortBuckets l) l.
Proof.
  induction l as [|a l IH]; simpl; [reflexivity|].
  rewrite insertBucket_perm. now constructor.
Qed.

Lemma makePool_models (members : list ModelQuota) (p : QuotaPool) :
  makePool members = Ok p -> models p = members.
Proof.
  unfold makePool. destruct (derivePoolName members) as [i n].
  destruct (representative members); [|discriminate].
  intros H. injection H as <-. reflexivity.
Qed.

Lemma makePool_total (members : list ModelQuota) :
  members <> [] -> exists p, makePool members = Ok p.
Proof.
  intros Hne. unfold makePool. destruct (derivePoolName members) as [i n].
  destruct members as [|m rest]; [contradiction|]. simpl. eauto.
Qed.

Lemma makePools_ok (l : list (list ModelQuota)) :
  forall ps, makePools l = Ok ps ->
             map models ps = l /\
             forall p, In p ps -> makePool (models p) = Ok p.
Proof.
  induction l as [|members l IH]; intros ps H; simpl in H.
  - injection H as <-. split; [reflexivity | intros p []].
  - destruct (makePool members) as [p|] eqn:Ep; [|discriminate].
    destruct (makePools l) as [ps'|]; [|discriminate].
    injection H as <-. destruct (IH _ eq_refl) as [Em Hp].
    pose proof (makePool_models _ _ Ep) as Emem.
    split; [simpl; congruence|].
    intros q [<-|Hq]; [congruence | now apply Hp].
Qed.

Lemma makePools_total (l : list (list ModelQuota)) :
  Forall (fun members => members <> []) l -> exists ps, makePools l = Ok ps.
Proof.
  induction 1 as [|members l Hne _ [ps IH]]; simpl; [eauto|].
  destruct (makePool_total _ Hne) as [p ->]. rewrite IH. eauto.
Qed.

(** What a successful [parseResponse] went through. *)
Lemma parseResponse_ok (now : Z) (data : Wire.ServerResponse)
    (snap : QuotaSnapshot) :
  parseResponse now data = Ok snap ->
  exists b,
    fillBuckets (parseModels now (rawModels (Wire.userStatus data))) []
      = Ok b /\
    makePools (sortBuckets (JsMap.values b)) = Ok (pools snap) /\
    snapshot_models snap
      = parseModels now (rawModels (Wire.userStatus data)).
Proof.
  unfold parseResponse.
  destruct (fillBuckets _ []) as [b|] eqn:Eb; [|discriminate].
  destruct (makePools _) as [ps|] eqn:Ep; [|discriminate].
  intros H. injection H as <-. exists b. simpl. auto.
Qed.

(** The shape of a snapshot: its pools are the buckets of a well-formed
    map, in some order. *)
Lemma snapshot_shape (now : Z) (data : Wire.ServerResponse)
    (snap : QuotaSnapshot) :
  parseResponse now data = Ok snap ->
  exists b,
    bucketsWF b /\
    Permutation (List.concat (JsMap.values b)) (snapshot_models snap) /\
    Permutation (map models (pools snap)) (JsMap.values b) /\
    (forall p, In p (pools snap) -> makePool (models p) = Ok p) /\
    Forall (fun m => resetTime m <> None) (snapshot_models snap).
Proof.
  intros H. destruct (parseResponse_ok _ _ _ H) as (b & Eb & Ep & Em).
  destruct (fillBuckets_ok _ _ _ Eb) as (WF & Perm & Valid).
  destruct (makePools_ok _ _ Ep) as [Emap Hp].
  exists b. rewrite Em.
  split; [apply WF, bucketsWF_nil|].
  split; [exact Perm|].
  split; [rewrite Emap; apply sortBuckets_perm|].
  split; assumption.
Qed.

(** [parseResponse] succeeds exactly when every parsed model has a valid
    reset time. *)
Lemma parseResponse_total (now : Z) (data : Wire.ServerResponse) :
  Forall (fun m => resetTime m <> None)
         (parseModels now (rawModels (Wire.userStatus data))) ->
  exists snap, parseResponse now data = Ok snap.
Proof.
  intros Valid. unfold parseResponse.
  destruct (fillBuckets_total _ Valid []) as [b Eb]. rewrite Eb.
  destruct (fillBuckets_ok _ _ _ Eb) as (WF & _ & _).
  destruct (WF bucketsWF_nil) as [_ Mem].
  destruct (makePools_total (sortBuckets (JsMap.values b))) as [ps ->];
    [|eauto].
  apply Forall_forall. intros members Hin.
  apply (Permutation_in _ (sortBuckets_perm _)) in Hin.
  apply values_In in Hin as [k Hin]. now apply Mem in Hin.
Qed.

(** Membership of a model in a pool, read on the bucket map. *)
Lemma pool_member_key (b : BucketMap) (snap : QuotaSnapshot)
    (p : QuotaPool) (m : ModelQuota) :
  bucketsWF b ->
  Permutation (map models (pools snap)) (JsMap.values b) ->
  In p (pools snap) -> In m (models p) ->
  exists k, In (k, models p) b /\ bucketKey m = Ok k.
Proof.
  intros [ND Mem] Perm Hp Hm.
  assert (Hv : In (models p) (JsMap.values b)).
  { apply (Permutation_in _ Perm). now apply in_map. }
  apply values_In in Hv as [k Hk]. exists k. split; [assumption|].
  destruct (Mem _ _ Hk) as [_ F]. rewrite Forall_forall in F. now apply F.
Qed.

Lemma model_has_pool (b : BucketMap) (snap : QuotaSnapshot) (m : ModelQuota) :
  Permutation (List.concat (JsMap.values b)) (snapshot_models snap) ->
  Permutation (map models (pools snap)) (JsMap.values b) ->
  In m (snapshot_models snap) ->
  exists p, In p (pools snap) /\ In m (models p).
Proof.
  intros Perm PermP Hm.
  apply (Permutation_in _ (Permutation_sym Perm)) in Hm.
  apply in_concat in Hm as (l & Hl & Hml).
  apply (Permutation_in _ (Permutation_sym PermP)) in Hl.
  apply in_map_iff in Hl as (p & <- & Hp). eauto.
Qed.

(** Two models share a pool exactly when their grouping keys agree. *)
Lemma samePool_iff_key (now : Z) (data : Wire.ServerResponse)
    (snap : QuotaSnapshot) (m1 m2 : ModelQuota) :
  parseResponse now data = Ok snap ->
  In m1 (snapshot_models snap) -> In m2 (snapshot_models snap) ->
  (samePool snap m1 m2 <-> bucketKey m1 = bucketKey m2).
Proof.
  intros H H1 H2.
  destruct (snapshot_shape _ _ _ H) as (b & WF & Perm & PermP & Hmk & _).
  split.
  - intros (p & Hp & Hm1 & Hm2).
    destruct (pool_member_key b snap p m1 WF PermP Hp Hm1) as (k1 & Hk1 & E1).
    destruct (pool_member_key b snap p m2 WF PermP Hp Hm2) as (k2 & Hk2 & E2).
    destruct WF as [ND Mem].
    destruct (Mem _ _ Hk1) as [_ F]. rewrite Forall_forall in F.
    rewrite E1. symmetry. now apply F.
  - intros E.
    destruct (model_has_pool b snap m1 Perm PermP H1) as (p1 & Hp1 & Hm1).
    destruct (model_has_pool b snap m2 Perm PermP H2) as (p2 & Hp2 & Hm2).
    destruct (pool_member_key b snap p1 m1 WF PermP Hp1 Hm1) as (k1 & Hk1 & E1).
    destruct (pool_member_key b snap p2 m2 WF PermP Hp2 Hm2) as (k2 & Hk2 & E2).
    assert (k1 = k2) by congruence. subst k2.
    destruct WF as [ND _].
    pose proof (bucket_functional String.eqb String.eqb_eq _ _ _ _ ND Hk1 Hk2)
      as Emem.
    exists p1. rewrite Emem at 2. auto.
Qed.

End DynamicPools.

(** ** The earlier classifier: pools by identifier *)

Section LegacyPools.

Local Open Scope list_scope.

Context {RT : JsRuntime}.

Import Legacy.

Lemma QuotaPoolId_eqb_eq (a b : QuotaPoolId) :
  QuotaPoolId_eqb a b = true <-> a = b.
Proof. destruct a, b; simpl; split; congruence. Qed.

Lemma poolsWF_nil : poolsWF [].
Proof. split; [constructor | intros k l []]. Qed.

Lemma fillPools_ok (ms : list ModelQuota) :
  forall b,
    (poolsWF b -> poolsWF (fillPools ms b)) /\
    Permutation (List.concat (JsMap.values (fillPools ms b)))
                (List.concat (JsMap.values b) ++ ms).
Proof.
  induction ms as [|m ms IH]; intros b; simpl.
  - rewrite app_nil_r. auto.
  - destruct (IH (JsMap.pushTo QuotaPoolId_eqb (pool m) m b)) as [WF Perm].
    split.
    + intros [ND Mem]. apply WF. split.
      * now apply pushTo_NoDup; [apply QuotaPoolId_eqb_eq|].
      * apply (pushTo_members QuotaPoolId_eqb QuotaPoolId_eqb_eq
                 (fun k x => pool x = k)); [reflexivity | assumption].
    + rewrite Perm. rewrite (pushTo_concat QuotaPoolId_eqb).
      rewrite <- app_assoc. reflexivity.
Qed.

Lemma legacy_makePool_fields (i : QuotaPoolId) (members : list ModelQuota)
    (p : QuotaPool) :
  makePool i members = Ok p -> id p = i /\ models p = members.
Proof.
  unfold makePool. destruct (lowest members); [|discriminate].
  intros H. injection H as <-. auto.
Qed.

Lemma legacy_makePool_total (i : QuotaPoolId) (members : list ModelQuota) :
  members <> [] -> exists p, makePool i members = Ok p.
Proof.
  intros Hne. unfold makePool.
  destruct members as [|m rest]; [contradiction|]. simpl. eauto.
Qed.

Lemma buildPools_ok (b : PoolMap) :
  poolsWF b ->
  forall order, exists ps,
    buildPools order b = Ok ps /\
    List.concat (map models ps) =
      flat_map (fun i => match JsMap.get QuotaPoolId_eqb i b with
                         | Some l => l
                         | None => []
                         end) order /\
    forall p, In p ps ->
              JsMap.get QuotaPoolId_eqb (id p) b = Some (models p) /\
              makePool (id p) (models p) = Ok p.
Proof.
  intros [ND Mem]. induction order as [|i order (ps & E & Ec & Hp)]; simpl.
  - exists []. split; [reflexivity|]. split; [reflexivity | intros p []].
  - destruct (JsMap.get QuotaPoolId_eqb i b) as [members|] eqn:Eg.
    + assert (Hne : members <> []).
      { apply (get_In QuotaPoolId_eqb QuotaPoolId_eqb_eq) in Eg.
        now apply Mem in Eg. }
      destruct (legacy_makePool_total i members Hne) as [p Ep].
      destruct (legacy_makePool_fields _ _ _ Ep) as [Ei Em].
      rewrite Ep, E. exists (p :: ps).
      split; [reflexivity|]. split; [simpl; congruence|].
      intros q [<-|Hq]; [|now apply Hp].
      rewrite Ei, Em. auto.
    + exists ps. auto.
Qed.

Lemma poolOrder_complete (i : QuotaPoolId) : In i poolOrder.
Proof. destruct i; simpl; auto. Qed.

Lemma poolOrder_NoDup : NoDup poolOrder.
Proof.
  unfold poolOrder.
  repeat (constructor; [simpl; intuition discriminate|]). constructor.
Qed.

(** The earlier [parseResponse] never throws, and its pools are the
    buckets of a well-formed map read in the canonical order. *)
Lemma legacy_snapshot_shape (now : Z) (data : Wire.ServerResponse) :
  exists snap b,
    parseResponse now data = Ok snap /\
    snapshot_models snap
      = parseModels now (rawModels (Wire.userStatus data)) /\
    poolsWF b /\
    Permutation (List.concat (map models (pools snap)))
                (snapshot_models snap) /\
    forall p, In p (pools snap) ->
              In (id p, models p) b /\ makePool (id p) (models p) = Ok p.
Proof.
  unfold parseResponse.
  set (ms := parseModels now (rawModels (Wire.userStatus data))).
  destruct (fillPools_ok ms []) as [WF Perm].
  specialize (WF poolsWF_nil).
  destruct (buildPools_ok _ WF poolOrder) as (ps & -> & Ec & Hp).
  eexists; exists (fillPools ms []). split; [reflexivity|]. simpl.
  split; [reflexivity|]. split; [assumption|]. split.
  - rewrite Ec.
    rewrite (ordered_read_concat QuotaPoolId_eqb QuotaPoolId_eqb_eq);
      [exact Perm | apply poolOrder_NoDup | apply WF
      | intros; apply poolOrder_complete].
  - intros p Hin. destruct (Hp p Hin) as [Eg Ep].
    split; [|assumption].
    now apply (get_In QuotaPoolId_eqb QuotaPoolId_eqb_eq).
Qed.

End LegacyPools.

(** ** The pools partition the models *)

Lemma concat_perm {A : Type} (l l' : list (list A)) :
  Permutation l l' -> Permutation (List.concat l) (List.concat l').
Proof.
  induction 1 as [|x l l' _ IH|x y l|l l' l'' _ IH1 _ IH2]; simpl.
  - reflexivity.
  - now apply Permutation_app_head.
  - rewrite !app_assoc. apply Permutation_app_tail.
    apply Permutation_app_comm.
  - now transitivity (List.concat l').
Qed.

(** C9: when [parseResponse] returns a snapshot, the member lists of its
    pools, put end to end, are the flat list of models up to order; every
    model of the flat list is a member of one pool and of no other; and
    a member of a pool is a model of the flat list.  The earlier
    revision, which always returns a snapshot, has the same property. *)
Theorem pools_partition_models `{JsRuntime} (now : Z)
    (data : Wire.ServerResponse) (snap : QuotaFetcher.QuotaSnapshot) :
  QuotaFetcher.parseResponse now data = Ok snap ->
  (Permutation
     (List.concat (map QuotaFetcher.models (QuotaFetcher.pools snap)))
     (QuotaFetcher.snapshot_models snap) /\
   (forall m, In m (QuotaFetcher.snapshot_models snap) ->
      exists p, In p (QuotaFetcher.pools snap) /\
                In m (QuotaFetcher.models p) /\
                forall p', In p' (QuotaFetcher.pools snap) ->
                           In m (QuotaFetcher.models p') -> p' = p) /\
   (forall p m, In p (QuotaFetcher.pools snap) ->
                In m (QuotaFetcher.models p) ->
                In m (QuotaFetcher.snapshot_models snap))) /\
  (exists snap',
     Legacy.parseResponse now data = Ok snap' /\
     Permutation
       (List.concat (map Legacy.models (Legacy.pools snap')))
       (Legacy.snapshot_models snap') /\
     (forall m, In m (Legacy.snapshot_models snap') ->
        exists p, In p (Legacy.pools snap') /\
                  In m (Legacy.models p) /\
                  forall p', In p' (Legacy.pools snap') ->
                             In m (Legacy.models p') -> p' = p) /\
     (forall p m, In p (Legacy.pools snap') ->
                  In m (Legacy.models p) ->
                  In m (Legacy.snapshot_models snap'))).
Proof.
  intros Hok. split.
  - destruct (snapshot_shape _ _ _ Hok) as (b & WF & Perm & PermP & Hmk & _).
    assert (PermC : Permutation
              (List.concat (map QuotaFetcher.models (QuotaFetcher.pools snap)))
              (QuotaFetcher.snapshot_models snap)).
    { rewrite <- Perm. now apply concat_perm. }
    split; [exact PermC|]. split.
    + intros m Hm.
      destruct (model_has_pool b snap m Perm PermP Hm) as (p & Hp & Hmp).
      exists p. split; [assumption|]. split; [assumption|].
      intros p' Hp' Hmp'.
      destruct (pool_member_key b snap p m WF PermP Hp Hmp) as (k & Hk & E).
      destruct (pool_member_key b snap p' m WF PermP Hp' Hmp')
        as (k' & Hk' & E').
      assert (k' = k) by congruence. subst k'.
      destruct WF as [ND _].
      pose proof (bucket_functional String.eqb String.eqb_eq _ _ _ _
                    ND Hk Hk') as Emem.
      pose proof (Hmk p Hp) as Ep. pose proof (Hmk p' Hp') as Ep'.
      rewrite Emem in Ep. congruence.
    + intros p m Hp Hm. apply (Permutation_in _ PermC).
      apply in_concat. exists (QuotaFetcher.models p).
      split; [now apply in_map | assumption].
  - destruct (legacy_snapshot_shape now data)
      as (snap' & b & E & _ & WF & Perm & Hp).
    exists snap'. split; [assumption|]. split; [assumption|]. split.
    + intros m Hm.
      apply (Permutation_in _ (Permutation_sym Perm)) in Hm.
      apply in_concat in Hm as (l & Hl & Hml).
      apply in_map_iff in Hl as (p & <- & Hpin).
      exists p. split; [assumption|]. split; [assumption|].
      intros p' Hp' Hmp'.
      destruct (Hp p Hpin) as [Hb Ep]. destruct (Hp p' Hp') as [Hb' Ep'].
      destruct WF as [ND Mem].
      destruct (Mem _ _ Hb) as [_ F]. destruct (Mem _ _ Hb') as [_ F'].
      rewrite Forall_forall in F, F'.
      assert (Ei : Legacy.id p' = Legacy.id p)
        by (rewrite <- (F m Hml), <- (F' m Hmp'); reflexivity).
      rewrite Ei in Hb', Ep'.
      pose proof (bucket_functional Legacy.QuotaPoolId_eqb
                    QuotaPoolId_eqb_eq _ _ _ _ ND Hb Hb') as Emem.
      rewrite <- Emem in Ep'. congruence.
    + intros p m Hpin Hm. apply (Permutation_in _ Perm).
      apply in_concat. exists (Legacy.models p).
      split; [now apply in_map | assumption].
Qed.

Lemma pools_partition_models_witness :
  exists snap,
    QuotaFetcher.parseResponse (H := Sample.runtime) Sample.clock0 Sample.data
      = Ok snap /\
    Permutation
      (List.concat (map QuotaFetcher.models (QuotaFetcher.pools snap)))
      (QuotaFetcher.snapshot_models snap).
Proof.
  eexists. split; [vm_compute; reflexivity|].
  apply (@pools_partition_models Sample.runtime Sample.clock0 Sample.data).
  reflexivity.
Defined.

(** ** Pools are the classes of the pair (remainingPct, resetTime) *)

Lemma append_sep_inj (c : ascii) (a b x y : string) :
  Js.every (fun d => negb (Ascii.eqb d c)) a = true ->
  Js.every (fun d => negb (Ascii.eqb d c)) b = true ->
  a ++ String c x = b ++ String c y -> a = b /\ x = y.
Proof.
  revert b. induction a as [|d a IH]; intros [|e b] Ha Hb E; simpl in *.
  - injection E as <-. auto.
  - injection E as <- _. rewrite Ascii.eqb_refl in Hb. discriminate.
  - injection E as -> _. rewrite Ascii.eqb_refl in Ha. discriminate.
  - injection E as <- E.
    apply andb_true_iff in Ha as [_ Ha]. apply andb_true_iff in Hb as [_ Hb].
    destruct (IH b Ha Hb E) as [-> ->]. auto.
Qed.

Section KeyClasses.

Context {RT : JsRuntime} {Laws : RuntimeLaws RT}.

Import QuotaFetcher.

(** With a valid reset time and percentages in lowest terms, the key
    determines the pair and the pair determines the key. *)
Lemma bucketKey_eq_iff (m1 m2 : ModelQuota) :
  resetTime m1 <> None ->
  remainingPct m1 = Qred (remainingPct m1) ->
  remainingPct m2 = Qred (remainingPct m2) ->
  (bucketKey m1 = bucketKey m2 <->
   remainingPct m1 = remainingPct m2 /\ resetTime m1 = resetTime m2).
Proof.
  intros Hv R1 R2. split.
  - unfold bucketKey, toISOString.
    destruct (resetTime m1) as [t1|]; [|congruence].
    destruct (resetTime m2) as [t2|]; [|discriminate].
    intros E. injection E as E.
    apply append_sep_inj in E as [En Ed];
      try apply Number_toString_no_bar.
    apply Number_toString_inj in En. apply Date_toISOString_inj in Ed.
    split; [|congruence].
    rewrite R1, R2. now apply Qred_complete.
  - intros [E1 E2]. unfold bucketKey. now rewrite E1, E2.
Qed.

Lemma parsed_pct_reduced (now : Z) (raw : list Wire.ClientModelConfig)
    (m : ModelQuota) :
  In m (parseModels now raw) -> remainingPct m = Qred (remainingPct m).
Proof.
  intros Hin. apply parseModels_In in Hin as (e & qi & _ & _ & ->).
  unfold parseModel. cbn [remainingPct]. symmetry.
  apply Qred_complete, Qred_correct.
Qed.

Lemma samePool_iff_pair (now : Z) (data : Wire.ServerResponse)
    (snap : QuotaSnapshot) (m1 m2 : ModelQuota) :
  parseResponse now data = Ok snap ->
  In m1 (snapshot_models snap) -> In m2 (snapshot_models snap) ->
  (samePool snap m1 m2 <->
   remainingPct m1 = remainingPct m2 /\ resetTime m1 = resetTime m2).
Proof.
  intros Hok H1 H2.
  rewrite (samePool_iff_key now data snap m1 m2 Hok H1 H2).
  destruct (snapshot_shape _ _ _ Hok) as (b & _ & _ & _ & _ & Valid).
  destruct (parseResponse_ok _ _ _ Hok) as (_ & _ & _ & Em).
  rewrite Forall_forall in Valid. rewrite Em in H1, H2.
  apply bucketKey_eq_iff.
  - apply Valid. now rewrite Em.
  - eapply parsed_pct_reduced; eassumption.
  - eapply parsed_pct_reduced; eassumption.
Qed.

End KeyClasses.

Lemma percentage_eq_iff (f1 f2 : Q) :
  Qred (f1 * 100) = Qred (f2 * 100) <-> (f1 == f2)%Q.
Proof.
  rewrite Qred_eq_iff. apply Qmult_inj_r. discriminate.
Qed.

(** C1, as stated, fails: entries that differ in the raw payload can
    share a pool.  Two entries whose reset times are different instants
    within one millisecond give the same [Date], hence the same key; so
    do an entry whose remainingFraction is absent and one whose
    remainingFraction is an explicit zero, when they reset together. *)
Lemma differing_raw_pairs_share_a_pool :
  (exists snap e1 qi1 e2 qi2,
     QuotaFetcher.parseResponse (H := Iso.runtime) Sample.clock0 Iso.data
       = Ok snap /\
     In e1 (rawModels (Wire.userStatus Iso.data)) /\
     In e2 (rawModels (Wire.userStatus Iso.data)) /\
     Wire.quotaInfo e1 = Some qi1 /\ Wire.quotaInfo e2 = Some qi2 /\
     Wire.resetTime qi1
       = Some (Wire.StampText "2026-03-01T00:00:00.000100Z") /\
     Wire.resetTime qi2
       = Some (Wire.StampText "2026-03-01T00:00:00.000900Z") /\
     samePool snap
       (QuotaFetcher.parseModel (H := Iso.runtime) Sample.clock0 e1 qi1)
       (QuotaFetcher.parseModel (H := Iso.runtime) Sample.clock0 e2 qi2) /\
     ~ (Wire.remainingFraction qi1 = Wire.remainingFraction qi2 /\
        Wire.resetTime qi1 = Wire.resetTime qi2)) /\
  (exists snap e1 qi1 e2 qi2,
     QuotaFetcher.parseResponse (H := Sample.runtime) Sample.clock0
       Sample.data = Ok snap /\
     In e1 (rawModels (Wire.userStatus Sample.data)) /\
     In e2 (rawModels (Wire.userStatus Sample.data)) /\
     Wire.quotaInfo e1 = Some qi1 /\ Wire.quotaInfo e2 = Some qi2 /\
     Wire.remainingFraction qi1 = None /\
     Wire.remainingFraction qi2 = Some 0%Q /\
     samePool snap
       (QuotaFetcher.parseModel (H := Sample.runtime) Sample.clock0 e1 qi1)
       (QuotaFetcher.parseModel (H := Sample.runtime) Sample.clock0 e2 qi2) /\
     ~ (Wire.remainingFraction qi1 = Wire.remainingFraction qi2 /\
        Wire.resetTime qi1 = Wire.resetTime qi2)).
Proof.
  split.
  - eexists.
    exists (Iso.entry "Gemini 3 Pro" (Some (35 # 100))
                      "2026-03-01T00:00:00.000100Z").
    eexists.
    exists (Iso.entry "Gemini 3 Flash" (Some (35 # 100))
                      "2026-03-01T00:00:00.000900Z").
    eexists.
    split; [vm_compute; reflexivity|].
    split; [simpl; auto|]. split; [simpl; auto|].
    split; [reflexivity|]. split; [reflexivity|].
    split; [reflexivity|]. split; [reflexivity|].
    split.
    + eexists. split; [left; reflexivity|].
      split; [left; reflexivity | right; left; reflexivity].
    + intros [_ E]. discriminate.
  - eexists.
    exists (Sample.entry "Claude Sonnet" None (Some Sample.resetAt)).
    eexists.
    exists (Sample.entry "GPT-OSS" (Some 0%Q) (Some Sample.resetAt)).
    eexists.
    split; [vm_compute; reflexivity|].
    split; [simpl; auto|]. split; [simpl; auto|].
    split; [reflexivity|]. split; [reflexivity|].
    split; [reflexivity|]. split; [reflexivity|].
    split.
    + eexists. split; [right; left; reflexivity|].
      split; [left; reflexivity | right; left; reflexivity].
    + intros [E _]. discriminate.
Qed.

Lemma pool_member_is_model `{JsRuntime} (now : Z)
    (data : Wire.ServerResponse) (snap : QuotaFetcher.QuotaSnapshot)
    (p : QuotaFetcher.QuotaPool) (m : QuotaFetcher.ModelQuota) :
  QuotaFetcher.parseResponse now data = Ok snap ->
  In p (QuotaFetcher.pools snap) -> In m (QuotaFetcher.models p) ->
  In m (QuotaFetcher.snapshot_models snap).
Proof.
  intros Hok Hp Hm.
  destruct (snapshot_shape _ _ _ Hok) as (b & _ & Perm & PermP & _).
  apply (Permutation_in _ Perm). apply in_concat.
  exists (QuotaFetcher.models p). split; [|assumption].
  apply (Permutation_in _ PermP). now apply in_map.
Qed.

(** C1 (amended): when [parseResponse] returns a snapshot, two parsed
    models are in the same pool if and only if their parsed remainingPct
    and resetTime are identical, so that models whose parsed pairs
    differ are in different pools.  In terms of the raw payload: entries
    whose remaining fractions, an absent one read as zero, are equal as
    numbers and whose reset times give the same [Date] share a pool, in
    particular entries with identical raw remainingFraction and
    resetTime; and entries that share a pool have reset times that give
    the same [Date].  The members of a pool share one
    (remainingPct, resetTime) pair. *)
Theorem pools_are_classes_of_parsed_pair {RT : JsRuntime}
    (Laws : RuntimeLaws RT) (now : Z) (data : Wire.ServerResponse)
    (snap : QuotaFetcher.QuotaSnapshot) :
  QuotaFetcher.parseResponse now data = Ok snap ->
  (forall m1 m2,
     In m1 (QuotaFetcher.snapshot_models snap) ->
     In m2 (QuotaFetcher.snapshot_models snap) ->
     (samePool snap m1 m2 <->
      QuotaFetcher.remainingPct m1 = QuotaFetcher.remainingPct m2 /\
      QuotaFetcher.resetTime m1 = QuotaFetcher.resetTime m2)) /\
  (forall e1 qi1 e2 qi2,
     In e1 (rawModels (Wire.userStatus data)) ->
     In e2 (rawModels (Wire.userStatus data)) ->
     Wire.quotaInfo e1 = Some qi1 -> Wire.quotaInfo e2 = Some qi2 ->
     let m1 := QuotaFetcher.parseModel now e1 qi1 in
     let m2 := QuotaFetcher.parseModel now e2 qi2 in
     ((Js.orZero (Wire.remainingFraction qi1)
       == Js.orZero (Wire.remainingFraction qi2))%Q ->
      newDate (Wire.resetTime qi1) = newDate (Wire.resetTime qi2) ->
      samePool snap m1 m2) /\
     (Wire.remainingFraction qi1 = Wire.remainingFraction qi2 ->
      Wire.resetTime qi1 = Wire.resetTime qi2 ->
      samePool snap m1 m2) /\
     (samePool snap m1 m2 ->
      newDate (Wire.resetTime qi1) = newDate (Wire.resetTime qi2))) /\
  (forall p m1 m2,
     In p (QuotaFetcher.pools snap) ->
     In m1 (QuotaFetcher.models p) -> In m2 (QuotaFetcher.models p) ->
     QuotaFetcher.remainingPct m1 = QuotaFetcher.remainingPct m2 /\
     QuotaFetcher.resetTime m1 = QuotaFetcher.resetTime m2).
Proof.
  intros Hok.
  destruct (parseResponse_ok _ _ _ Hok) as (_ & _ & _ & Em).
  assert (Raw : forall e1 qi1 e2 qi2,
     In e1 (rawModels (Wire.userStatus data)) ->
     In e2 (rawModels (Wire.userStatus data)) ->
     Wire.quotaInfo e1 = Some qi1 -> Wire.quotaInfo e2 = Some qi2 ->
     (samePool snap (QuotaFetcher.parseModel now e1 qi1)
                    (QuotaFetcher.parseModel now e2 qi2) <->
      Qred (Js.orZero (Wire.remainingFraction qi1) * 100)
        = Qred (Js.orZero (Wire.remainingFraction qi2) * 100) /\
      newDate (Wire.resetTime qi1) = newDate (Wire.resetTime qi2))).
  { intros e1 qi1 e2 qi2 H1 H2 Q1 Q2.
    rewrite (samePool_iff_pair now data snap _ _ Hok);
      try (rewrite Em; apply parseModels_In; eauto).
    reflexivity. }
  split; [|split].
  - intros m1 m2 H1 H2. now apply (samePool_iff_pair now data).
  - intros e1 qi1 e2 qi2 H1 H2 Q1 Q2 m1 m2.
    split; [|split].
    + intros Ef Er. apply Raw; try assumption.
      split; [|assumption].
      apply Qred_complete. now rewrite Ef.
    + intros Ef Er. apply Raw; try assumption.
      rewrite Ef, Er. split; reflexivity.
    + intros S. now apply Raw in S.
  - intros p m1 m2 Hp H1 H2.
    apply (samePool_iff_pair now data snap m1 m2 Hok).
    + eapply pool_member_is_model; eassumption.
    + eapply pool_member_is_model; eassumption.
    + exists p. auto.
Qed.

(** The runtime of the worked examples satisfies the laws. *)
Lemma printNumber_chars (q : Q) :
  Js.every (fun c => isNumeralChar c || Ascii.eqb c "/"%char)
           (Sample.printNumber q) = true.
Proof.
  assert (N : forall z, Js.every (fun c => isNumeralChar c
                                          || Ascii.eqb c "/"%char)
                                 (Js.string_of_Z z) = true).
  { intros z. apply every_weaken with (p := isNumeralChar);
      [intros c -> ; reflexivity | apply string_of_Z_numeral]. }
  unfold Sample.printNumber.
  destruct (Qden (Qred q)); rewrite ?every_append, ?N; reflexivity.
Qed.

Lemma numeral_no_slash (z : Z) :
  Js.every (fun d => negb (Ascii.eqb d "/"%char)) (Js.string_of_Z z) = true.
Proof.
  apply every_weaken with (p := isNumeralChar);
    [|apply string_of_Z_numeral].
  intros c Hc. destruct (Ascii.eqb_spec c "/"%char) as [->|]; [|reflexivity].
  discriminate.
Qed.

Lemma printNumber_inj (a b : Q) :
  Sample.printNumber a = Sample.printNumber b -> (a == b)%Q.
Proof.
  intros E. apply Qred_eq_iff.
  unfold Sample.printNumber in E.
  destruct (Qred a) as [na da], (Qred b) as [nb db]. simpl in E.
  assert (Slash : forall n n' d,
            Js.string_of_Z n <> Js.string_of_Z n' ++ "/" ++ Js.string_of_Z d).
  { intros n n' d C. pose proof (numeral_no_slash n) as H.
    rewrite C, every_append in H. simpl in H.
    rewrite andb_false_r in H. discriminate. }
  assert (Both : forall n n' d d',
            Js.string_of_Z n ++ "/" ++ Js.string_of_Z (Z.pos d) =
            Js.string_of_Z n' ++ "/" ++ Js.string_of_Z (Z.pos d') ->
            n = n' /\ d = d').
  { intros n n' d d' C.
    apply append_sep_inj in C as [C1 C2]; try apply numeral_no_slash.
    apply string_of_Z_inj in C1. apply string_of_Z_inj in C2.
    split; congruence. }
  destruct da, db;
    try (apply Both in E as [-> E]; congruence);
    try (apply Slash in E; contradiction);
    try (symmetry in E; apply Slash in E; contradiction).
  apply string_of_Z_inj in E. now subst.
Qed.

Lemma sample_runtime_laws : RuntimeLaws Sample.runtime.
Proof.
  constructor; simpl.
  - apply printNumber_inj.
  - intros a. apply every_weaken with (2 := printNumber_chars a).
    intros c Hc. destruct (Ascii.eqb_spec c "|"%char) as [->|]; [|reflexivity].
    discriminate.
  - apply string_of_Z_inj.
Qed.

(** C1 (amended) at the sample payload, for the runtime of the worked
    examples. *)
Lemma pools_are_classes_of_parsed_pair_witness :
  exists snap,
    QuotaFetcher.parseResponse (H := Sample.runtime) Sample.clock0 Sample.data
      = Ok snap /\
    forall m1 m2,
      In m1 (QuotaFetcher.snapshot_models snap) ->
      In m2 (QuotaFetcher.snapshot_models snap) ->
      (samePool snap m1 m2 <->
       QuotaFetcher.remainingPct m1 = QuotaFetcher.remainingPct m2 /\
       QuotaFetcher.resetTime m1 = QuotaFetcher.resetTime m2).
Proof.
  eexists. split; [vm_compute; reflexivity|].
  apply (@pools_are_classes_of_parsed_pair Sample.runtime
           sample_runtime_laws Sample.clock0 Sample.data).
  reflexivity.
Defined.

(** ** An invalid reset time makes the classifier throw *)

Lemma newDate_invalid_cases `{JsRuntime} (v : option Wire.RawStamp) :
  newDate v = None <->
  v = None \/
  (exists s, v = Some (Wire.StampText s) /\ Date_parse s = None) \/
  (exists n, v = Some (Wire.StampMillis n) /\ 8640000000000000 < Z.abs n).
Proof.
  unfold newDate. destruct v as [[s|n]|].
  - split.
    + intros E. right. left. eauto.
    + intros [C|[(s' & C & E)|(n & C & _)]]; congruence.
  - destruct (Z.abs n <=? 8640000000000000) eqn:E.
    + apply Z.leb_le in E. split; [discriminate|].
      intros [C|[(s' & C & _)|(n' & C & Hn)]]; try congruence.
      injection C as <-. lia.
    + apply Z.leb_gt in E. split; [|reflexivity].
      intros _. right. right. eauto.
  - split; auto.
Qed.

Lemma post_outcome (port : Z) (token path : string) (protocol : Scheme)
    (w : World) (log : Log) :
  exists r,
    Fetcher.post port token path protocol w log =
      (r, (log ++ [EvRequest
                     (Fetcher.postOptions port token path protocol)])%list).
Proof. unfold Fetcher.post, bind, sendRequest, ret. eauto. Qed.

(** C10: if some entry of the payload carries quota information while
    its resetTime is absent or does not yield a valid time value, the
    dynamic [parseResponse] throws the RangeError of [toISOString], and
    [fetchQuota], whenever the status call delivers that payload,
    rejects with it instead of returning a snapshot. *)
Theorem invalid_reset_time_rejects `{JsRuntime} (now : Z)
    (data : Wire.ServerResponse)
    (e : Wire.ClientModelConfig) (qi : Wire.QuotaInfo) :
  In e (rawModels (Wire.userStatus data)) ->
  Wire.quotaInfo e = Some qi ->
  newDate (Wire.resetTime qi) = None ->
  QuotaFetcher.parseResponse now data = Throw RangeError_InvalidTime /\
  forall port token w log,
    fst (Fetcher.postWithFallback port token Fetcher.statusPath w log)
      = Ok data ->
    fst (Fetcher.fetchQuota port token w log) = Throw RangeError_InvalidTime.
Proof.
  intros Hin Hqi Hdate.
  assert (P : forall t, QuotaFetcher.parseResponse t data
                        = Throw RangeError_InvalidTime).
  { intros t. unfold QuotaFetcher.parseResponse.
    rewrite fillBuckets_throws; [reflexivity|].
    apply Exists_exists. exists (QuotaFetcher.parseModel t e qi).
    split; [apply parseModels_In; eauto | exact Hdate]. }
  split; [apply P|].
  intros port token w log Hpost.
  unfold Fetcher.fetchQuota, bind.
  destruct (Fetcher.postWithFallback port token Fetcher.statusPath w log)
    as [r log'].
  simpl in Hpost. subst r. unfold Date_now, ret. simpl. apply P.
Qed.

(** C10 at the sample payload extended with an entry that carries
    quota information and no resetTime, served over HTTP on port 42101. *)
Lemma invalid_reset_time_rejects_witness :
  QuotaFetcher.parseResponse (H := Sample.runtime) Sample.clock0
    Sample.brokenData = Throw RangeError_InvalidTime /\
  fst (Fetcher.fetchQuota (H := Sample.runtime) 42101 "6f1c-ab90"
         (Sample.world Sample.processLine http Sample.brokenData) [])
    = Throw RangeError_InvalidTime.
Proof.
  destruct (@invalid_reset_time_rejects Sample.runtime Sample.clock0
              Sample.brokenData
              (Sample.entry "Gemini 2.5" (Some 1%Q) None)
              {| Wire.remainingFraction := Some 1%Q;
                 Wire.resetTime := None |}) as [A B].
  - simpl. auto 10.
  - reflexivity.
  - reflexivity.
  - split; [exact A|]. apply B. reflexivity.
Defined.

(** The earlier revision does not serialize the date: it returns a
    snapshot for the same payload. *)
Lemma legacy_parseResponse_total `{JsRuntime} (now : Z)
    (data : Wire.ServerResponse) :
  exists snap, Legacy.parseResponse now data = Ok snap.
Proof.
  destruct (legacy_snapshot_shape now data) as (snap & _ & E & _). eauto.
Qed.

(** ** Listening ports: unique, ascending *)

Section Ports.

Local Open Scope list_scope.

Import ProcessFinder.

Lemma existsb_Zeqb (p : Z) (l : list Z) :
  existsb (Z.eqb p) l = true <-> In p l.
Proof.
  rewrite existsb_exists. split.
  - intros [x [Hin E]]. apply Z.eqb_eq in E. now subst.
  - intros Hin. exists p. split; [assumption | apply Z.eqb_refl].
Qed.

Lemma pushUnique_spec (found : list Z) :
  forall ports,
    NoDup ports ->
    NoDup (pushUnique found ports) /\
    forall p, In p (pushUnique found ports) <-> In p ports \/ In p found.
Proof.
  induction found as [|q found IH]; intros ports ND; simpl.
  - split; [assumption | intuition].
  - destruct (existsb (Z.eqb q) ports) eqn:E.
    + apply existsb_Zeqb in E. destruct (IH ports ND) as [ND' Hin].
      split; [assumption|]. intros p. rewrite Hin.
      intuition (subst; auto).
    + assert (Hq : ~ In q ports).
      { intros C. apply existsb_Zeqb in C. congruence. }
      assert (ND2 : NoDup (ports ++ [q])).
      { apply NoDup_app; try assumption.
        - constructor; [intros [] | constructor].
        - intros x Hx [<-|[]]. contradiction. }
      destruct (IH _ ND2) as [ND' Hin].
      split; [assumption|]. intros p. rewrite Hin, in_app_iff. simpl.
      intuition.
Qed.

Lemma insertPort_perm (p : Z) (l : list Z) :
  Permutation (insertPort p l) (p :: l).
Proof.
  induction l as [|q l IH]; simpl; [reflexivity|].
  destruct (q <? p)%Z; [|reflexivity].
  rewrite IH. apply perm_swap.
Qed.

Lemma sortPorts_perm (l : list Z) : Permutation (sortPorts l) l.
Proof.
  induction l as [|p l IH]; simpl; [reflexivity|].
  rewrite insertPort_perm. now constructor.
Qed.

Lemma insertPort_sorted (p : Z) (l : list Z) :
  StronglySorted Z.lt l -> ~ In p l -> StronglySorted Z.lt (insertPort p l).
Proof.
  induction l as [|q l IH]; intros S Hp; simpl.
  - constructor; [constructor | constructor].
  - inversion S as [|? ? S' F]; subst.
    destruct (q <? p)%Z eqn:E.
    + apply Z.ltb_lt in E. constructor.
      * apply IH; [assumption | intros C; apply Hp; now right].
      * apply Forall_forall. intros x Hx.
        apply (Permutation_in _ (insertPort_perm p l)) in Hx.
        destruct Hx as [<-|Hx]; [assumption|].
        rewrite Forall_forall in F. now apply F.
    + apply Z.ltb_ge in E.
      assert (p < q)%Z.
      { assert (p <> q) by (intros ->; apply Hp; now left). lia. }
      constructor; [assumption|]. constructor; [assumption|].
      rewrite Forall_forall in F |- *. intros x Hx.
      specialize (F x Hx). lia.
Qed.

Lemma sortPorts_sorted (l : list Z) :
  NoDup l -> StronglySorted Z.lt (sortPorts l).
Proof.
  induction 1 as [|p l Hp _ IH]; simpl; [constructor|].
  apply insertPort_sorted; [assumption|].
  intros C. apply Hp. now apply (Permutation_in _ (sortPorts_perm l)).
Qed.

(** The candidate ports are the scanned ports, each once, in strictly
    ascending order. *)
Lemma parsePortOutput_sorted `{JsRuntime} (plat : Platform)
    (stdout : string) (pid : option Z) :
  StronglySorted Z.lt (parsePortOutput plat stdout pid) /\
  forall p, In p (parsePortOutput plat stdout pid) <->
            In p (scanPorts plat stdout pid).
Proof.
  unfold parsePortOutput.
  destruct (pushUnique_spec (scanPorts plat stdout pid) [] (NoDup_nil _))
    as [ND Hin].
  split; [now apply sortPorts_sorted|].
  intros p. split.
  - intros Hp. apply (Permutation_in _ (sortPorts_perm _)) in Hp.
    apply Hin in Hp as [[]|Hp]. assumption.
  - intros Hp.
    apply (Permutation_in _ (Permutation_sym (sortPorts_perm _))).
    apply Hin. now right.
Qed.

End Ports.

(** ** Probing the candidate ports *)

Section Probing.

Local Open Scope list_scope.

Import ProcessFinder.

Lemma testPort_run (p : Z) (tok : string) (w : World) (log : Log) :
  testPort p tok w log =
    (probeAccepts (request w log (probeOptions p tok)),
     log ++ [EvRequest (probeOptions p tok)]).
Proof. reflexivity. Qed.

Lemma probes_app (tok : string) (a b : list Z) :
  probes tok (a ++ b) = probes tok a ++ probes tok b.
Proof. apply map_app. Qed.

(** The ports before the first one that answers are probed in order,
    that one is returned, and nothing after it is probed. *)
Lemma findWorkingPort_first_success (w : World) (tok : string) (p : Z)
    (post : list Z) :
  forall (pre : list Z) (log : Log),
    (forall pre1 q pre2,
       pre = pre1 ++ q :: pre2 ->
       probeAccepts (request w (log ++ probes tok pre1) (probeOptions q tok))
         = false) ->
    probeAccepts (request w (log ++ probes tok pre) (probeOptions p tok))
      = true ->
    findWorkingPort (pre ++ p :: post) tok w log =
      (Some p, log ++ probes tok (pre ++ [p])).
Proof.
  induction pre as [|q pre IH]; intros log Hpre Hp; simpl.
  - unfold bind. rewrite testPort_run. simpl in Hp.
    rewrite app_nil_r in Hp. rewrite Hp. reflexivity.
  - unfold bind. rewrite testPort_run.
    pose proof (Hpre [] q pre eq_refl) as Hq. simpl in Hq.
    rewrite app_nil_r in Hq. rewrite Hq.
    rewrite IH.
    + now rewrite <- app_assoc.
    + intros pre1 q' pre2 E. rewrite <- app_assoc.
      apply (Hpre (q :: pre1) q' pre2). simpl. now rewrite E.
    + rewrite <- app_assoc. exact Hp.
Qed.

(** When no port answers, all are probed and none is returned. *)
Lemma findWorkingPort_no_answer (w : World) (tok : string) :
  forall (ports : list Z) (log : Log),
    (forall pre1 q pre2,
       ports = pre1 ++ q :: pre2 ->
       probeAccepts (request w (log ++ probes tok pre1) (probeOptions q tok))
         = false) ->
    findWorkingPort ports tok w log = (None, log ++ probes tok ports).
Proof.
  induction ports as [|q ports IH]; intros log Hall; simpl.
  - now rewrite app_nil_r.
  - unfold bind. rewrite testPort_run.
    pose proof (Hall [] q ports eq_refl) as Hq. simpl in Hq.
    rewrite app_nil_r in Hq. rewrite Hq.
    rewrite IH; [now rewrite <- app_assoc|].
    intros pre1 q' pre2 E. rewrite <- app_assoc.
    apply (Hall (q :: pre1) q' pre2). simpl. now rewrite E.
Qed.

(** The log of [findWorkingPort] grows by probes only. *)
Lemma findWorkingPort_log (w : World) (tok : string) :
  forall (ports : list Z) (log : Log),
    exists probed,
      snd (findWorkingPort ports tok w log) = log ++ probes tok probed.
Proof.
  induction ports as [|q ports IH]; intros log; simpl.
  - exists []. simpl. now rewrite app_nil_r.
  - unfold bind. rewrite testPort_run.
    destruct (probeAccepts _).
    + exists [q]. reflexivity.
    + destruct (IH (log ++ [EvRequest (probeOptions q tok)])) as [probed E].
      exists (q :: probed). rewrite E. now rewrite <- app_assoc.
Qed.

(** One run of the locator, spelled out. *)
Lemma findAntigravityProcess_run `{JsRuntime} (ws : option string)
    (w : World) (log : Log) :
  let plat := platform w in
  let name := getProcessName plat (arch w) in
  let log1 := log ++ [EvExec (ListProcesses plat name)] in
  findAntigravityProcess ws w log =
    match exec w log (ListProcesses plat name) with
    | None => (None, log1)
    | Some stdout =>
        match parseProcessOutput plat stdout ws with
        | None => (None, log1)
        | Some parsed =>
            let log2 := log1 ++ [EvExec (ListPorts plat (pid parsed))] in
            let ports :=
              match exec w log1 (ListPorts plat (pid parsed)) with
              | None => []
              | Some out => parsePortOutput plat out (pid parsed)
              end in
            match ports with
            | [] => (None, log2)
            | _ =>
                let (workingPort, log3) :=
                  findWorkingPort ports (parsed_csrfToken parsed) w log2 in
                (match workingPort with
                 | None => None
                 | Some p =>
                     if p =? 0 then None
                     else Some {| port := p;
                                  csrfToken := parsed_csrfToken parsed |}
                 end, log3)
            end
        end
    end.
Proof.
  intros plat name log1.
  unfold findAntigravityProcess, findProcess, getListeningPorts.
  run_monad. subst plat name log1. cbv zeta.
  destruct (exec w log (ListProcesses _ _)) as [stdout|]; [|reflexivity].
  destruct (parseProcessOutput _ stdout ws) as [parsed|]; [|reflexivity].
  destruct (exec w _ (ListPorts _ (pid parsed))) as [out|]; [|reflexivity].
  destruct (parsePortOutput _ out (pid parsed)) as [|q ports];
    [reflexivity|].
  destruct (findWorkingPort (q :: ports) (parsed_csrfToken parsed) w _)
    as [[p|] log3]; [|reflexivity].
  destruct (p =? 0); reflexivity.
Qed.

End Probing.

(** C5: the candidate ports are in strictly ascending order and are
    probed in that order; when the port list is [pre ++ p :: post], no
    port of [pre] answers the probe with HTTP 200 and parseable JSON at
    the moment it is probed, and [p] does, the locator returns [p] with
    the token of the process, and the probes it has sent are those of
    [pre ++ [p]]: no port of [post] is probed. *)
Theorem locate_returns_first_answering_port `{JsRuntime}
    (w : World) (ws : option string) (log : Log) (stdout portsOut : string)
    (parsed : ProcessFinder.ParsedProcess) (pre post : list Z) (p : Z) :
  let plat := platform w in
  let name := ProcessFinder.getProcessName plat (arch w) in
  let log1 := (log ++ [EvExec (ListProcesses plat name)])%list in
  let log2 :=
    (log1 ++ [EvExec (ListPorts plat (ProcessFinder.pid parsed))])%list in
  let tok := ProcessFinder.parsed_csrfToken parsed in
  exec w log (ListProcesses plat name) = Some stdout ->
  ProcessFinder.parseProcessOutput plat stdout ws = Some parsed ->
  exec w log1 (ListPorts plat (ProcessFinder.pid parsed)) = Some portsOut ->
  ProcessFinder.parsePortOutput plat portsOut (ProcessFinder.pid parsed)
    = (pre ++ p :: post)%list ->
  (forall pre1 q pre2,
     pre = (pre1 ++ q :: pre2)%list ->
     ProcessFinder.probeAccepts
       (request w (log2 ++ probes tok pre1)%list
                (ProcessFinder.probeOptions q tok)) = false) ->
  ProcessFinder.probeAccepts
    (request w (log2 ++ probes tok pre)%list
             (ProcessFinder.probeOptions p tok)) = true ->
  p <> 0 ->
  StronglySorted Z.lt (pre ++ p :: post)%list /\
  ProcessFinder.findWorkingPort (pre ++ p :: post)%list tok w log2 =
    (Some p, (log2 ++ probes tok (pre ++ [p]))%list) /\
  ProcessFinder.findAntigravityProcess ws w log =
    (Some {| ProcessFinder.port := p; ProcessFinder.csrfToken := tok |},
     (log2 ++ probes tok (pre ++ [p]))%list).
Proof.
  intros plat name log1 log2 tok Hps Hparsed Hports Hsplit Hpre Hp Hnz.
  assert (Hfind : ProcessFinder.findWorkingPort (pre ++ p :: post)%list
                    tok w log2 =
                  (Some p, (log2 ++ probes tok (pre ++ [p]))%list))
    by now apply findWorkingPort_first_success.
  split; [|split; [exact Hfind|]].
  - rewrite <- Hsplit. apply parsePortOutput_sorted.
  - rewrite findAntigravityProcess_run. cbv zeta.
    fold plat. fold name. rewrite Hps, Hparsed.
    fold log1. rewrite Hports, Hsplit.
    fold log2. fold tok. rewrite Hfind.
    destruct (p =? 0) eqn:E; [apply Z.eqb_eq in E; contradiction|].
    destruct pre; reflexivity.
Qed.

(** C5 on the sample machine: the ports 42102, 42100, 42101 are listed,
    port 42101 is the first, in ascending order, to answer over HTTPS;
    it is returned after the probes of 42100 and 42101. *)
Lemma locate_returns_first_answering_port_witness :
  let w := Sample.world Sample.processLine https Sample.data in
  ProcessFinder.findAntigravityProcess (H := Sample.runtime) None w [] =
    (Some {| ProcessFinder.port := 42101;
             ProcessFinder.csrfToken := "6f1c-ab90" |},
     [EvExec (ListProcesses linux "language_server_linux_x64");
      EvExec (ListPorts linux (Some 1234));
      EvRequest (ProcessFinder.probeOptions 42100 "6f1c-ab90");
      EvRequest (ProcessFinder.probeOptions 42101 "6f1c-ab90")]).
Proof.
  intros w.
  refine (proj2 (proj2
    (@locate_returns_first_answering_port Sample.runtime w None []
       Sample.processLine Sample.portListing
       {| ProcessFinder.pid := Some 1234;
          ProcessFinder.extensionPort := 42100;
          ProcessFinder.parsed_csrfToken := "6f1c-ab90" |}
       [42100] [42102] 42101 _ _ _ _ _ _ _))).
  - reflexivity.
  - reflexivity.
  - reflexivity.
  - reflexivity.
  - intros pre1 q pre2 E.
    destruct pre1 as [|x [|y pre1]]; try discriminate.
    injection E as <- <-. reflexivity.
  - reflexivity.
  - discriminate.
Defined.

(** ** The poll cycle *)

Section PollCycle.

Local Open Scope list_scope.

Context {RT : JsRuntime}.

Lemma detections_app (a b : Log) :
  detections (a ++ b) = (detections a + detections b)%nat.
Proof. unfold detections. now rewrite filter_app, length_app. Qed.

Lemma detections_probes (tok : string) (ports : list Z) :
  detections (probes tok ports) = 0%nat.
Proof. induction ports as [|p ports IH]; [reflexivity | exact IH]. Qed.

Lemma detections_status_calls (port : Z) (tok : string) (reqs : Log) :
  Forall (isStatusCallTo port tok) reqs -> detections reqs = 0%nat.
Proof.
  induction 1 as [|ev reqs [protocol ->] _ IH]; [reflexivity | exact IH].
Qed.

(** A status call logs one request over HTTP and, when that one fails,
    a second one over HTTPS; all go to the given port with the given
    token. *)
Lemma postWithFallback_run (port : Z) (tok path : string) (w : World)
    (log : Log) :
  let first := Fetcher.postOptions port tok path http in
  let second := Fetcher.postOptions port tok path https in
  match fst (Fetcher.post port tok path http w log) with
  | Ok d =>
      Fetcher.postWithFallback port tok path w log
        = (Ok d, log ++ [EvRequest first])
  | Throw _ =>
      Fetcher.postWithFallback port tok path w log
        = Fetcher.post port tok path https w (log ++ [EvRequest first]) /\
      snd (Fetcher.postWithFallback port tok path w log)
        = log ++ [EvRequest first; EvRequest second]
  end.
Proof.
  intros first second. subst first second.
  unfold Fetcher.postWithFallback, bind.
  destruct (post_outcome port tok path http w log) as [r ->]. simpl.
  destruct r as [d|e]; [reflexivity|].
  split; [reflexivity|].
  destruct (post_outcome port tok path https w
              (log ++ [EvRequest (Fetcher.postOptions port tok path http)]))
    as [r' ->].
  simpl. now rewrite <- app_assoc.
Qed.

Lemma fetchQuota_log (port : Z) (tok : string) (w : World) (log : Log) :
  exists reqs,
    snd (Fetcher.fetchQuota port tok w log) = log ++ reqs /\
    Forall (isStatusCallTo port tok) reqs /\
    (1 <= List.length reqs <= 2)%nat.
Proof.
  unfold Fetcher.fetchQuota, bind.
  pose proof (postWithFallback_run port tok Fetcher.statusPath w log) as R.
  cbv zeta in R.
  destruct (fst (Fetcher.post port tok Fetcher.statusPath http w log))
    as [d|e].
  - rewrite R. unfold Date_now, ret. simpl.
    eexists. split; [reflexivity|]. split; [|simpl; lia].
    constructor; [now exists http | constructor].
  - destruct R as [_ R].
    destruct (Fetcher.postWithFallback port tok Fetcher.statusPath w log)
      as [r log']. simpl in R. subst log'.
    exists [EvRequest (Fetcher.postOptions port tok Fetcher.statusPath http);
            EvRequest (Fetcher.postOptions port tok Fetcher.statusPath https)].
    split; [destruct r; reflexivity|]. split; [|simpl; lia].
    constructor; [now exists http|].
    constructor; [now exists https | constructor].
Qed.

(** Every run of the locator queries the process table once. *)
Lemma findAntigravityProcess_detects_once (ws : option string) (w : World)
    (log : Log) :
  detections (snd (ProcessFinder.findAntigravityProcess ws w log))
    = (detections log + 1)%nat.
Proof.
  rewrite findAntigravityProcess_run. cbv zeta.
  set (log1 := log ++ [EvExec (ListProcesses _ _)]).
  assert (D1 : detections log1 = (detections log + 1)%nat)
    by (unfold log1; now rewrite detections_app).
  destruct (exec w log _) as [stdout|]; [|exact D1].
  destruct (ProcessFinder.parseProcessOutput _ stdout ws) as [parsed|];
    [|exact D1].
  set (log2 := log1 ++ [EvExec (ListPorts _ _)]).
  assert (D2 : detections log2 = (detections log + 1)%nat).
  { assert (Z0 : forall c p, detections [EvExec (ListPorts c p)] = 0%nat)
      by reflexivity.
    unfold log2. rewrite detections_app, D1, Z0. lia. }
  destruct (match exec w log1 _ with Some _ => _ | None => _ end)
    as [|q ports]; [exact D2|].
  destruct (findWorkingPort_log w (ProcessFinder.parsed_csrfToken parsed)
              (q :: ports) log2) as [probed E].
  destruct (ProcessFinder.findWorkingPort (q :: ports) _ w log2)
    as [wp log3].
  simpl in E |- *. subst log3.
  rewrite detections_app, detections_probes, D2. lia.
Qed.

(** One cycle, spelled out. *)
Lemma rendering_run (ws : option string) (st : Extension.State)
    (w : World) (log : Log) :
  Rendering.refreshQuota ws st w log =
    match Extension.processInfo st with
    | None => (Extension.showError "No connection" st, log)
    | Some info =>
        let (r, log1) :=
          Fetcher.fetchQuota (ProcessFinder.port info)
            (ProcessFinder.csrfToken info) w log in
        let (st1, done) := Rendering.tryShow r st in
        if done then (st1, log1)
        else
          let (found, log2) :=
            ProcessFinder.findAntigravityProcess ws w log1 in
          let st2 := Extension.setProcessInfo found st1 in
          match found with
          | Some info' =>
              let (r', log3) :=
                Fetcher.fetchQuota (ProcessFinder.port info')
                  (ProcessFinder.csrfToken info') w log2 in
              let (st3, done') := Rendering.tryShow r' st2 in
              (if done' then st3
               else Extension.showError "Fetch failed" st3, log3)
          | None => (Extension.showError "Fetch failed" st2, log2)
          end
    end.
Proof.
  unfold Rendering.refreshQuota.
  destruct (Extension.processInfo st) as [info|]; [|reflexivity].
  unfold bind at 1.
  destruct (Fetcher.fetchQuota _ _ w log) as [r log1].
  destruct (Rendering.tryShow r st) as [st1 [|]]; [reflexivity|].
  unfold bind at 1.
  destruct (ProcessFinder.findAntigravityProcess ws w log1)
    as [[info'|] log2]; [|reflexivity].
  unfold bind.
  destruct (Fetcher.fetchQuota _ _ w log2) as [r' log3].
  destruct (Rendering.tryShow r' _) as [st3 [|]]; reflexivity.
Qed.

(** What a try block leaves behind. *)
Lemma tryShow_done (r : Result QuotaFetcher.QuotaSnapshot)
    (st st1 : Extension.State) :
  Rendering.tryShow r st = (st1, true) ->
  exists snapshot,
    r = Ok snapshot /\ Rendering.draws snapshot = true /\
    st1 = Extension.showSnapshot snapshot st.
Proof.
  unfold Rendering.tryShow. destruct r as [snapshot|e]; [|discriminate].
  destruct (Rendering.draws snapshot) eqn:D; [|discriminate].
  intros E. injection E as <-. now exists snapshot.
Qed.

Lemma tryShow_failed (r : Result QuotaFetcher.QuotaSnapshot)
    (st st1 : Extension.State) :
  Rendering.tryShow r st = (st1, false) ->
  Extension.statusBarItem st1 = Extension.statusBarItem st /\
  Extension.processInfo st1 = Extension.processInfo st /\
  ((exists e, r = Throw e /\ st1 = st) \/
   (exists snapshot,
      r = Ok snapshot /\ Rendering.draws snapshot = false /\
      Extension.lastSnapshot st1 = Some snapshot)).
Proof.
  unfold Rendering.tryShow. destruct r as [snapshot|e].
  - destruct (Rendering.draws snapshot) eqn:D; [discriminate|].
    intros E. injection E as <-. simpl. repeat split.
    right. now exists snapshot.
  - intros E. injection E as <-. repeat split. left. now exists e.
Qed.

(** A try block that cannot run to its end. *)
Lemma tryShow_fails (r : Result QuotaFetcher.QuotaSnapshot)
    (st : Extension.State) :
  (forall snapshot, r = Ok snapshot -> Rendering.draws snapshot = false) ->
  Rendering.tryShow r st =
    (match r with
     | Ok snapshot => Extension.setLastSnapshot snapshot st
     | Throw _ => st
     end, false).
Proof.
  intros Hr. unfold Rendering.tryShow. destruct r as [snapshot|e];
    [|reflexivity].
  now rewrite (Hr snapshot eq_refl).
Qed.

Lemma tryShow_processInfo (r : Result QuotaFetcher.QuotaSnapshot)
    (st st1 : Extension.State) (done : bool) :
  Rendering.tryShow r st = (st1, done) ->
  Extension.processInfo st1 = Extension.processInfo st.
Proof.
  unfold Rendering.tryShow.
  destruct r as [snapshot|e]; [destruct (Rendering.draws snapshot)|];
    intros T; injection T as <- <-; reflexivity.
Qed.

(** C7: when the first attempt of a poll cycle fails, that is, the fetch
    throws or the fetched snapshot cannot be shown, the cycle runs the
    locator once, so that the process table is queried exactly once
    more; if the locator answers a ProcessInfo, that value replaces the
    stored one and one more fetch is made, whose requests all go to the
    new port with the new token, and the cycle ends showing the retried
    snapshot when there is one that can be shown and Fetch failed
    otherwise; if the locator answers nothing, the cycle ends showing
    Fetch failed with no ProcessInfo stored. *)
Theorem refreshQuota_redetects_once (ws : option string)
    (st : Extension.State) (info : ProcessFinder.ProcessInfo)
    (w : World) (log log1 log2 : Log)
    (r : Result QuotaFetcher.QuotaSnapshot)
    (found : option ProcessFinder.ProcessInfo) :
  Extension.processInfo st = Some info ->
  Fetcher.fetchQuota (ProcessFinder.port info) (ProcessFinder.csrfToken info)
    w log = (r, log1) ->
  (forall snapshot, r = Ok snapshot -> Rendering.draws snapshot = false) ->
  ProcessFinder.findAntigravityProcess ws w log1 = (found, log2) ->
  let final := fst (Rendering.refreshQuota ws st w log) in
  let log3 := snd (Rendering.refreshQuota ws st w log) in
  detections log3 = (detections log + 1)%nat /\
  Extension.processInfo final = found /\
  (found = None ->
   log3 = log2 /\
   Extension.statusBarItem final = Extension.ErrorShown "Fetch failed" /\
   Extension.processInfo final = None) /\
  (forall info', found = Some info' ->
   let retry :=
     Fetcher.fetchQuota (ProcessFinder.port info')
       (ProcessFinder.csrfToken info') w log2 in
   log3 = snd retry /\
   (exists reqs,
      log3 = log2 ++ reqs /\
      Forall (isStatusCallTo (ProcessFinder.port info')
                             (ProcessFinder.csrfToken info')) reqs /\
      (1 <= List.length reqs <= 2)%nat) /\
   match fst retry with
   | Ok snapshot =>
       Extension.lastSnapshot final = Some snapshot /\
       Extension.statusBarItem final =
         if Rendering.draws snapshot then Extension.QuotaShown snapshot
         else Extension.ErrorShown "Fetch failed"
   | Throw _ =>
       Extension.statusBarItem final = Extension.ErrorShown "Fetch failed" /\
       Extension.lastSnapshot final =
         match r with
         | Ok snapshot => Some snapshot
         | Throw _ => Extension.lastSnapshot st
         end
   end).
Proof.
  intros Hinfo Hfetch Hfail Hfind final log3.
  assert (D2 : detections log2 = (detections log + 1)%nat).
  { pose proof (findAntigravityProcess_detects_once ws w log1) as D.
    rewrite Hfind in D. simpl in D. rewrite D.
    destruct (fetchQuota_log (ProcessFinder.port info)
                (ProcessFinder.csrfToken info) w log) as (reqs & E & F & _).
    rewrite Hfetch in E. simpl in E. subst log1.
    rewrite detections_app,
      (detections_status_calls _ _ _ F). lia. }
  subst final log3.
  rewrite rendering_run, Hinfo, Hfetch, (tryShow_fails r st Hfail), Hfind.
  cbv zeta.
  set (st1 := match r with
              | Ok snapshot => Extension.setLastSnapshot snapshot st
              | Throw _ => st
              end).
  assert (L1 : Extension.lastSnapshot st1 =
               match r with
               | Ok snapshot => Some snapshot
               | Throw _ => Extension.lastSnapshot st
               end) by (unfold st1; now destruct r).
  clearbody st1.
  destruct found as [info'|].
  - destruct (fetchQuota_log (ProcessFinder.port info')
                (ProcessFinder.csrfToken info') w log2) as (reqs & E & F & L).
    destruct (Fetcher.fetchQuota _ _ w log2) as [r' l3] eqn:Eretry.
    simpl in E. subst l3.
    destruct (Rendering.tryShow r' _) as [st3 d] eqn:T3.
    pose proof (tryShow_processInfo _ _ _ _ T3) as P3. simpl in P3 |- *.
    split.
    { rewrite detections_app, (detections_status_calls _ _ _ F), D2. lia. }
    split; [now destruct d|].
    split; [discriminate|].
    intros info'' Einfo. injection Einfo as <-. rewrite Eretry. simpl.
    split; [reflexivity|]. split; [eauto|].
    unfold Rendering.tryShow in T3.
    destruct r' as [snapshot|e'].
    + destruct (Rendering.draws snapshot);
        injection T3 as <- <-; simpl; auto.
    + injection T3 as <- <-. simpl. auto.
  - simpl. split; [exact D2|]. split; [reflexivity|].
    split; [auto | discriminate].
Qed.

End PollCycle.

(** C7 on the sample machine: the stored connection points to a port
    where nothing listens any more; the cycle queries the process table
    once and ends with the connection found by the locator. *)
Lemma refreshQuota_redetects_once_witness :
  let w := Sample.world Sample.processLine https Sample.data in
  let st := {| Extension.statusBarItem := Extension.Loading;
               Extension.processInfo :=
                 Some {| ProcessFinder.port := 42000;
                         ProcessFinder.csrfToken := "0a0a-stale" |};
               Extension.lastSnapshot := None |} in
  let cycle := Rendering.refreshQuota (H := Sample.runtime) None st w [] in
  detections (snd cycle) = 1%nat /\
  Extension.processInfo (fst cycle) =
    Some {| ProcessFinder.port := 42101;
            ProcessFinder.csrfToken := "6f1c-ab90" |}.
Proof.
  intros w st cycle.
  edestruct (@refreshQuota_redetects_once Sample.runtime None st
               {| ProcessFinder.port := 42000;
                  ProcessFinder.csrfToken := "0a0a-stale" |} w [])
    as (A & B & _).
  - reflexivity.
  - vm_compute. reflexivity.
  - discriminate.
  - vm_compute. reflexivity.
  - split; [exact A | exact B].
Defined.

(** ** The token of the matched process *)

Section TokenOfProcess.

Import ProcessFinder.

(** On Unix a process is answered exactly when some line of the listing
    contains the port flag; the token plays no part. *)
Lemma parseUnix_answers (stdout : string) (ws : option string) :
  parseUnix stdout ws = None <->
  filter (fun l => Js.includes l "--extension_server_port")
         (Js.splitChar "010"%char stdout) = [].
Proof.
  unfold parseUnix.
  destruct (filter _ (Js.splitChar "010"%char stdout)) as [|l lines].
  - simpl. destruct (match ws with Some (String _ _) => _ | _ => None end);
      split; reflexivity.
  - destruct (match ws with Some (String _ _) => _ | _ => None end) as [wsId|].
    + destruct (find _ (l :: lines)); split; discriminate.
    + split; discriminate.
Qed.

(** The token it answers is the capture of the token pattern, or the
    empty string when the pattern does not match. *)
Lemma parseUnix_token (stdout : string) (ws : option string)
    (parsed : ParsedProcess) :
  parseUnix stdout ws = Some parsed ->
  exists cmd,
    parsed_csrfToken parsed =
      match matchToken cmd with Some t => t | None => "" end /\
    extensionPort parsed = hintedPort (matchPort cmd).
Proof.
  unfold parseUnix.
  destruct (match _ with Some l => Some l | None => hd_error _ end)
    as [target|]; [|discriminate].
  intros E. injection E as <-. simpl. eauto.
Qed.

(** On Windows a process without a token is rejected, and one without a
    hinted port is answered with port 0. *)
Lemma parseWindows_single `{JsRuntime} (stdout : string) (d : WinProcess)
    (p : Z) :
  JSON_parse_processes (Js.trim stdout) = Some (WinSingle d) ->
  ProcessId d = Some p -> p <> 0 ->
  let cmdLine := Js.orElse (CommandLine d) "" in
  parseWindows stdout =
    match matchTokenWindows cmdLine with
    | None => None
    | Some token =>
        Some {| pid := Some p;
                extensionPort := hintedPort (matchPort cmdLine);
                parsed_csrfToken := token |}
    end.
Proof.
  intros Hjson Hpid Hnz cmdLine. unfold parseWindows.
  rewrite Hjson, Hpid.
  destruct (p =? 0) eqn:E; [apply Z.eqb_eq in E; contradiction|].
  reflexivity.
Qed.

Lemma parseWindows_requires_token `{JsRuntime} (stdout : string)
    (parsed : ParsedProcess) :
  parseWindows stdout = Some parsed ->
  exists cmdLine,
    matchTokenWindows cmdLine = Some (parsed_csrfToken parsed).
Proof.
  unfold parseWindows.
  destruct (JSON_parse_processes _) as [listing|]; [|discriminate].
  destruct (match listing with WinArray _ => _ | WinSingle _ => _ end)
    as [data|]; [|discriminate].
  destruct (ProcessId data) as [p|]; [|discriminate].
  destruct (p =? 0); [discriminate|].
  destruct (matchTokenWindows _) as [token|] eqn:E; [|discriminate].
  intros H'. injection H' as <-. simpl. eauto.
Qed.

End TokenOfProcess.

(** C6 fails on the Unix path.  For a language server whose command
    line carries the port flag and no token, [parseUnix] answers a
    process with the empty string as its token, where [parseWindows]
    answers nothing; the locator goes on to probe with the empty token
    and, the server answering, returns a connection instead of the
    not-found result. *)
Theorem parseUnix_keeps_process_without_token :
  ProcessFinder.matchToken Sample.processLineNoToken = None /\
  ProcessFinder.parseUnix Sample.processLineNoToken None =
    Some {| ProcessFinder.pid := Some 1234;
            ProcessFinder.extensionPort := 42100;
            ProcessFinder.parsed_csrfToken := "" |} /\
  fst (ProcessFinder.findAntigravityProcess (H := Sample.runtime) None
         (Sample.world Sample.processLineNoToken https Sample.data) []) =
    Some {| ProcessFinder.port := 42101; ProcessFinder.csrfToken := "" |}.
Proof. repeat split; vm_compute; reflexivity. Qed.

(** ** One scheme for the probe, two for the status call *)

(** The probe is a single request over HTTPS, whatever it is answered. *)
Lemma testPort_single_https_request (p : Z) (tok : string) (w : World)
    (log : Log) :
  exists r,
    snd (ProcessFinder.testPort p tok w log) = (log ++ [EvRequest r])%list /\
    req_scheme r = https /\ req_port r = p /\ req_csrfToken r = tok.
Proof.
  exists (ProcessFinder.probeOptions p tok). rewrite testPort_run.
  simpl. auto.
Qed.

(** C8 fails for the probe.  On a machine whose language server answers
    over HTTP only, the status call succeeds through its first scheme,
    but the probe of the same port, sent over HTTPS and not retried over
    HTTP, fails, and the locator reports that no process was found. *)
Theorem probe_is_not_retried_over_http :
  let w := Sample.world Sample.processLine http Sample.data in
  ProcessFinder.testPort 42101 "6f1c-ab90" w [] =
    (false, [EvRequest (ProcessFinder.probeOptions 42101 "6f1c-ab90")]) /\
  req_scheme (ProcessFinder.probeOptions 42101 "6f1c-ab90") = https /\
  fst (ProcessFinder.findAntigravityProcess (H := Sample.runtime) None w [])
    = None /\
  Fetcher.postWithFallback 42101 "6f1c-ab90" Fetcher.statusPath w [] =
    (Ok Sample.data,
     [EvRequest (Fetcher.postOptions 42101 "6f1c-ab90" Fetcher.statusPath
                   http)]).
Proof. repeat split; vm_compute; reflexivity. Qed.

(* ================================================================== *)
(** * Part III.  Further properties of the sources                     *)
(* ================================================================== *)

(** ** Order of the pools *)

Section PoolOrder.

Local Open Scope list_scope.

Import QuotaFetcher.

Lemma Math_min_spec (x : Z) (rest : list Z) :
  In (Math_min (x :: rest)) (x :: rest) /\
  forall y, In y (x :: rest) -> Math_min (x :: rest) <= y.
Proof.
  simpl. revert x. induction rest as [|z rest IH]; intros x; simpl.
  - split; [now left | intros y [<-|[]]; lia].
  - destruct (IH (Z.min x z)) as [Hin Hle]. split.
    + destruct Hin as [E|Hin]; [|now right; right].
      rewrite <- E. destruct (Z.min_spec x z) as [[_ ->]|[_ ->]]; auto.
    + intros y [<-|[<-|Hy]].
      * specialize (Hle (Z.min x z) (or_introl eq_refl)). lia.
      * specialize (Hle (Z.min x z) (or_introl eq_refl)). lia.
      * apply Hle. now right.
Qed.

Lemma insertBucket_sorted (a : list ModelQuota) (l : list (list ModelQuota)) :
  StronglySorted (fun x y => bucketRank x <= bucketRank y) l ->
  StronglySorted (fun x y => bucketRank x <= bucketRank y) (insertBucket a l).
Proof.
  induction l as [|b l IH]; intros S; simpl.
  - constructor; constructor.
  - inversion S as [|? ? S' F]; subst.
    destruct (bucketRank b <? bucketRank a) eqn:E.
    + apply Z.ltb_lt in E. constructor; [now apply IH|].
      apply Forall_forall. intros x Hx.
      apply (Permutation_in _ (insertBucket_perm a l)) in Hx.
      destruct Hx as [<-|Hx]; [lia|].
      rewrite Forall_forall in F. now apply F.
    + apply Z.ltb_ge in E. constructor; [assumption|].
      constructor; [assumption|].
      rewrite Forall_forall in F |- *. intros x Hx.
      specialize (F x Hx). simpl in F. lia.
Qed.

Lemma sortBuckets_sorted (l : list (list ModelQuota)) :
  StronglySorted (fun x y => bucketRank x <= bucketRank y) (sortBuckets l).
Proof.
  induction l as [|a l IH]; simpl; [constructor|].
  now apply insertBucket_sorted.
Qed.

Lemma insertBucket_filter (r : Z) (a : list ModelQuota)
    (l : list (list ModelQuota)) :
  filter (fun x => bucketRank x =? r) (insertBucket a l) =
    if bucketRank a =? r
    then a :: filter (fun x => bucketRank x =? r) l
    else filter (fun x => bucketRank x =? r) l.
Proof.
  induction l as [|b l IH]; simpl; [reflexivity|].
  destruct (bucketRank b <? bucketRank a) eqn:E; simpl.
  - apply Z.ltb_lt in E. rewrite IH.
    destruct (bucketRank a =? r) eqn:Ea; [|reflexivity].
    apply Z.eqb_eq in Ea.
    destruct (bucketRank b =? r) eqn:Eb; [|reflexivity].
    apply Z.eqb_eq in Eb. lia.
  - reflexivity.
Qed.

Lemma sortBuckets_stable (r : Z) (l : list (list ModelQuota)) :
  filter (fun x => bucketRank x =? r) (sortBuckets l) =
  filter (fun x => bucketRank x =? r) l.
Proof.
  induction l as [|a l IH]; simpl; [reflexivity|].
  rewrite insertBucket_filter, IH. reflexivity.
Qed.

End PoolOrder.

Lemma keys_set {V : Type} (key : string) (v : V) (b : JsMap.t string V) :
  JsMap.keys (JsMap.set String.eqb key v b) = pushKey (JsMap.keys b) key.
Proof.
  unfold pushKey, JsMap.keys.
  induction b as [|[k v0] b IH]; simpl; [reflexivity|].
  destruct (String.eqb k key) eqn:E; simpl; [reflexivity|].
  rewrite IH. now destruct (existsb _ (map fst b)).
Qed.

(** The keys of the bucket map are the keys of the models, each at the
    place of its first occurrence. *)
Lemma fillBuckets_keys `{JsRuntime} (ms : list QuotaFetcher.ModelQuota) :
  forall b b',
    QuotaFetcher.fillBuckets ms b = Ok b' ->
    exists ks,
      map QuotaFetcher.bucketKey ms = map Ok ks /\
      JsMap.keys b' = fold_left pushKey ks (JsMap.keys b).
Proof.
  induction ms as [|m ms IH]; intros b b' E; simpl in E.
  - injection E as <-. exists []. split; reflexivity.
  - destruct (QuotaFetcher.bucketKey m) as [key|e] eqn:Ek; [|discriminate].
    destruct (IH _ _ E) as (ks & E1 & E2).
    exists (key :: ks). split; [simpl; now rewrite Ek, E1|].
    rewrite E2. unfold JsMap.pushTo. now rewrite keys_set.
Qed.

Lemma buckets_keyed `{JsRuntime} (b : QuotaFetcher.BucketMap) :
  bucketsWF b ->
  Forall2 (fun members k =>
             Forall (fun m => QuotaFetcher.bucketKey m = Ok k) members)
          (JsMap.values b) (JsMap.keys b).
Proof.
  intros [_ Mem]. induction b as [|[k l] b IH]; [constructor|].
  constructor.
  - apply (Mem k l). now left.
  - apply IH. intros k' l' Hin. apply Mem. now right.
Qed.

Lemma Forall2_filter_Subseq {A B : Type} (R : A -> B -> Prop)
    (f : A -> bool) (l : list A) (ks : list B) :
  Forall2 R l ks ->
  exists ks', Forall2 R (filter f l) ks' /\ Subseq ks' ks.
Proof.
  induction 1 as [|x y l ks Hxy _ (ks' & F & S)]; simpl.
  - exists []. split; constructor.
  - destruct (f x).
    + exists (y :: ks'). split; constructor; assumption.
    + exists ks'. split; [assumption | now constructor].
Qed.

(** X1: the pools of a snapshot are in ascending order of rank, the rank
    of a pool being the least index, in the sequence gemini,
    gemini_flash, claude, gpt, other, of the families of its members;
    pools of equal rank stand in the order in which their grouping keys
    first occur among the models of the snapshot, which is the order in
    which the Map created their buckets. *)
Theorem pools_ordered_by_family_rank `{JsRuntime} (now : Z)
    (data : Wire.ServerResponse) (snap : QuotaFetcher.QuotaSnapshot) :
  QuotaFetcher.parseResponse now data = Ok snap ->
  StronglySorted
    (fun x y => QuotaFetcher.bucketRank x <= QuotaFetcher.bucketRank y)
    (map QuotaFetcher.models (QuotaFetcher.pools snap)) /\
  (forall p, In p (QuotaFetcher.pools snap) ->
     (exists m, In m (QuotaFetcher.models p) /\
                QuotaFetcher.familyIndex (QuotaFetcher.family m)
                = QuotaFetcher.bucketRank (QuotaFetcher.models p)) /\
     (forall m, In m (QuotaFetcher.models p) ->
                QuotaFetcher.bucketRank (QuotaFetcher.models p)
                <= QuotaFetcher.familyIndex (QuotaFetcher.family m))) /\
  (exists ks,
     map QuotaFetcher.bucketKey (QuotaFetcher.snapshot_models snap)
       = map Ok ks /\
     forall r, exists pks,
       Forall2 (fun members k =>
                  Forall (fun m => QuotaFetcher.bucketKey m = Ok k) members)
               (filter (fun x => QuotaFetcher.bucketRank x =? r)
                       (map QuotaFetcher.models (QuotaFetcher.pools snap)))
               pks /\
       Subseq pks (firstOccurrences ks)).
Proof.
  intros Hok.
  destruct (parseResponse_ok _ _ _ Hok) as (b & Eb & Ep & _).
  destruct (makePools_ok _ _ Ep) as [Emap _].
  destruct (snapshot_shape _ _ _ Hok) as (b' & [_ Mem] & _ & PermP & _).
  split; [rewrite Emap; apply sortBuckets_sorted|].
  split.
  2:{ destruct (parseResponse_ok _ _ _ Hok) as (_ & _ & _ & Em).
      destruct (fillBuckets_keys _ _ _ Eb) as (ks & Ek & Eks).
      destruct (fillBuckets_ok _ _ _ Eb) as (WF & _).
      specialize (WF bucketsWF_nil).
      exists ks. split; [now rewrite Em|].
      intros r. rewrite Emap, sortBuckets_stable.
      unfold firstOccurrences. simpl in Eks. rewrite <- Eks.
      apply Forall2_filter_Subseq. now apply buckets_keyed. }
  intros p Hp.
  assert (Hne : QuotaFetcher.models p <> []).
  { assert (Hv : In (QuotaFetcher.models p) (JsMap.values b')).
    { apply (Permutation_in _ PermP). now apply in_map. }
    apply values_In in Hv as [k Hk]. now apply Mem in Hk. }
  unfold QuotaFetcher.bucketRank.
  destruct (QuotaFetcher.models p) as [|m0 rest]; [congruence|].
  cbn [map].
  destruct (Math_min_spec
              (QuotaFetcher.familyIndex (QuotaFetcher.family m0))
              (map (fun m => QuotaFetcher.familyIndex (QuotaFetcher.family m))
                   rest)) as [Hin Hle].
  split.
  - change (In (QuotaFetcher.Math_min
                  (map (fun m => QuotaFetcher.familyIndex
                                   (QuotaFetcher.family m)) (m0 :: rest)))
               (map (fun m => QuotaFetcher.familyIndex
                                (QuotaFetcher.family m)) (m0 :: rest)))
      in Hin.
    apply in_map_iff in Hin as (m & E & Hm). eauto.
  - intros m Hm. apply Hle.
    change (In (QuotaFetcher.familyIndex (QuotaFetcher.family m))
               (map (fun m => QuotaFetcher.familyIndex
                                (QuotaFetcher.family m)) (m0 :: rest))).
    exact (in_map (fun m => QuotaFetcher.familyIndex (QuotaFetcher.family m))
                  _ _ Hm).
Qed.

Lemma pools_ordered_by_family_rank_witness :
  exists snap,
    QuotaFetcher.parseResponse (H := Sample.runtime) Sample.clock0 Sample.data
      = Ok snap /\
    StronglySorted
      (fun x y => QuotaFetcher.bucketRank x <= QuotaFetcher.bucketRank y)
      (map QuotaFetcher.models (QuotaFetcher.pools snap)).
Proof.
  eexists. split; [vm_compute; reflexivity|].
  apply (@pools_ordered_by_family_rank Sample.runtime Sample.clock0
           Sample.data).
  reflexivity.
Defined.

(** ** The representative of a pool *)

Lemma Qltb_true (a b : Q) : QuotaFetcher.Qltb a b = true <-> (a < b)%Q.
Proof.
  unfold QuotaFetcher.Qltb. rewrite Qlt_alt.
  destruct (a ?= b)%Q; split; congruence.
Qed.

Lemma Qltb_false (a b : Q) : QuotaFetcher.Qltb a b = false <-> (b <= a)%Q.
Proof.
  split.
  - intros E. apply Qnot_lt_le. intros C. apply Qltb_true in C. congruence.
  - intros Hle. destruct (QuotaFetcher.Qltb a b) eqn:E; [|reflexivity].
    apply Qltb_true in E. exfalso. now apply (Qlt_not_le _ _ E).
Qed.

(** The reduction [(a, b) => pct(a) < pct(b) ? a : b] ends on an element
    of the list whose percentage is the least. *)
Lemma reduce_lowest {A : Type} (pct : A -> Q) (rest : list A) :
  forall m : A,
    let r := fold_left
               (fun a b => if QuotaFetcher.Qltb (pct a) (pct b) then a else b)
               rest m in
    In r (m :: rest) /\ forall x, In x (m :: rest) -> (pct r <= pct x)%Q.
Proof.
  induction rest as [|b rest IH]; intros m; simpl.
  - split; [now left | intros x [<-|[]]; apply Qle_refl].
  - destruct (IH (if QuotaFetcher.Qltb (pct m) (pct b) then m else b))
      as [Hin Hle].
    cbv zeta in Hin, Hle.
    set (r := fold_left _ rest _) in *.
    assert (Hacc : (pct r <= pct m)%Q /\ (pct r <= pct b)%Q).
    { pose proof (Hle _ (or_introl eq_refl)) as H0.
      destruct (QuotaFetcher.Qltb (pct m) (pct b)) eqn:E.
      - apply Qltb_true in E. split; [assumption|].
        apply Qle_trans with (pct m); [assumption | now apply Qlt_le_weak].
      - apply Qltb_false in E. split; [|assumption].
        now apply Qle_trans with (pct b). }
    split.
    + destruct Hin as [E|Hin]; [|now right; right].
      rewrite <- E.
      destruct (QuotaFetcher.Qltb (pct m) (pct b)); auto.
    + intros x [<-|[<-|Hx]]; try tauto. apply Hle. now right.
Qed.

(** X2: in the earlier revision the values shown for a pool are those
    of one of its members, and no member has a lower remaining
    percentage than the one shown. *)
Theorem legacy_pool_shows_lowest_member `{JsRuntime} (now : Z)
    (data : Wire.ServerResponse) (snap : Legacy.QuotaSnapshot)
    (p : Legacy.QuotaPool) :
  Legacy.parseResponse now data = Ok snap ->
  In p (Legacy.pools snap) ->
  (exists rep,
     In rep (Legacy.models p) /\
     Legacy.pool_remainingPct p = Legacy.remainingPct rep /\
     Legacy.pool_isExhausted p = Legacy.isExhausted rep /\
     Legacy.pool_resetTime p = Legacy.resetTime rep /\
     Legacy.pool_timeUntilReset p = Legacy.timeUntilReset rep) /\
  (forall m, In m (Legacy.models p) ->
             (Legacy.pool_remainingPct p <= Legacy.remainingPct m)%Q) /\
  Legacy.displayName p = Legacy.POOL_DISPLAY_NAMES (Legacy.id p).
Proof.
  intros Hok Hp.
  destruct (legacy_snapshot_shape now data) as (snap' & b & E & _ & _ & _ & F).
  assert (snap' = snap) by congruence. subst snap'.
  destruct (F p Hp) as [_ Emk]. unfold Legacy.makePool in Emk.
  destruct (Legacy.models p) as [|m0 rest] eqn:Em; [discriminate|].
  simpl in Emk.
  destruct (reduce_lowest Legacy.remainingPct rest m0) as [Hin Hle].
  cbv zeta in Hin, Hle.
  set (rep := fold_left _ rest m0) in *.
  injection Emk as Emk.
  assert (Fields : Legacy.pool_remainingPct p = Legacy.remainingPct rep /\
                   Legacy.pool_isExhausted p = Legacy.isExhausted rep /\
                   Legacy.pool_resetTime p = Legacy.resetTime rep /\
                   Legacy.pool_timeUntilReset p = Legacy.timeUntilReset rep /\
                   Legacy.displayName p
                   = Legacy.POOL_DISPLAY_NAMES (Legacy.id p))
    by (rewrite <- Emk; simpl; auto).
  destruct Fields as (F1 & F2 & F3 & F4 & F5).
  split; [exists rep; auto|].
  split; [|exact F5].
  intros m Hm. rewrite F1. now apply Hle.
Qed.

Lemma legacy_pool_shows_lowest_member_witness :
  exists snap p,
    Legacy.parseResponse (H := Sample.runtime) Sample.clock0 Sample.data
      = Ok snap /\
    In p (Legacy.pools snap) /\
    forall m, In m (Legacy.models p) ->
              (Legacy.pool_remainingPct p <= Legacy.remainingPct m)%Q.
Proof.
  eexists. eexists. split; [vm_compute; reflexivity|].
  split; [left; reflexivity|].
  apply (@legacy_pool_shows_lowest_member Sample.runtime Sample.clock0
           Sample.data _ _ eq_refl).
  left. reflexivity.
Defined.

(** ** Pools of the dynamic classifier *)

Lemma makePool_fields (members : list QuotaFetcher.ModelQuota)
    (p : QuotaFetcher.QuotaPool) :
  QuotaFetcher.makePool members = Ok p ->
  (QuotaFetcher.id p, QuotaFetcher.displayName p)
    = QuotaFetcher.derivePoolName members /\
  exists rep,
    In rep members /\
    QuotaFetcher.pool_remainingPct p = QuotaFetcher.remainingPct rep /\
    QuotaFetcher.pool_isExhausted p = QuotaFetcher.isExhausted rep /\
    QuotaFetcher.pool_resetTime p = QuotaFetcher.resetTime rep /\
    QuotaFetcher.pool_timeUntilReset p = QuotaFetcher.timeUntilReset rep.
Proof.
  unfold QuotaFetcher.makePool.
  destruct (QuotaFetcher.derivePoolName members) as [i n].
  destruct members as [|m0 rest]; [discriminate|]. simpl.
  destruct (reduce_lowest QuotaFetcher.remainingPct rest m0) as [Hin _].
  cbv zeta in Hin. intros E. injection E as <-. simpl.
  split; [reflexivity|]. eexists. split; [exact Hin|]. auto.
Qed.

(** X3: every member of a pool of the dynamic classifier carries exactly
    the percentage, exhaustion flag and reset time that the pool shows;
    the countdown that the pool shows is the one of one of its
    members. *)
Theorem pool_shows_every_member {RT : JsRuntime} (Laws : RuntimeLaws RT)
    (now : Z) (data : Wire.ServerResponse)
    (snap : QuotaFetcher.QuotaSnapshot)
    (p : QuotaFetcher.QuotaPool) (m : QuotaFetcher.ModelQuota) :
  QuotaFetcher.parseResponse now data = Ok snap ->
  In p (QuotaFetcher.pools snap) ->
  In m (QuotaFetcher.models p) ->
  QuotaFetcher.pool_remainingPct p = QuotaFetcher.remainingPct m /\
  QuotaFetcher.pool_isExhausted p = QuotaFetcher.isExhausted m /\
  QuotaFetcher.pool_resetTime p = QuotaFetcher.resetTime m /\
  exists rep,
    In rep (QuotaFetcher.models p) /\
    QuotaFetcher.pool_timeUntilReset p = QuotaFetcher.timeUntilReset rep.
Proof.
  intros Hok Hp Hm.
  destruct (snapshot_shape _ _ _ Hok) as (b & _ & _ & _ & Hmk & _).
  destruct (makePool_fields _ _ (Hmk p Hp))
    as (_ & rep & Hrep & F1 & F2 & F3 & F4).
  rewrite F1, F2, F3. clear F1 F2 F3.
  pose proof (pool_member_is_model now data snap p rep Hok Hp Hrep) as Mrep.
  pose proof (pool_member_is_model now data snap p m Hok Hp Hm) as Mm.
  assert (Same : samePool snap rep m) by (exists p; auto).
  apply (samePool_iff_pair now data snap rep m Hok Mrep Mm) in Same
    as [Epct Etime].
  destruct (parseResponse_ok _ _ _ Hok) as (_ & _ & _ & Em).
  rewrite Em in Mrep, Mm.
  apply parseModels_In in Mrep as (e1 & q1 & _ & _ & ->).
  apply parseModels_In in Mm as (e2 & q2 & _ & _ & ->).
  unfold QuotaFetcher.parseModel in *.
  cbn [QuotaFetcher.remainingPct QuotaFetcher.resetTime
       QuotaFetcher.isExhausted QuotaFetcher.timeUntilReset] in *.
  apply percentage_eq_iff in Epct as Ef.
  split; [exact Epct|]. split; [now rewrite Ef|].
  split; [exact Etime|].
  eexists. split; [exact Hrep | exact F4].
Qed.

Lemma pool_shows_every_member_witness :
  exists snap p m,
    QuotaFetcher.parseResponse (H := Sample.runtime) Sample.clock0 Sample.data
      = Ok snap /\
    In p (QuotaFetcher.pools snap) /\ In m (QuotaFetcher.models p) /\
    QuotaFetcher.pool_remainingPct p = QuotaFetcher.remainingPct m.
Proof.
  eexists. eexists. eexists. split; [vm_compute; reflexivity|].
  split; [left; reflexivity|]. split; [right; left; reflexivity|].
  apply (@pool_shows_every_member Sample.runtime sample_runtime_laws
           Sample.clock0 Sample.data _ _ _ eq_refl).
  - left. reflexivity.
  - right. left. reflexivity.
Defined.

Lemma reset_times_valid_or_not (ms : list QuotaFetcher.ModelQuota) :
  Forall (fun m => QuotaFetcher.resetTime m <> None) ms \/
  Exists (fun m => QuotaFetcher.resetTime m = None) ms.
Proof.
  induction ms as [|m ms [IH|IH]].
  - left. constructor.
  - destruct (QuotaFetcher.resetTime m) eqn:E.
    + left. constructor; [congruence | assumption].
    + right. now constructor.
  - right. now constructor 2.
Qed.

(** X4: the dynamic [parseResponse] returns a snapshot exactly when
    every entry that carries quota information has a valid reset time;
    otherwise it throws the RangeError of [toISOString], and it throws
    nothing else: the reduction over the members of a pool never meets
    an empty array. *)
Theorem parseResponse_outcome `{JsRuntime} (now : Z)
    (data : Wire.ServerResponse) :
  let entries := rawModels (Wire.userStatus data) in
  ((forall e qi, In e entries -> Wire.quotaInfo e = Some qi ->
                 newDate (Wire.resetTime qi) <> None) <->
   exists snap, QuotaFetcher.parseResponse now data = Ok snap) /\
  ((exists e qi, In e entries /\ Wire.quotaInfo e = Some qi /\
                 newDate (Wire.resetTime qi) = None) <->
   QuotaFetcher.parseResponse now data = Throw RangeError_InvalidTime) /\
  (forall err, QuotaFetcher.parseResponse now data = Throw err ->
               err = RangeError_InvalidTime).
Proof.
  intros entries.
  set (ms := QuotaFetcher.parseModels now entries).
  assert (Valid : (forall e qi, In e entries -> Wire.quotaInfo e = Some qi ->
                                newDate (Wire.resetTime qi) <> None) <->
                  Forall (fun m => QuotaFetcher.resetTime m <> None) ms).
  { rewrite Forall_forall. split.
    - intros Hall m Hm. apply parseModels_In in Hm as (e & qi & He & Hq & ->).
      exact (Hall e qi He Hq).
    - intros Hall e qi He Hq.
      apply (Hall (QuotaFetcher.parseModel now e qi)).
      apply parseModels_In. eauto. }
  assert (Invalid : (exists e qi, In e entries /\ Wire.quotaInfo e = Some qi /\
                                  newDate (Wire.resetTime qi) = None) <->
                    Exists (fun m => QuotaFetcher.resetTime m = None) ms).
  { rewrite Exists_exists. split.
    - intros (e & qi & He & Hq & Hd).
      exists (QuotaFetcher.parseModel now e qi).
      split; [apply parseModels_In; eauto | exact Hd].
    - intros (m & Hm & Hd).
      apply parseModels_In in Hm as (e & qi & He & Hq & ->). eauto. }
  assert (Ok_valid : forall snap, QuotaFetcher.parseResponse now data = Ok snap ->
                                  Forall (fun m => QuotaFetcher.resetTime m
                                                   <> None) ms).
  { intros snap Hok.
    destruct (parseResponse_ok _ _ _ Hok) as (b & Eb & _).
    now destruct (fillBuckets_ok _ _ _ Eb) as (_ & _ & V). }
  assert (Throws : Exists (fun m => QuotaFetcher.resetTime m = None) ms ->
                   QuotaFetcher.parseResponse now data
                   = Throw RangeError_InvalidTime).
  { intros Hex. unfold QuotaFetcher.parseResponse.
    fold entries. fold ms. now rewrite fillBuckets_throws. }
  pose proof (reset_times_valid_or_not ms) as Dec.
  split; [|split].
  - rewrite Valid. split.
    + apply parseResponse_total.
    + intros [snap Hok]. eauto.
  - rewrite Invalid. split; [exact Throws|].
    intros Hthrow. destruct Dec as [V|E]; [|exact E].
    destruct (parseResponse_total now data V) as [snap Hok]. congruence.
  - intros err Hthrow. destruct Dec as [V|E].
    + destruct (parseResponse_total now data V) as [snap Hok]. congruence.
    + rewrite (Throws E) in Hthrow. congruence.
Qed.

Section PoolShape.

Local Open Scope list_scope.

Lemma concat_length_ge {A : Type} (ls : list (list A)) :
  Forall (fun l => l <> []) ls ->
  (List.length ls <= List.length (List.concat ls))%nat.
Proof.
  induction 1 as [|l ls Hne _ IH]; simpl; [lia|].
  rewrite length_app. destruct l; [contradiction|]. simpl. lia.
Qed.

Lemma values_NoDup `{JsRuntime} (b : QuotaFetcher.BucketMap) :
  bucketsWF b -> NoDup (JsMap.values b).
Proof.
  intros [ND Mem]. induction b as [|[k0 l0] b IH]; simpl; [constructor|].
  inversion ND as [|? ? Hnotin ND']; subst.
  constructor.
  - intros Hin. apply values_In in Hin as [k Hk].
    destruct (Mem k0 l0 (or_introl eq_refl)) as [Hne F0].
    destruct (Mem k l0 (or_intror Hk)) as [_ F1].
    destruct l0 as [|x l0]; [contradiction|].
    inversion F0; inversion F1; subst.
    assert (k = k0) by congruence. subst k.
    apply Hnotin. change k0 with (fst (k0, x :: l0)). now apply in_map.
  - apply IH; [assumption|]. intros k l Hin. apply Mem. now right.
Qed.

End PoolShape.

(** X5: in a snapshot no pool is empty, no pool occurs twice, there are
    at most as many pools as models, and there is no pool exactly when
    there is no model. *)
Theorem pools_nonempty_and_distinct `{JsRuntime} (now : Z)
    (data : Wire.ServerResponse) (snap : QuotaFetcher.QuotaSnapshot) :
  QuotaFetcher.parseResponse now data = Ok snap ->
  (forall p, In p (QuotaFetcher.pools snap) -> QuotaFetcher.models p <> []) /\
  NoDup (QuotaFetcher.pools snap) /\
  (List.length (QuotaFetcher.pools snap)
   <= List.length (QuotaFetcher.snapshot_models snap))%nat /\
  (QuotaFetcher.pools snap = [] <-> QuotaFetcher.snapshot_models snap = []).
Proof.
  intros Hok.
  destruct (snapshot_shape _ _ _ Hok) as (b & WF & Perm & PermP & _).
  assert (Hne : Forall (fun l => l <> [])
                       (map QuotaFetcher.models (QuotaFetcher.pools snap))).
  { apply Forall_forall. intros l Hl.
    apply (Permutation_in _ PermP) in Hl.
    apply values_In in Hl as [k Hk]. destruct WF as [_ Mem].
    now apply Mem in Hk. }
  assert (PermC : Permutation
            (List.concat (map QuotaFetcher.models (QuotaFetcher.pools snap)))
            (QuotaFetcher.snapshot_models snap)).
  { rewrite <- Perm. now apply concat_perm. }
  split; [|split; [|split]].
  - intros p Hp. rewrite Forall_forall in Hne. apply Hne. now apply in_map.
  - apply (NoDup_map_inv QuotaFetcher.models).
    apply (Permutation_NoDup (Permutation_sym PermP)).
    now apply values_NoDup.
  - rewrite <- (Permutation_length PermC).
    rewrite <- (length_map QuotaFetcher.models).
    now apply concat_length_ge.
  - split.
    + intros E. rewrite E in PermC. simpl in PermC.
      now apply Permutation_nil in PermC.
    + intros E. rewrite E in PermC.
      apply Permutation_sym, Permutation_nil in PermC.
      pose proof (concat_length_ge _ Hne) as L. rewrite PermC in L.
      rewrite length_map in L. simpl in L.
      destruct (QuotaFetcher.pools snap); [reflexivity | simpl in L; lia].
Qed.

Lemma pools_nonempty_and_distinct_witness :
  exists snap,
    QuotaFetcher.parseResponse (H := Sample.runtime) Sample.clock0 Sample.data
      = Ok snap /\
    NoDup (QuotaFetcher.pools snap).
Proof.
  eexists. split; [vm_compute; reflexivity|].
  apply (@pools_nonempty_and_distinct Sample.runtime Sample.clock0
           Sample.data).
  reflexivity.
Defined.

(** ** The flat list of models *)

Lemma parseModels_filter `{JsRuntime} (now : Z)
    (raw : list Wire.ClientModelConfig) :
  map QuotaFetcher.label (QuotaFetcher.parseModels now raw) =
    map (fun e => Js.orElse (Wire.label e) "Unknown")
        (filter hasQuotaInfo raw).
Proof.
  induction raw as [|e raw IH]; simpl; [reflexivity|].
  unfold hasQuotaInfo at 1.
  destruct (Wire.quotaInfo e); simpl; now rewrite IH.
Qed.

(** X6: the flat list of models follows the order of the payload and
    leaves out exactly the entries without quotaInfo; a payload none of
    whose entries carries quotaInfo, or without model data at all, gives
    a snapshot with no model and no pool. *)
Theorem models_follow_payload_order `{JsRuntime} (now : Z)
    (data : Wire.ServerResponse) :
  let entries := rawModels (Wire.userStatus data) in
  (forall snap, QuotaFetcher.parseResponse now data = Ok snap ->
     map QuotaFetcher.label (QuotaFetcher.snapshot_models snap) =
       map (fun e => Js.orElse (Wire.label e) "Unknown")
           (filter hasQuotaInfo entries)) /\
  (Wire.cascadeModelConfigData (Wire.userStatus data) = None ->
   entries = []) /\
  (filter hasQuotaInfo entries = [] ->
   QuotaFetcher.parseResponse now data =
     Ok {| QuotaFetcher.credits :=
             QuotaFetcher.parseCredits (Wire.userStatus data);
           QuotaFetcher.pools := [];
           QuotaFetcher.snapshot_models := [];
           QuotaFetcher.timestamp := now |}).
Proof.
  intros entries. split; [|split].
  - intros snap Hok. destruct (parseResponse_ok _ _ _ Hok) as (_ & _ & _ & ->).
    apply parseModels_filter.
  - intros E. unfold entries, rawModels. now rewrite E.
  - intros E.
    assert (M : QuotaFetcher.parseModels now entries = []).
    { pose proof (parseModels_filter now entries) as L. rewrite E in L.
      simpl in L. now apply map_eq_nil in L. }
    unfold QuotaFetcher.parseResponse. fold entries. rewrite M. reflexivity.
Qed.

(** ** Prompt credits *)

(** X7: when the credits are present, the monthly allotment is positive
    and the percentage is available / monthly * 100; it lies between 0
    and 100 when the available amount lies between 0 and the allotment. *)
Theorem credits_when_present (us : Wire.UserStatus)
    (c : QuotaFetcher.PromptCredits) :
  QuotaFetcher.parseCredits us = Some c ->
  (exists ps info,
     Wire.planStatus us = Some ps /\ Wire.planInfo ps = Some info /\
     QuotaFetcher.monthly c = Wire.monthlyPromptCredits info /\
     Wire.availablePromptCredits ps = Some (QuotaFetcher.available c)) /\
  (0 < QuotaFetcher.monthly c)%Q /\
  (QuotaFetcher.credits_remainingPct c ==
   QuotaFetcher.available c / QuotaFetcher.monthly c * 100)%Q /\
  ((0 <= QuotaFetcher.available c <= QuotaFetcher.monthly c)%Q ->
   (0 <= QuotaFetcher.credits_remainingPct c <= 100)%Q).
Proof.
  unfold QuotaFetcher.parseCredits.
  destruct (Wire.planStatus us) as [ps|]; [|discriminate].
  destruct (Wire.planInfo ps) as [info|] eqn:Ei; [|discriminate].
  destruct (Wire.availablePromptCredits ps) as [a|] eqn:Ea; [|discriminate].
  destruct (QuotaFetcher.Qltb 0 (Wire.monthlyPromptCredits info)) eqn:Em;
    [|discriminate].
  apply Qltb_true in Em.
  set (r := Qred _).
  assert (Hr : (r == a / Wire.monthlyPromptCredits info * 100)%Q)
    by apply Qred_correct.
  clearbody r. intros E. injection E as <-. simpl.
  split; [exists ps, info; auto|]. split; [exact Em|].
  split; [exact Hr|].
  intros [H0 H1]. rewrite Hr. split.
  - apply Qmult_le_0_compat; [|discriminate].
    apply Qle_shift_div_l; [assumption|]. now rewrite Qmult_0_l.
  - setoid_replace (100 : Q) with (1 * 100)%Q at 2 by reflexivity.
    apply Qmult_le_compat_r; [|discriminate].
    apply Qle_shift_div_r; [assumption|]. now rewrite Qmult_1_l.
Qed.

Lemma credits_when_present_witness :
  let us := {| Wire.planStatus :=
                 Some {| Wire.planInfo :=
                           Some {| Wire.monthlyPromptCredits := 500 |};
                         Wire.availablePromptCredits := Some 125%Q |};
               Wire.cascadeModelConfigData := None |} in
  exists c, QuotaFetcher.parseCredits us = Some c /\
            (QuotaFetcher.credits_remainingPct c == 25)%Q.
Proof.
  intros us. eexists. split; [reflexivity|].
  destruct (credits_when_present us _ eq_refl) as (_ & _ & E & _).
  rewrite E. reflexivity.
Defined.

(** The credits are omitted exactly when a section is absent or the
    monthly allotment is not positive. *)
Lemma credits_absent_iff (us : Wire.UserStatus) :
  QuotaFetcher.parseCredits us = None <->
  match Wire.planStatus us with
  | None => True
  | Some ps =>
      match Wire.planInfo ps, Wire.availablePromptCredits ps with
      | Some info, Some _ => (Wire.monthlyPromptCredits info <= 0)%Q
      | _, _ => True
      end
  end.
Proof.
  unfold QuotaFetcher.parseCredits.
  destruct (Wire.planStatus us) as [ps|]; [|tauto].
  destruct (Wire.planInfo ps) as [info|]; [|tauto].
  destruct (Wire.availablePromptCredits ps) as [a|]; [|tauto].
  destruct (QuotaFetcher.Qltb 0 (Wire.monthlyPromptCredits info)) eqn:E.
  - apply Qltb_true in E. split; [discriminate|].
    intros C. exfalso. now apply (Qlt_not_le _ _ E).
  - apply Qltb_false in E. tauto.
Qed.

(** ** Family hints *)

Lemma lowerChar_idem (c : ascii) : Js.lowerChar (Js.lowerChar c) = Js.lowerChar c.
Proof.
  destruct c as [[] [] [] [] [] [] [] []]; reflexivity.
Qed.

Lemma toLowerCase_idem (s : string) :
  Js.toLowerCase (Js.toLowerCase s) = Js.toLowerCase s.
Proof.
  induction s as [|c s IH]; simpl; [reflexivity|].
  now rewrite lowerChar_idem, IH.
Qed.

Lemma toLowerCase_append (a b : string) :
  Js.toLowerCase (a ++ b) = Js.toLowerCase a ++ Js.toLowerCase b.
Proof.
  induction a as [|c a IH]; simpl; [reflexivity | now rewrite IH].
Qed.

Lemma prefix_nil (s : string) : prefix "" s = true.
Proof. destruct s; reflexivity. Qed.

Lemma prefix_append (n a b : string) :
  prefix n a = true -> prefix n (a ++ b) = true.
Proof.
  revert a. induction n as [|c n IH]; intros a; [intros _; apply prefix_nil|].
  destruct a as [|d a]; simpl; [discriminate|].
  destruct (ascii_dec c d); [apply IH | discriminate].
Qed.

Lemma includes_cons (c : ascii) (a n : string) :
  Js.includes (String c a) n = prefix n (String c a) || Js.includes a n.
Proof. reflexivity. Qed.

Lemma includes_append_l (a b n : string) :
  Js.includes a n = true -> Js.includes (a ++ b) n = true.
Proof.
  induction a as [|c a IH].
  - simpl. rewrite orb_false_r. intros Hp.
    destruct n; [|discriminate].
    destruct b; reflexivity.
  - change (String c a ++ b) with (String c (a ++ b)).
    rewrite !includes_cons. intros H.
    apply orb_true_iff in H as [Hp|Hi].
    + change (String c (a ++ b)) with (String c a ++ b).
      rewrite (prefix_append _ _ _ Hp). reflexivity.
    + rewrite (IH Hi). apply orb_true_r.
Qed.

Lemma includes_append_r (a b n : string) :
  Js.includes b n = true -> Js.includes (a ++ b) n = true.
Proof.
  intros H. induction a as [|c a IH]; [assumption|].
  change (String c a ++ b) with (String c (a ++ b)).
  rewrite includes_cons, IH. apply orb_true_r.
Qed.

(** X8: the family of a model does not depend on the case of its label
    and identifier; a mention of claude in either gives the family
    claude whatever else is mentioned, and failing that a mention of gpt
    gives gpt; the family is gemini_flash only when gemini and flash are
    both mentioned, and other only when none of claude, gpt and gemini
    is. *)
Theorem classifyFamily_by_mentions (label modelId : string) :
  let lower := Js.toLowerCase (label ++ " " ++ modelId) in
  QuotaFetcher.classifyFamily (Js.toLowerCase label) (Js.toLowerCase modelId)
    = QuotaFetcher.classifyFamily label modelId /\
  (Js.includes (Js.toLowerCase label) "claude" = true \/
   Js.includes (Js.toLowerCase modelId) "claude" = true ->
   QuotaFetcher.classifyFamily label modelId = QuotaFetcher.claude) /\
  (Js.includes lower "claude" = false ->
   Js.includes (Js.toLowerCase label) "gpt" = true \/
   Js.includes (Js.toLowerCase modelId) "gpt" = true ->
   QuotaFetcher.classifyFamily label modelId = QuotaFetcher.gpt) /\
  (QuotaFetcher.classifyFamily label modelId = QuotaFetcher.gemini_flash <->
   Js.includes lower "claude" = false /\ Js.includes lower "gpt" = false /\
   Js.includes lower "gemini" = true /\ Js.includes lower "flash" = true) /\
  (QuotaFetcher.classifyFamily label modelId = QuotaFetcher.other <->
   Js.includes lower "claude" = false /\ Js.includes lower "gpt" = false /\
   Js.includes lower "gemini" = false).
Proof.
  intros lower.
  assert (Mention : forall n,
            Js.includes (Js.toLowerCase label) n = true \/
            Js.includes (Js.toLowerCase modelId) n = true ->
            Js.includes lower n = true).
  { intros n [Hl|Hm]; unfold lower; rewrite !toLowerCase_append.
    - now apply includes_append_l.
    - now apply includes_append_r, includes_append_r. }
  split; [|split; [|split; [|split]]].
  - unfold QuotaFetcher.classifyFamily.
    rewrite !toLowerCase_append, !toLowerCase_idem. reflexivity.
  - intros H. unfold QuotaFetcher.classifyFamily. fold lower.
    now rewrite (Mention _ H).
  - intros Hc H. unfold QuotaFetcher.classifyFamily. fold lower.
    now rewrite Hc, (Mention _ H).
  - unfold QuotaFetcher.classifyFamily. fold lower.
    destruct (Js.includes lower "claude"), (Js.includes lower "gpt"),
      (Js.includes lower "gemini"), (Js.includes lower "flash");
      split; try discriminate; try tauto;
      intros (A & B & C & D); discriminate.
  - unfold QuotaFetcher.classifyFamily. fold lower.
    destruct (Js.includes lower "claude"), (Js.includes lower "gpt"),
      (Js.includes lower "gemini"), (Js.includes lower "flash");
      split; try discriminate; try tauto;
      intros (A & B & C); discriminate.
Qed.

(** ** The workspace identifier *)

Lemma replaceChar_every (c : ascii) (by_ s : string) (p : ascii -> bool) :
  Js.every p by_ = true ->
  Js.every (fun x => Ascii.eqb x c || p x) s = true ->
  Js.every p (Js.replaceChar c by_ s) = true.
Proof.
  intros Hby. induction s as [|x s IH]; simpl; [reflexivity|].
  intros H. apply andb_true_iff in H as [Hx Hs].
  rewrite every_append, (IH Hs), andb_true_r.
  destruct (Ascii.eqb x c); [assumption|].
  simpl in Hx |- *. now rewrite Hx.
Qed.

(** X9: the workspace identifier starts with the literal file and
    contains neither a space nor a slash; a space of the path becomes
    _20 and a slash becomes an underscore, so that two different paths
    can receive the same identifier. *)
Theorem toWorkspaceId_alphabet (folderPath : string) :
  prefix "file" (ProcessFinder.toWorkspaceId folderPath) = true /\
  Js.every (fun c => negb (Ascii.eqb c " "%char)
                     && negb (Ascii.eqb c "/"%char))
           (ProcessFinder.toWorkspaceId folderPath) = true /\
  ProcessFinder.toWorkspaceId "/Users/me/My Project"
    = "file_Users_me_My_20Project" /\
  ProcessFinder.toWorkspaceId "/srv/a b" = ProcessFinder.toWorkspaceId "/srv/a_20b".
Proof.
  split; [unfold ProcessFinder.toWorkspaceId; simpl; apply prefix_nil|].
  split; [|split; reflexivity].
  unfold ProcessFinder.toWorkspaceId. rewrite every_append. simpl.
  set (ok := fun c => negb (Ascii.eqb c " "%char)
                      && negb (Ascii.eqb c "/"%char)).
  assert (Inner : Js.every (fun x => Ascii.eqb x "/"%char || ok x)
                    (Js.replaceChar " "%char "_20" folderPath) = true).
  { induction folderPath as [|x s IH]; simpl; [reflexivity|].
    rewrite every_append, IH, andb_true_r.
    destruct (Ascii.eqb_spec x " "%char) as [->|Hx]; [reflexivity|].
    simpl. rewrite andb_true_r. unfold ok.
    destruct (Ascii.eqb_spec x "/"%char); [reflexivity|].
    destruct (Ascii.eqb_spec x " "%char); [contradiction | reflexivity]. }
  apply replaceChar_every; [reflexivity | exact Inner].
Qed.

(** ** The process listing on Unix *)

Section UnixListing.

Local Open Scope list_scope.

Import ProcessFinder.

Lemma splitChar_pieces (sep : ascii) (s piece : string) :
  In piece (Js.splitChar sep s) ->
  Js.every (fun c => negb (Ascii.eqb c sep)) piece = true.
Proof.
  revert piece. induction s as [|c s IH]; intros piece; simpl.
  - intros [<-|[]]. reflexivity.
  - destruct (Ascii.eqb c sep) eqn:E.
    + intros [<-|Hin]; [reflexivity | now apply IH].
    + destruct (Js.splitChar sep s) as [|w ws].
      * intros [<-|[]]. simpl. now rewrite E.
      * intros [<-|Hin].
        -- simpl. rewrite E. simpl. apply IH. now left.
        -- apply IH. now right.
Qed.

Lemma splitChar_whole (sep : ascii) (t : string) :
  Js.every (fun c => negb (Ascii.eqb c sep)) t = true ->
  Js.splitChar sep t = [t].
Proof.
  induction t as [|c t IH]; simpl; [reflexivity|].
  intros H. apply andb_true_iff in H as [Hc Ht].
  apply negb_true_iff in Hc. rewrite Hc, (IH Ht). reflexivity.
Qed.

(** [parseUnix] reads the line it selects as the earlier revision reads
    a listing made of that line alone. *)
Lemma parseUnix_selection (stdout : string) (ws : option string) :
  parseUnix stdout ws =
    match
      match
        match ws with
        | Some (String c s) =>
            find (fun l => Js.includes l (toWorkspaceId (String c s)))
                 (candidateLines stdout)
        | _ => None
        end
      with
      | Some l => Some l
      | None => hd_error (candidateLines stdout)
      end
    with
    | Some t => Earlier.parseUnixLines [t]
    | None => None
    end.
Proof.
  unfold parseUnix. fold (candidateLines stdout).
  assert (Flag : forall t, In t (candidateLines stdout) ->
                           Js.includes t "--extension_server_port" = true).
  { intros t Ht. unfold candidateLines in Ht. now apply filter_In in Ht. }
  destruct ws as [[|c s]|];
    cbv beta iota.
  - destruct (candidateLines stdout) as [|t rest]; [reflexivity|].
    cbn [hd_error Earlier.parseUnixLines].
    now rewrite (Flag t (or_introl eq_refl)).
  - destruct (find _ (candidateLines stdout)) as [t|] eqn:Ef.
    + apply find_some in Ef as [Ht _].
      cbn [Earlier.parseUnixLines]. now rewrite (Flag t Ht).
    + destruct (candidateLines stdout) as [|t rest]; [reflexivity|].
      cbn [hd_error Earlier.parseUnixLines].
      now rewrite (Flag t (or_introl eq_refl)).
  - destruct (candidateLines stdout) as [|t rest]; [reflexivity|].
    cbn [hd_error Earlier.parseUnixLines].
    now rewrite (Flag t (or_introl eq_refl)).
Qed.

Lemma candidate_alone (stdout t : string) :
  In t (candidateLines stdout) -> candidateLines t = [t].
Proof.
  intros Ht. unfold candidateLines in *.
  apply filter_In in Ht as [Hsplit Hflag].
  rewrite (splitChar_whole _ _ (splitChar_pieces _ _ _ Hsplit)).
  simpl. now rewrite Hflag.
Qed.

Lemma parseUnix_of_candidate (stdout t : string) :
  In t (candidateLines stdout) ->
  parseUnix t None = Earlier.parseUnixLines [t].
Proof.
  intros Ht. rewrite parseUnix_selection.
  now rewrite (candidate_alone _ _ Ht).
Qed.

Lemma parseUnixLines_first (lines : list string) :
  Earlier.parseUnixLines lines =
    match hd_error (filter (fun l => Js.includes l "--extension_server_port")
                           lines) with
    | Some t => Earlier.parseUnixLines [t]
    | None => None
    end.
Proof.
  induction lines as [|l lines IH]; [reflexivity|].
  cbn [filter Earlier.parseUnixLines].
  destruct (Js.includes l "--extension_server_port") eqn:E; [|exact IH].
  cbn [hd_error Earlier.parseUnixLines]. now rewrite E.
Qed.

End UnixListing.

(** X10: among the lines of the listing that carry the port flag,
    [parseUnix] reads the first one that contains the identifier of the
    workspace, wherever it stands; when no line contains it, or no
    workspace path or an empty one is given, it reads the first line
    that carries the port flag. *)
Theorem parseUnix_prefers_workspace_line (stdout : string) :
  let lines := candidateLines stdout in
  (forall c s t,
     find (fun l => Js.includes l (ProcessFinder.toWorkspaceId (String c s)))
          lines = Some t ->
     ProcessFinder.parseUnix stdout (Some (String c s))
       = ProcessFinder.parseUnix t None /\
     Js.includes t (ProcessFinder.toWorkspaceId (String c s)) = true /\
     In t lines) /\
  (forall ws,
     find (fun l => Js.includes l (ProcessFinder.toWorkspaceId ws)) lines
       = None ->
     ProcessFinder.parseUnix stdout (Some ws)
       = ProcessFinder.parseUnix stdout None) /\
  ProcessFinder.parseUnix stdout (Some "")
    = ProcessFinder.parseUnix stdout None /\
  ProcessFinder.parseUnix stdout None =
    match lines with
    | [] => None
    | t :: _ => ProcessFinder.parseUnix t None
    end.
Proof.
  intros lines. split; [|split; [|split]].
  - intros c s t Ef. pose proof (find_some _ _ Ef) as [Ht Hw].
    split; [|split; assumption].
    rewrite parseUnix_selection. fold lines. rewrite Ef.
    symmetry. now apply parseUnix_of_candidate with stdout.
  - intros ws Ef. rewrite !parseUnix_selection. fold lines.
    destruct ws as [|c s]; [reflexivity|]. now rewrite Ef.
  - rewrite !parseUnix_selection. reflexivity.
  - rewrite parseUnix_selection. fold lines.
    destruct lines as [|t rest] eqn:E; [reflexivity|].
    cbn [hd_error]. symmetry. apply parseUnix_of_candidate with stdout.
    fold lines. rewrite E. now left.
Qed.

(** X11: without a workspace path [parseUnix] answers what the [parseUnix]
    of the revision without a workspace hint answers: the process of the
    first line of the listing that carries the port flag. *)
Theorem parseUnix_without_hint_is_earlier (stdout : string) :
  ProcessFinder.parseUnix stdout None = Earlier.parseUnix stdout /\
  ProcessFinder.parseUnix stdout (Some "") = Earlier.parseUnix stdout.
Proof.
  unfold Earlier.parseUnix.
  rewrite parseUnixLines_first, !parseUnix_selection.
  split; reflexivity.
Qed.

(** ** What a captured flag value is made of *)

Lemma span_fst_every (p : ascii -> bool) (s : string) :
  Js.every p (fst (Js.span p s)) = true.
Proof.
  induction s as [|c s IH]; simpl; [reflexivity|].
  destruct (p c) eqn:E; [|reflexivity].
  destruct (Js.span p s) as [a b]. simpl in *. now rewrite E, IH.
Qed.

Lemma matchFlag_capture (ci : bool) (lit : string) (sep val : ascii -> bool)
    (s v : string) :
  Js.matchFlag ci lit sep val s = Some v ->
  v <> "" /\ Js.every val v = true.
Proof.
  induction s as [|c s IH].
  - cbn [Js.matchFlag]. unfold Js.matchFlagHere.
    destruct (prefix lit _); [|discriminate].
    destruct (Js.span sep _) as [[|x a] rest']; [discriminate|].
    pose proof (span_fst_every val rest') as E.
    destruct (Js.span val rest') as [[|y w] r]; [discriminate|].
    intros H. injection H as <-. split; [discriminate | exact E].
  - cbn [Js.matchFlag].
    destruct (Js.matchFlagHere ci lit sep val (String c s)) as [w|] eqn:Eh;
      [|exact IH].
    intros H. injection H as <-. unfold Js.matchFlagHere in Eh.
    destruct (prefix lit _); [|discriminate].
    destruct (Js.span sep _) as [[|x a] rest']; [discriminate|].
    pose proof (span_fst_every val rest') as E.
    destruct (Js.span val rest') as [[|y w'] r]; [discriminate|].
    injection Eh as <-. split; [discriminate | exact E].
Qed.

Lemma digitsValue_nonneg (s : string) :
  forall acc, 0 <= acc -> 0 <= Js.digitsValue acc s.
Proof.
  induction s as [|c s IH]; intros acc Hacc; [assumption|].
  cbn [Js.digitsValue]. apply IH.
  pose proof (Nat2Z.is_nonneg (nat_of_ascii c - 48)). lia.
Qed.

Lemma hintedPort_nonneg (m : option string) : 0 <= ProcessFinder.hintedPort m.
Proof.
  destruct m; simpl; [now apply digitsValue_nonneg | lia].
Qed.

(** X12: the token that [parseUnix] answers is made of letters, digits
    and hyphens only (it may be empty); the token that [parseWindows]
    answers is not empty and is made of hexadecimal digits and hyphens
    only, and its process identifier is a number other than zero; the
    hinted port is never negative. *)
Theorem extracted_token_alphabet `{JsRuntime} (stdout : string)
    (ws : option string) :
  (forall parsed, ProcessFinder.parseUnix stdout ws = Some parsed ->
     Js.every ProcessFinder.isTokenChar
              (ProcessFinder.parsed_csrfToken parsed) = true /\
     0 <= ProcessFinder.extensionPort parsed) /\
  (forall parsed, ProcessFinder.parseWindows stdout = Some parsed ->
     ProcessFinder.parsed_csrfToken parsed <> "" /\
     Js.every ProcessFinder.isHexTokenChar
              (ProcessFinder.parsed_csrfToken parsed) = true /\
     (exists p, ProcessFinder.pid parsed = Some p /\ p <> 0) /\
     0 <= ProcessFinder.extensionPort parsed).
Proof.
  split.
  - intros parsed Hp. apply parseUnix_token in Hp as (cmd & -> & ->).
    split; [|apply hintedPort_nonneg].
    destruct (ProcessFinder.matchToken cmd) as [t|] eqn:E; [|reflexivity].
    now apply matchFlag_capture in E.
  - intros parsed. unfold ProcessFinder.parseWindows.
    destruct (JSON_parse_processes _) as [listing|]; [|discriminate].
    destruct (match listing with WinArray _ => _ | WinSingle _ => _ end)
      as [d|]; [|discriminate].
    destruct (ProcessId d) as [p|]; [|discriminate].
    destruct (p =? 0) eqn:Ep; [discriminate|]. apply Z.eqb_neq in Ep.
    destruct (ProcessFinder.matchTokenWindows _) as [t|] eqn:E;
      [|discriminate].
    intros Hs. injection Hs as <-. simpl.
    apply matchFlag_capture in E as [Hne Hall].
    split; [assumption|]. split; [assumption|].
    split; [eauto | apply hintedPort_nonneg].
Qed.

(** ** The locator when it finds nothing *)

(** X13: when the process table cannot be read, when its listing yields
    no process, and when the process has no listening port (its port
    listing cannot be read or shows none), the locator answers that
    nothing was found without sending any request. *)
Theorem locate_fails_before_probing `{JsRuntime} (ws : option string)
    (w : World) (log : Log) :
  let plat := platform w in
  let name := ProcessFinder.getProcessName plat (arch w) in
  let log1 := (log ++ [EvExec (ListProcesses plat name)])%list in
  (exec w log (ListProcesses plat name) = None ->
   ProcessFinder.findAntigravityProcess ws w log = (None, log1)) /\
  (forall stdout,
     exec w log (ListProcesses plat name) = Some stdout ->
     ProcessFinder.parseProcessOutput plat stdout ws = None ->
     ProcessFinder.findAntigravityProcess ws w log = (None, log1)) /\
  (forall stdout parsed,
     exec w log (ListProcesses plat name) = Some stdout ->
     ProcessFinder.parseProcessOutput plat stdout ws = Some parsed ->
     let listPorts := ListPorts plat (ProcessFinder.pid parsed) in
     (exec w log1 listPorts = None \/
      exists out, exec w log1 listPorts = Some out /\
                  scanPorts plat out (ProcessFinder.pid parsed) = []) ->
     ProcessFinder.findAntigravityProcess ws w log
       = (None, (log1 ++ [EvExec listPorts])%list)).
Proof.
  intros plat name log1. split; [|split].
  - intros E. rewrite findAntigravityProcess_run. cbv zeta.
    fold plat. fold name. now rewrite E.
  - intros stdout E Ep. rewrite findAntigravityProcess_run. cbv zeta.
    fold plat. fold name. now rewrite E, Ep.
  - intros stdout parsed E Ep listPorts Hports.
    rewrite findAntigravityProcess_run. cbv zeta.
    fold plat. fold name. rewrite E, Ep. fold log1. fold listPorts.
    destruct Hports as [-> | (out & -> & Hscan)]; [reflexivity|].
    unfold ProcessFinder.parsePortOutput. rewrite Hscan. reflexivity.
Qed.

(** X14: when every candidate port rejects the probe at the moment it is
    probed, the locator probes all of them, in ascending order, and
    answers that nothing was found. *)
Theorem locate_fails_after_probing_all `{JsRuntime}
    (w : World) (ws : option string) (log : Log) (stdout portsOut : string)
    (parsed : ProcessFinder.ParsedProcess) (ports : list Z) :
  let plat := platform w in
  let name := ProcessFinder.getProcessName plat (arch w) in
  let log1 := (log ++ [EvExec (ListProcesses plat name)])%list in
  let log2 :=
    (log1 ++ [EvExec (ListPorts plat (ProcessFinder.pid parsed))])%list in
  let tok := ProcessFinder.parsed_csrfToken parsed in
  exec w log (ListProcesses plat name) = Some stdout ->
  ProcessFinder.parseProcessOutput plat stdout ws = Some parsed ->
  exec w log1 (ListPorts plat (ProcessFinder.pid parsed)) = Some portsOut ->
  ProcessFinder.parsePortOutput plat portsOut (ProcessFinder.pid parsed)
    = ports ->
  (forall pre1 q pre2,
     ports = (pre1 ++ q :: pre2)%list ->
     ProcessFinder.probeAccepts
       (request w (log2 ++ probes tok pre1)%list
                (ProcessFinder.probeOptions q tok)) = false) ->
  StronglySorted Z.lt ports /\
  ProcessFinder.findAntigravityProcess ws w log =
    (None, (log2 ++ probes tok ports)%list).
Proof.
  intros plat name log1 log2 tok Hps Hparsed Hports Hsplit Hall.
  split; [rewrite <- Hsplit; apply parsePortOutput_sorted|].
  rewrite findAntigravityProcess_run. cbv zeta.
  fold plat. fold name. rewrite Hps, Hparsed.
  fold log1. rewrite Hports, Hsplit. fold log2. fold tok.
  destruct ports as [|q ports]; [simpl; now rewrite app_nil_r|].
  now rewrite (findWorkingPort_no_answer w tok (q :: ports) log2 Hall).
Qed.

Lemma locate_fails_after_probing_all_witness :
  let w := Sample.world Sample.processLine http Sample.data in
  ProcessFinder.findAntigravityProcess (H := Sample.runtime) None w [] =
    (None,
     [EvExec (ListProcesses linux "language_server_linux_x64");
      EvExec (ListPorts linux (Some 1234));
      EvRequest (ProcessFinder.probeOptions 42100 "6f1c-ab90");
      EvRequest (ProcessFinder.probeOptions 42101 "6f1c-ab90");
      EvRequest (ProcessFinder.probeOptions 42102 "6f1c-ab90")]).
Proof.
  intros w.
  refine (proj2
    (@locate_fails_after_probing_all Sample.runtime w None []
       Sample.processLine Sample.portListing
       {| ProcessFinder.pid := Some 1234;
          ProcessFinder.extensionPort := 42100;
          ProcessFinder.parsed_csrfToken := "6f1c-ab90" |}
       [42100; 42101; 42102] _ _ _ _ _)).
  - reflexivity.
  - reflexivity.
  - reflexivity.
  - reflexivity.
  - intros pre1 q pre2 _. unfold w. simpl.
    now rewrite andb_false_r.
Defined.

(** ** The status call *)

Lemma post_delivers (port : Z) (tok path : string) (protocol : Scheme)
    (w : World) (log : Log) (d : Wire.ServerResponse) :
  fst (Fetcher.post port tok path protocol w log) = Ok d <->
  delivered (request w log (Fetcher.postOptions port tok path protocol))
    = Some d.
Proof.
  unfold Fetcher.post, bind, sendRequest, ret, delivered. simpl.
  destruct (request w log _) as [| |statusCode [data|]];
    try (split; discriminate).
  - destruct (statusCode >=? 400); split; congruence.
  - destruct (statusCode >=? 400); split; discriminate.
Qed.

Lemma post_fails (port : Z) (tok path : string) (protocol : Scheme)
    (w : World) (log : Log) :
  (exists e, fst (Fetcher.post port tok path protocol w log) = Throw e) <->
  delivered (request w log (Fetcher.postOptions port tok path protocol))
    = None.
Proof.
  unfold Fetcher.post, bind, sendRequest, ret, delivered. simpl.
  destruct (request w log _) as [| |statusCode [data|]];
    try (split; eauto; fail).
  - destruct (statusCode >=? 400); split; eauto; try discriminate.
    intros [e C]. discriminate.
  - destruct (statusCode >=? 400); split; eauto.
Qed.

(** X15: a status call delivers a payload exactly when the HTTP attempt
    is answered with a status below 400 and parseable JSON, or that
    attempt fails and the HTTPS attempt, made after it, is so answered;
    the HTTPS request is sent only when the HTTP attempt failed, and
    when both fail the error reported is the one of the HTTPS attempt. *)
Theorem status_call_outcome (port : Z) (tok path : string) (w : World)
    (log : Log) :
  let first := Fetcher.postOptions port tok path http in
  let second := Fetcher.postOptions port tok path https in
  let r1 := request w log first in
  let r2 := request w (log ++ [EvRequest first])%list second in
  let call := Fetcher.postWithFallback port tok path w log in
  (forall d, fst call = Ok d <->
             delivered r1 = Some d \/
             (delivered r1 = None /\ delivered r2 = Some d)) /\
  (snd call =
     match delivered r1 with
     | Some _ => (log ++ [EvRequest first])%list
     | None => (log ++ [EvRequest first; EvRequest second])%list
     end) /\
  (delivered r1 = None ->
   fst call = fst (Fetcher.post port tok path https w
                     (log ++ [EvRequest first])%list)).
Proof.
  intros first second r1 r2 call.
  pose proof (postWithFallback_run port tok path w log) as R.
  cbv zeta in R. fold first second call in R.
  pose proof (post_delivers port tok path http w log) as D1.
  pose proof (post_fails port tok path http w log) as F1.
  pose proof (post_delivers port tok path https w
                (log ++ [EvRequest first])%list) as D2.
  fold first r1 in D1, F1. fold second r2 in D2.
  destruct (fst (Fetcher.post port tok path http w log)) as [d1|e1] eqn:E1.
  - pose proof (proj1 (D1 d1) eq_refl) as Hd. rewrite Hd, R. simpl.
    split; [|split; [reflexivity | discriminate]].
    intros d. split.
    + intros E. injection E as <-. now left.
    + intros [E|[C _]]; congruence.
  - destruct R as [Rcall Rlog].
    assert (Hn : delivered r1 = None) by (apply F1; eauto).
    rewrite Hn, Rlog. split; [|split; [reflexivity|]].
    + intros d. rewrite Rcall, D2. split; [auto|].
      intros [C|[_ E]]; [discriminate | assumption].
    + intros _. now rewrite Rcall.
Qed.

(** ** What a poll cycle sends, and how it ends *)

Section CycleFacts.

Local Open Scope list_scope.

Context {RT : JsRuntime}.

Lemma onlyLoopback_app (a b : Log) :
  onlyLoopback a -> onlyLoopback b -> onlyLoopback (a ++ b).
Proof.
  intros Ha Hb r Hin. apply in_app_or in Hin as [Hin|Hin]; auto.
Qed.

Lemma onlyLoopback_exec (c : Command) : onlyLoopback [EvExec c].
Proof. intros r [C|[]]. discriminate. Qed.

Lemma onlyLoopback_probes (tok : string) (ports : list Z) :
  onlyLoopback (probes tok ports).
Proof.
  intros r Hin. unfold probes in Hin.
  apply in_map_iff in Hin as (p & E & _). injection E as <-. reflexivity.
Qed.

Lemma onlyLoopback_status_calls (port : Z) (tok : string) (reqs : Log) :
  Forall (isStatusCallTo port tok) reqs -> onlyLoopback reqs.
Proof.
  intros F r Hin. rewrite Forall_forall in F.
  destruct (F _ Hin) as [protocol E]. injection E as ->. reflexivity.
Qed.

Lemma locator_events (ws : option string) (w : World) (log : Log) :
  exists evs,
    snd (ProcessFinder.findAntigravityProcess ws w log) = log ++ evs /\
    onlyLoopback evs.
Proof.
  rewrite findAntigravityProcess_run. cbv zeta.
  set (e1 := EvExec (ListProcesses _ _)).
  assert (L1 : onlyLoopback [e1]) by apply onlyLoopback_exec.
  destruct (exec w log _) as [stdout|]; [|exists [e1]; auto].
  destruct (ProcessFinder.parseProcessOutput _ stdout ws) as [parsed|];
    [|exists [e1]; auto].
  set (e2 := EvExec (ListPorts _ _)).
  assert (L2 : onlyLoopback ([e1] ++ [e2]))
    by (apply onlyLoopback_app; [assumption | apply onlyLoopback_exec]).
  destruct (match exec w (log ++ [e1]) _ with Some _ => _ | None => _ end)
    as [|q ports].
  - exists ([e1] ++ [e2]). split; [now rewrite app_assoc | assumption].
  - destruct (findWorkingPort_log w (ProcessFinder.parsed_csrfToken parsed)
                (q :: ports) ((log ++ [e1]) ++ [e2])) as [probed E].
    destruct (ProcessFinder.findWorkingPort (q :: ports) _ w _)
      as [wp log3].
    simpl in E |- *. subst log3.
    exists (([e1] ++ [e2]) ++ probes (ProcessFinder.parsed_csrfToken parsed)
                                     probed).
    split; [now rewrite !app_assoc|].
    apply onlyLoopback_app; [assumption | apply onlyLoopback_probes].
Qed.

Lemma fetch_events (port : Z) (tok : string) (w : World) (log : Log) :
  exists evs,
    snd (Fetcher.fetchQuota port tok w log) = log ++ evs /\
    onlyLoopback evs.
Proof.
  destruct (fetchQuota_log port tok w log) as (reqs & E & F & _).
  exists reqs. split; [assumption|].
  now apply onlyLoopback_status_calls with port tok.
Qed.

Lemma cycle_events (ws : option string) (st : Extension.State) (w : World)
    (log : Log) :
  exists evs,
    snd (Rendering.refreshQuota ws st w log) = log ++ evs /\
    onlyLoopback evs.
Proof.
  rewrite rendering_run. cbv zeta.
  destruct (Extension.processInfo st) as [info|].
  2:{ exists []. split; [now rewrite app_nil_r | intros r []]. }
  destruct (fetch_events (ProcessFinder.port info)
              (ProcessFinder.csrfToken info) w log) as (ev1 & E1 & L1).
  destruct (Fetcher.fetchQuota _ _ w log) as [r log1].
  simpl in E1; subst log1.
  destruct (Rendering.tryShow r st) as [st1 [|]]; [exists ev1; auto|].
  destruct (locator_events ws w (log ++ ev1)) as (ev2 & E2 & L2).
  destruct (ProcessFinder.findAntigravityProcess ws w (log ++ ev1))
    as [[info'|] log2]; simpl in E2; subst log2.
  - destruct (fetch_events (ProcessFinder.port info')
                (ProcessFinder.csrfToken info') w ((log ++ ev1) ++ ev2))
      as (ev3 & E3 & L3).
    destruct (Fetcher.fetchQuota _ _ w ((log ++ ev1) ++ ev2))
      as [r' log3]; simpl in E3; subst log3.
    destruct (Rendering.tryShow r' _) as [st3 d].
    exists ((ev1 ++ ev2) ++ ev3). split; [simpl; now rewrite !app_assoc|].
    repeat apply onlyLoopback_app; assumption.
  - exists (ev1 ++ ev2). split; [simpl; now rewrite app_assoc|].
    now apply onlyLoopback_app.
Qed.

End CycleFacts.

(** X16: whatever the world answers, every request that a poll cycle or
    a run of the locator sends is addressed to 127.0.0.1: a log that
    holds requests to the loopback address only still does after the
    cycle. *)
Theorem requests_stay_on_loopback `{JsRuntime} (ws : option string)
    (st : Extension.State) (w : World) (log : Log) :
  onlyLoopback log ->
  onlyLoopback (snd (Rendering.refreshQuota ws st w log)) /\
  onlyLoopback (snd (Extension.detectProcess ws st w log)) /\
  onlyLoopback (snd (ProcessFinder.findAntigravityProcess ws w log)).
Proof.
  intros Hlog.
  destruct (cycle_events ws st w log) as (evs & -> & L).
  destruct (locator_events ws w log) as (evs' & E' & L').
  split; [now apply onlyLoopback_app|].
  assert (D : snd (Extension.detectProcess ws st w log)
              = snd (ProcessFinder.findAntigravityProcess ws w log)).
  { unfold Extension.detectProcess, bind, ret.
    now destruct (ProcessFinder.findAntigravityProcess ws w log). }
  rewrite D, E'. split; now apply onlyLoopback_app.
Qed.

Lemma requests_stay_on_loopback_witness :
  let w := Sample.world Sample.processLine https Sample.data in
  let st := {| Extension.statusBarItem := Extension.Loading;
               Extension.processInfo :=
                 Some {| ProcessFinder.port := 42000;
                         ProcessFinder.csrfToken := "0a0a-stale" |};
               Extension.lastSnapshot := None |} in
  onlyLoopback
    (snd (Rendering.refreshQuota (H := Sample.runtime) None st w [])).
Proof.
  intros w st.
  apply (@requests_stay_on_loopback Sample.runtime None st w []).
  intros r [].
Defined.

(** X17: a cycle that starts without a stored connection shows No
    connection and calls nothing; a cycle whose first fetch succeeds
    with a snapshot whose tooltip can be drawn shows and stores the
    snapshot, keeps the stored connection and does not query the process
    table. *)
Theorem refreshQuota_without_failure `{JsRuntime} (ws : option string)
    (st : Extension.State) (w : World) (log : Log) :
  (Extension.processInfo st = None ->
   Rendering.refreshQuota ws st w log
     = (Extension.showError "No connection" st, log)) /\
  (forall info snapshot log1,
     Extension.processInfo st = Some info ->
     Fetcher.fetchQuota (ProcessFinder.port info)
       (ProcessFinder.csrfToken info) w log = (Ok snapshot, log1) ->
     Rendering.draws snapshot = true ->
     let final := fst (Rendering.refreshQuota ws st w log) in
     snd (Rendering.refreshQuota ws st w log) = log1 /\
     detections log1 = detections log /\
     Extension.statusBarItem final = Extension.QuotaShown snapshot /\
     Extension.lastSnapshot final = Some snapshot /\
     Extension.processInfo final = Some info).
Proof.
  split.
  - intros E. rewrite rendering_run. now rewrite E.
  - intros info snapshot log1 Ei Ef D final. subst final.
    rewrite rendering_run, Ei, Ef. unfold Rendering.tryShow.
    rewrite D. simpl.
    split; [reflexivity|]. split; [|auto].
    destruct (fetchQuota_log (ProcessFinder.port info)
                (ProcessFinder.csrfToken info) w log) as (reqs & E & F & _).
    rewrite Ef in E. simpl in E. subst log1.
    rewrite detections_app, (detections_status_calls _ _ _ F). lia.
Qed.

(** X18: a cycle never ends in the loading state.  It ends showing a
    snapshot, which is then the stored last snapshot and one whose
    tooltip can be drawn, or showing one of the two messages No
    connection and Fetch failed; in that case the stored last snapshot
    is the one the cycle started with, or a fetched one whose tooltip
    cannot be drawn. *)
Theorem refreshQuota_end_states `{JsRuntime} (ws : option string)
    (st : Extension.State) (w : World) (log : Log) :
  let final := fst (Rendering.refreshQuota ws st w log) in
  match Extension.statusBarItem final with
  | Extension.QuotaShown snapshot =>
      Extension.lastSnapshot final = Some snapshot /\
      Rendering.draws snapshot = true
  | Extension.ErrorShown msg =>
      (msg = "No connection" \/ msg = "Fetch failed") /\
      (Extension.lastSnapshot final = Extension.lastSnapshot st \/
       exists snapshot,
         Extension.lastSnapshot final = Some snapshot /\
         Rendering.draws snapshot = false)
  | Extension.Loading => False
  end.
Proof.
  intros final. subst final. rewrite rendering_run. cbv zeta.
  destruct (Extension.processInfo st) as [info|]; [|simpl; auto].
  destruct (Fetcher.fetchQuota _ _ w log) as [r log1].
  destruct (Rendering.tryShow r st) as [st1 [|]] eqn:T1.
  { apply tryShow_done in T1 as (snapshot & _ & D & ->). simpl. auto. }
  apply tryShow_failed in T1 as (_ & _ & L1).
  assert (K1 : Extension.lastSnapshot st1 = Extension.lastSnapshot st \/
               exists snapshot,
                 Extension.lastSnapshot st1 = Some snapshot /\
                 Rendering.draws snapshot = false).
  { destruct L1 as [(e & _ & ->)|(snapshot & _ & D & L)]; eauto. }
  destruct (ProcessFinder.findAntigravityProcess ws w log1)
    as [[info'|] log2]; [|simpl; auto].
  destruct (Fetcher.fetchQuota _ _ w log2) as [r' log3].
  destruct (Rendering.tryShow r' _) as [st3 [|]] eqn:T3.
  { apply tryShow_done in T3 as (snapshot & _ & D & ->). simpl. auto. }
  apply tryShow_failed in T3 as (_ & _ & L3). simpl.
  split; [auto|].
  destruct L3 as [(e & _ & ->)|(snapshot & _ & D & L)]; simpl; eauto.
Qed.

(** X19: when the tooltip of the first fetched snapshot cannot be drawn,
    the cycle goes on as after a failed fetch although the snapshot is
    already stored: the process table is queried once more, and the
    cycle ends either showing a later snapshot that can be drawn or
    showing Fetch failed with a stored last snapshot that cannot. *)
Theorem refreshQuota_when_a_bar_fails `{JsRuntime} (ws : option string)
    (st : Extension.State) (info : ProcessFinder.ProcessInfo)
    (snapshot : QuotaFetcher.QuotaSnapshot) (w : World) (log log1 : Log) :
  Extension.processInfo st = Some info ->
  Fetcher.fetchQuota (ProcessFinder.port info)
    (ProcessFinder.csrfToken info) w log = (Ok snapshot, log1) ->
  Rendering.draws snapshot = false ->
  let final := fst (Rendering.refreshQuota ws st w log) in
  detections (snd (Rendering.refreshQuota ws st w log))
    = (detections log + 1)%nat /\
  match Extension.statusBarItem final with
  | Extension.QuotaShown later =>
      Extension.lastSnapshot final = Some later /\
      Rendering.draws later = true
  | Extension.ErrorShown msg =>
      msg = "Fetch failed" /\
      exists stored,
        Extension.lastSnapshot final = Some stored /\
        Rendering.draws stored = false
  | Extension.Loading => False
  end.
Proof.
  intros Ei Ef D final. subst final.
  assert (T1 : Rendering.tryShow (Ok snapshot) st
               = (Extension.setLastSnapshot snapshot st, false))
    by (unfold Rendering.tryShow; now rewrite D).
  rewrite rendering_run, Ei, Ef, T1. cbv zeta.
  assert (D1 : detections log1 = detections log).
  { destruct (fetchQuota_log (ProcessFinder.port info)
                (ProcessFinder.csrfToken info) w log) as (reqs & E & F & _).
    rewrite Ef in E. simpl in E. subst log1.
    rewrite detections_app, (detections_status_calls _ _ _ F). lia. }
  pose proof (findAntigravityProcess_detects_once ws w log1) as D2.
  destruct (ProcessFinder.findAntigravityProcess ws w log1)
    as [[info'|] log2]; simpl in D2.
  2:{ simpl. split; [lia|]. split; [reflexivity|]. now exists snapshot. }
  destruct (fetchQuota_log (ProcessFinder.port info')
              (ProcessFinder.csrfToken info') w log2) as (reqs & E & F & _).
  destruct (Fetcher.fetchQuota _ _ w log2) as [r' log3].
  simpl in E. subst log3.
  assert (D3 : detections (log2 ++ reqs)%list = (detections log + 1)%nat).
  { rewrite detections_app, (detections_status_calls _ _ _ F). lia. }
  destruct (Rendering.tryShow r' _) as [st3 [|]] eqn:T3.
  { apply tryShow_done in T3 as (later & _ & Dl & ->). simpl. auto. }
  apply tryShow_failed in T3 as (_ & _ & L3). simpl.
  split; [exact D3|]. split; [reflexivity|].
  destruct L3 as [(e & _ & ->)|(later & _ & Dl & L)]; simpl; eauto.
Qed.

Lemma refreshQuota_when_a_bar_fails_witness :
  let w := Sample.world Sample.processLine http Rendering.overfull in
  let st := {| Extension.statusBarItem := Extension.Loading;
               Extension.processInfo :=
                 Some {| ProcessFinder.port := 42101;
                         ProcessFinder.csrfToken := "6f1c-ab90" |};
               Extension.lastSnapshot := None |} in
  detections
    (snd (Rendering.refreshQuota (H := Sample.runtime) None st w []))
    = 1%nat.
Proof.
  intros w st.
  refine (proj1 (@refreshQuota_when_a_bar_fails Sample.runtime None st
                   _ _ w [] _ eq_refl _ _)).
  - vm_compute. reflexivity.
  - vm_compute. reflexivity.
Defined.

(** ** The two revisions of formatTime *)

(** X21: the two revisions of [formatTime] render alike every duration
    that rounds up to fewer than 1440 minutes; they part only from one
    day on, where the earlier one keeps counting hours. *)
Theorem formatTime_revisions_agree_below_a_day (ms : Z) :
  QuotaFetcher.ceilMinutes ms < 1440 ->
  Legacy.formatTime ms = QuotaFetcher.formatTime ms.
Proof.
  intros Hm. unfold Legacy.formatTime, QuotaFetcher.formatTime.
  destruct (ms <=? 0); [reflexivity|].
  destruct (QuotaFetcher.ceilMinutes ms <? 60) eqn:E; [reflexivity|].
  apply Z.ltb_ge in E.
  assert (Hh : QuotaFetcher.ceilMinutes ms / 60 < 24)
    by (apply Z.div_lt_upper_bound; lia).
  destruct (QuotaFetcher.ceilMinutes ms / 60 >=? 24) eqn:E2; [|reflexivity].
  apply Z.geb_le in E2. lia.
Qed.

Lemma formatTime_revisions_agree_below_a_day_witness :
  Legacy.formatTime (125 * 60000) = QuotaFetcher.formatTime (125 * 60000).
Proof.
  apply formatTime_revisions_agree_below_a_day. vm_compute. reflexivity.
Defined.

(** ** What the status bar shows for a pool *)

Lemma derivePoolName_cases (ms : list QuotaFetcher.ModelQuota) :
  QuotaFetcher.derivePoolName ms = ("gemini", "Gemini") \/
  QuotaFetcher.derivePoolName ms = ("gemini_pro", "Gem Pro") \/
  QuotaFetcher.derivePoolName ms = ("gemini_flash", "Gem Flash") \/
  QuotaFetcher.derivePoolName ms = ("claude_gpt", "Claude") \/
  exists name, QuotaFetcher.derivePoolName ms = ("other", name).
Proof.
  unfold QuotaFetcher.derivePoolName.
  destruct (QuotaFetcher.hasFamily QuotaFetcher.gemini ms),
    (QuotaFetcher.hasFamily QuotaFetcher.gemini_flash ms); simpl; auto.
  destruct (QuotaFetcher.hasFamily QuotaFetcher.claude ms
            || QuotaFetcher.hasFamily QuotaFetcher.gpt ms); eauto 10.
Qed.

(** X22: the label of a pool in the status bar always comes from the
    table of short labels, never from the display name: it is the
    display name for the four named kinds of pool, and the fixed text
    Other for a pool named after its first member. *)
Theorem status_bar_label_of_pool `{JsRuntime} (now : Z)
    (data : Wire.ServerResponse) (snap : QuotaFetcher.QuotaSnapshot)
    (p : QuotaFetcher.QuotaPool) :
  QuotaFetcher.parseResponse now data = Ok snap ->
  In p (QuotaFetcher.pools snap) ->
  StatusBar.POOL_SHORT (QuotaFetcher.id p)
    = Some (StatusBar.shortLabel p) /\
  StatusBar.shortLabel p =
    if String.eqb (QuotaFetcher.id p) "other" then "Other"
    else QuotaFetcher.displayName p.
Proof.
  intros Hok Hp.
  destruct (snapshot_shape _ _ _ Hok) as (b & _ & _ & _ & Hmk & _).
  destruct (makePool_fields _ _ (Hmk p Hp)) as [Ename _].
  unfold StatusBar.shortLabel.
  destruct (derivePoolName_cases (QuotaFetcher.models p))
    as [E|[E|[E|[E|[name E]]]]];
    rewrite E in Ename; injection Ename as -> Ed; rewrite ?Ed;
    split; reflexivity.
Qed.

Lemma status_bar_label_of_pool_witness :
  exists snap p,
    QuotaFetcher.parseResponse (H := Sample.runtime) Sample.clock0 Sample.data
      = Ok snap /\
    In p (QuotaFetcher.pools snap) /\
    StatusBar.POOL_SHORT (QuotaFetcher.id p) = Some (StatusBar.shortLabel p).
Proof.
  eexists. eexists. split; [vm_compute; reflexivity|].
  split; [left; reflexivity|].
  apply (@status_bar_label_of_pool Sample.runtime Sample.clock0
           Sample.data _ _ eq_refl).
  left. reflexivity.
Defined.

(** X23: a pool whose flag of exhaustion is set shows the red dot, and
    its percentage is zero. *)
Theorem exhausted_pool_is_red `{JsRuntime} (now : Z)
    (data : Wire.ServerResponse) (snap : QuotaFetcher.QuotaSnapshot)
    (p : QuotaFetcher.QuotaPool) :
  QuotaFetcher.parseResponse now data = Ok snap ->
  In p (QuotaFetcher.pools snap) ->
  QuotaFetcher.pool_isExhausted p = true ->
  (QuotaFetcher.pool_remainingPct p == 0)%Q /\
  StatusBar.healthDot (QuotaFetcher.pool_remainingPct p) = StatusBar.Red.
Proof.
  intros Hok Hp Hex.
  destruct (snapshot_shape _ _ _ Hok) as (b & _ & _ & _ & Hmk & _).
  destruct (makePool_fields _ _ (Hmk p Hp))
    as (_ & rep & Hrep & F1 & F2 & _).
  pose proof (pool_member_is_model now data snap p rep Hok Hp Hrep) as M.
  destruct (parseResponse_ok _ _ _ Hok) as (_ & _ & _ & Em).
  rewrite Em in M. apply parseModels_In in M as (e & qi & _ & _ & ->).
  rewrite F2 in Hex. rewrite F1.
  unfold QuotaFetcher.parseModel in *.
  cbn [QuotaFetcher.remainingPct QuotaFetcher.isExhausted] in *.
  apply Qeq_bool_iff in Hex.
  assert (Z0 : (Qred (Js.orZero (Wire.remainingFraction qi) * 100) == 0)%Q).
  { rewrite Qred_correct, Hex. reflexivity. }
  split; [exact Z0|].
  unfold StatusBar.healthDot.
  assert (N50 : QuotaFetcher.Qltb 50
                  (Qred (Js.orZero (Wire.remainingFraction qi) * 100))
                = false) by (apply Qltb_false; rewrite Z0; discriminate).
  assert (N20 : QuotaFetcher.Qltb 20
                  (Qred (Js.orZero (Wire.remainingFraction qi) * 100))
                = false) by (apply Qltb_false; rewrite Z0; discriminate).
  now rewrite N50, N20.
Qed.

Lemma exhausted_pool_is_red_witness :
  exists snap p,
    QuotaFetcher.parseResponse (H := Sample.runtime) Sample.clock0 Sample.data
      = Ok snap /\
    In p (QuotaFetcher.pools snap) /\
    StatusBar.healthDot (QuotaFetcher.pool_remainingPct p) = StatusBar.Red.
Proof.
  eexists. eexists. split; [vm_compute; reflexivity|].
  split; [right; left; reflexivity|].
  apply (@exhausted_pool_is_red Sample.runtime Sample.clock0
           Sample.data _ _ eq_refl).
  - right. left. reflexivity.
  - reflexivity.
Defined.

(** ** The bar of the tooltip *)

Lemma Math_round_bounds (x : Q) (lo hi : Z) :
  (inject_Z lo + (1 # 2) <= x + (1 # 2))%Q ->
  (x + (1 # 2) <= inject_Z hi + (1 # 2))%Q ->
  lo <= StatusBar.Math_round x <= hi.
Proof.
  intros Hlo Hhi. unfold StatusBar.Math_round. split.
  - apply Qfloor_resp_le in Hlo.
    assert (E : Qfloor (inject_Z lo + (1 # 2)) = lo).
    { unfold Qfloor, Qplus, inject_Z. simpl.
      replace (lo * 2 + 1) with (1 + lo * 2) by lia.
      rewrite Z.div_add by lia. reflexivity. }
    lia.
  - apply Qfloor_resp_le in Hhi.
    assert (E : Qfloor (inject_Z hi + (1 # 2)) = hi).
    { unfold Qfloor, Qplus, inject_Z. simpl.
      replace (hi * 2 + 1) with (1 + hi * 2) by lia.
      rewrite Z.div_add by lia. reflexivity. }
    lia.
Qed.

Lemma bar_scale (pct : Q) :
  (pct / 100 * inject_Z 20 == pct * (1 # 5))%Q.
Proof. unfold inject_Z. field. Qed.

Lemma visualBar_in_range (pct : Q) :
  (0 <= pct)%Q -> (pct <= 100)%Q ->
  exists n,
    0 <= n <= 20 /\
    StatusBar.visualBar pct
      = Some (repeat StatusBar.Filled (Z.to_nat n)
              ++ repeat StatusBar.Hollow (Z.to_nat (20 - n)))%list.
Proof.
  intros H0 H100.
  assert (B : 0 <= StatusBar.Math_round (pct / 100 * inject_Z 20) <= 20).
  { apply Math_round_bounds; rewrite bar_scale;
      apply Qplus_le_l.
    - apply Qmult_le_0_compat; [assumption | discriminate].
    - apply Qle_trans with (100 * (1 # 5))%Q; [|discriminate].
      apply Qmult_le_compat_r; [assumption | discriminate]. }
  exists (StatusBar.Math_round (pct / 100 * inject_Z 20)).
  split; [exact B|].
  unfold StatusBar.visualBar, StatusBar.String_repeat. cbv zeta.
  destruct (Z.ltb_spec (StatusBar.Math_round (pct / 100 * inject_Z 20)) 0);
    [lia|].
  destruct (Z.ltb_spec
              (20 - StatusBar.Math_round (pct / 100 * inject_Z 20)) 0);
    [lia|].
  reflexivity.
Qed.

(** X24: for a percentage between 0 and 100 the bar of the tooltip is
    drawn, and it has exactly twenty cells, the filled ones first. *)
Theorem visualBar_has_twenty_cells (pct : Q) :
  (0 <= pct)%Q -> (pct <= 100)%Q ->
  exists filled bar,
    StatusBar.visualBar pct = Some bar /\
    (filled <= 20)%nat /\
    bar = (repeat StatusBar.Filled filled
           ++ repeat StatusBar.Hollow (20 - filled))%list /\
    List.length bar = 20%nat.
Proof.
  intros H0 H100.
  destruct (visualBar_in_range pct H0 H100) as (n & B & E).
  exists (Z.to_nat n). eexists. split; [exact E|].
  assert (N : Z.to_nat (20 - n) = (20 - Z.to_nat n)%nat) by lia.
  rewrite N. split; [lia|]. split; [reflexivity|].
  rewrite length_app, !repeat_length. lia.
Qed.

Lemma visualBar_has_twenty_cells_witness :
  exists filled bar,
    StatusBar.visualBar 35 = Some bar /\
    (filled <= 20)%nat /\
    bar = (repeat StatusBar.Filled filled
           ++ repeat StatusBar.Hollow (20 - filled))%list /\
    List.length bar = 20%nat.
Proof.
  apply visualBar_has_twenty_cells; discriminate.
Defined.

(** X25: for a percentage of 103 or more, or of minus 3 or less, the
    bar cannot be drawn: one of the two counts of cells is negative. *)
Theorem visualBar_out_of_range (pct : Q) :
  (103 <= pct)%Q \/ (pct <= -3)%Q ->
  StatusBar.visualBar pct = None.
Proof.
  intros H.
  unfold StatusBar.visualBar, StatusBar.String_repeat. cbv zeta.
  set (filled := StatusBar.Math_round (pct / 100 * inject_Z 20)).
  destruct H as [H|H].
  - assert (B : 21 <= filled).
    { unfold filled, StatusBar.Math_round.
      assert (L : (inject_Z 21 <= pct / 100 * inject_Z 20 + (1 # 2))%Q).
      { rewrite bar_scale.
        apply Qle_trans with (103 * (1 # 5) + (1 # 2))%Q; [discriminate|].
        apply Qplus_le_l.
        apply Qmult_le_compat_r; [assumption | discriminate]. }
      apply Qfloor_resp_le in L. now rewrite Qfloor_Z in L. }
    destruct (Z.ltb_spec filled 0); [reflexivity|].
    destruct (Z.ltb_spec (20 - filled) 0); [reflexivity | lia].
  - assert (B : filled <= -1).
    { unfold filled, StatusBar.Math_round.
      assert (L : (pct / 100 * inject_Z 20 + (1 # 2) <= -1 # 10)%Q).
      { rewrite bar_scale.
        apply Qle_trans with (-3 * (1 # 5) + (1 # 2))%Q; [|discriminate].
        apply Qplus_le_l.
        apply Qmult_le_compat_r; [assumption | discriminate]. }
      apply Qfloor_resp_le in L. exact L. }
    destruct (Z.ltb_spec filled 0); [reflexivity | lia].
Qed.

Lemma visualBar_out_of_range_witness :
  StatusBar.visualBar 110 = None.
Proof.
  apply visualBar_out_of_range. left. discriminate.
Defined.

(** X26: when every fraction of the payload lies between 0 and 1, an
    absent one counting as 0, the tooltip of the snapshot can be
    drawn. *)
Theorem fractions_in_range_draw `{JsRuntime} (now : Z)
    (data : Wire.ServerResponse) (snap : QuotaFetcher.QuotaSnapshot) :
  QuotaFetcher.parseResponse now data = Ok snap ->
  (forall m qi,
     In m (rawModels (Wire.userStatus data)) ->
     Wire.quotaInfo m = Some qi ->
     (0 <= Js.orZero (Wire.remainingFraction qi))%Q /\
     (Js.orZero (Wire.remainingFraction qi) <= 1)%Q) ->
  Rendering.draws snap = true.
Proof.
  intros Hok Hrange. unfold Rendering.draws.
  apply forallb_forall. intros p Hp.
  destruct (snapshot_shape _ _ _ Hok) as (b & _ & _ & _ & Hmk & _).
  destruct (makePool_fields _ _ (Hmk p Hp))
    as (_ & rep & Hrep & F1 & _).
  pose proof (pool_member_is_model now data snap p rep Hok Hp Hrep) as M.
  destruct (parseResponse_ok _ _ _ Hok) as (_ & _ & _ & Em).
  rewrite Em in M. apply parseModels_In in M as (e & qi & He & Hq & ->).
  destruct (Hrange e qi He Hq) as [R0 R1].
  rewrite F1. unfold QuotaFetcher.parseModel.
  cbn [QuotaFetcher.remainingPct].
  set (f := Js.orZero (Wire.remainingFraction qi)) in *.
  destruct (visualBar_in_range (Qred (f * 100))) as (n & _ & ->);
    [| |reflexivity].
  - rewrite Qred_correct.
    apply Qmult_le_0_compat; [assumption | discriminate].
  - rewrite Qred_correct.
    apply Qle_trans with (1 * 100)%Q; [|discriminate].
    apply Qmult_le_compat_r; [assumption | discriminate].
Qed.

Lemma fractions_in_range_draw_witness :
  exists snap,
    QuotaFetcher.parseResponse (H := Sample.runtime) Sample.clock0 Sample.data
      = Ok snap /\
    Rendering.draws snap = true.
Proof.
  eexists. split; [vm_compute; reflexivity|].
  apply (@fractions_in_range_draw Sample.runtime Sample.clock0 Sample.data
           _ eq_refl).
  intros m qi Hin Hq.
  repeat (destruct Hin as [<-|Hin];
          [injection Hq as <-; split; discriminate|]).
  destruct Hin.
Defined.

(** ** The command that toggles the clock format *)

(** X27: the command that toggles the clock format always stores one of
    the three values auto, 12h and 24h; from one of them, three toggles
    lead back to it; any other stored value is replaced by auto. *)
Theorem nextClockFormat_cycle (current : string) :
  (StatusBar.nextClockFormat current = "auto" \/
   StatusBar.nextClockFormat current = "12h" \/
   StatusBar.nextClockFormat current = "24h") /\
  (current = "auto" \/ current = "12h" \/ current = "24h" ->
   StatusBar.nextClockFormat
     (StatusBar.nextClockFormat (StatusBar.nextClockFormat current))
   = current) /\
  (current <> "auto" -> current <> "12h" ->
   StatusBar.nextClockFormat current = "auto").
Proof.
  unfold StatusBar.nextClockFormat. repeat split.
  - destruct (String.eqb current "auto"); [auto|].
    destruct (String.eqb current "12h"); auto.
  - intros [->|[->| ->]]; reflexivity.
  - intros N1 N2.
    destruct (String.eqb_spec current "auto"); [contradiction|].
    destruct (String.eqb_spec current "12h"); [contradiction|].
    reflexivity.
Qed.

(** ** The process listing of Windows *)

(** X28: on Windows, a listing that is an array is filtered to the
    processes of Antigravity, and the first one that passes is parsed
    exactly as if it had been listed alone; when none passes, nothing is
    found.  A process listed alone is not filtered: with a process
    identifier other than zero and a token on its command line, it is
    found whatever that command line names. *)
Theorem parseWindows_filters_arrays_only `{JsRuntime}
    (stdout alone : string) (ds : list WinProcess) (d : WinProcess) :
  JSON_parse_processes (Js.trim stdout) = Some (WinArray ds) ->
  JSON_parse_processes (Js.trim alone) = Some (WinSingle d) ->
  (filter ProcessFinder.isAntigravity ds = [] ->
   ProcessFinder.parseWindows stdout = None) /\
  (hd_error (filter ProcessFinder.isAntigravity ds) = Some d ->
   ProcessFinder.parseWindows stdout = ProcessFinder.parseWindows alone) /\
  (forall p token,
     ProcessId d = Some p -> p <> 0 ->
     ProcessFinder.matchTokenWindows (Js.orElse (CommandLine d) "")
       = Some token ->
     exists parsed,
       ProcessFinder.parseWindows alone = Some parsed /\
       ProcessFinder.pid parsed = Some p /\
       ProcessFinder.parsed_csrfToken parsed = token).
Proof.
  intros Harr Hone. unfold ProcessFinder.parseWindows.
  rewrite Harr, Hone. repeat split.
  - intros ->. reflexivity.
  - intros ->. reflexivity.
  - intros p token Hp Hnz Ht. rewrite Hp, Ht.
    destruct (Z.eqb_spec p 0); [contradiction|].
    eexists. split; [reflexivity|]. split; reflexivity.
Qed.

Lemma parseWindows_filters_arrays_only_witness :
  ProcessFinder.parseWindows (H := WindowsSample.runtime) "rows"
    = ProcessFinder.parseWindows (H := WindowsSample.runtime) "row".
Proof.
  refine (proj1 (proj2 (@parseWindows_filters_arrays_only
                          WindowsSample.runtime "rows" "row"
                          [WindowsSample.foreign; WindowsSample.own]
                          WindowsSample.own eq_refl eq_refl)) _).
  vm_compute. reflexivity.
Defined.

(** ** The two revisions of the classification by name *)

Lemma testAnywhere_includes (needle : string) (k : string -> bool)
    (s : string) :
  Legacy.testAnywhere (fun r => prefix needle r && k r) s = true ->
  Js.includes s needle = true.
Proof.
  induction s as [|c s IH].
  - simpl. rewrite orb_false_r. intros E.
    apply andb_true_iff in E as [E _]. now rewrite E.
  - cbn [Legacy.testAnywhere]. rewrite includes_cons.
    intros E. apply orb_true_iff in E as [E|E].
    + apply andb_true_iff in E as [E _]. now rewrite E.
    + rewrite (IH E). apply orb_true_r.
Qed.

(** X29: in the earlier revision the test for the word gemini that
    guards the two patterns decides nothing, since each pattern begins
    with that word; and the two revisions agree on what is a Claude or
    GPT model, while a name that the earlier one places in a Gemini pool
    is of a Gemini family for the later one. *)
Theorem classify_revisions_agree (label modelId : string) :
  let lower := Js.toLowerCase (label ++ " " ++ modelId) in
  Legacy.classifyModel label modelId =
    (if Js.includes lower "claude" || Js.includes lower "gpt"
     then Legacy.claude_gpt
     else if Legacy.testGemini3 lower then Legacy.gemini3
     else if Legacy.testGemini25 lower then Legacy.gemini2_5
     else Legacy.other) /\
  (Legacy.classifyModel label modelId = Legacy.claude_gpt <->
   QuotaFetcher.classifyFamily label modelId = QuotaFetcher.claude \/
   QuotaFetcher.classifyFamily label modelId = QuotaFetcher.gpt) /\
  (Legacy.classifyModel label modelId = Legacy.gemini3 \/
   Legacy.classifyModel label modelId = Legacy.gemini2_5 ->
   QuotaFetcher.classifyFamily label modelId = QuotaFetcher.gemini \/
   QuotaFetcher.classifyFamily label modelId = QuotaFetcher.gemini_flash).
Proof.
  intros lower.
  unfold Legacy.classifyModel, QuotaFetcher.classifyFamily.
  fold lower.
  assert (G3 : Legacy.testGemini3 lower = true ->
               Js.includes lower "gemini" = true)
    by apply testAnywhere_includes.
  assert (G25 : Legacy.testGemini25 lower = true ->
                Js.includes lower "gemini" = true)
    by apply testAnywhere_includes.
  destruct (Js.includes lower "claude"), (Js.includes lower "gpt");
    cbn [orb];
    try (split; [reflexivity|]; split;
         [split; auto | intros [C|C]; discriminate]).
  destruct (Js.includes lower "gemini").
  - split; [reflexivity|]. split.
    + split.
      * destruct (Legacy.testGemini3 lower); [discriminate|].
        destruct (Legacy.testGemini25 lower); discriminate.
      * destruct (Js.includes lower "flash");
          intros [C|C]; discriminate.
    + intros _. destruct (Js.includes lower "flash"); auto.
  - destruct (Legacy.testGemini3 lower); [now specialize (G3 eq_refl)|].
    destruct (Legacy.testGemini25 lower); [now specialize (G25 eq_refl)|].
    split; [reflexivity|]. split.
    + split; [discriminate | intros [C|C]; discriminate].
    + intros [C|C]; discriminate.
Qed.
